(** * Audio conversion and voice-activity detection of the Discord voice plugin

    A shallow embedding of [src/audio-converter.ts] (the resamplers of
    [OpusToPCMConverter] and [PCMToOpusConverter], and [VADDetector]) and of
    the session-buffer part of [src/index.ts], with the properties of the
    specification proved about it.

    Conventions of the embedding.
    - A thrown exception is the [Throw] case of [result]; statements are
      sequenced with the bind of that monad.
    - A JavaScript number is a [number]: a rational that is a double, an
      infinity or NaN.  Every [*], [/], [+] and [-] of the source whose
      result can carry a fraction is the operation of [Number], which
      rounds the exact result to the nearest double, a tie going to the
      even one ([Double.round], IEEE 754 binary64 with its subnormals and
      its overflow to the infinities).  The two zeros are one.
    - A number that is an integer by construction (a length, a loop
      counter, a sample, a sum of samples, the counter of silent chunks and
      its product with a length) is a [Z]; on integers below 2^53, and on
      their halves, the operations of doubles are exact.
    - A Node [Buffer] is a list of bytes.  [readInt16LE], [writeInt16LE] and
      [Buffer.alloc] follow Node's library code, including the range checks
      that make them throw.  Allocation is taken to succeed for every size
      that is a number and not negative.
    - [emit] and [push] are outputs of the step function: the list of events
      emitted and the list of chunks handed to [this.push], in order.  What
      the reader of the stream gets of the chunks pushed is
      [Readable.data]. *)

From Stdlib Require Import ZArith QArith Qround Qpower Qabs Lia Lqa.
From Stdlib Require Import List Ascii String.
From Stdlib.Strings Require Import Byte.
From stdpp Require Import gmap strings list.

Local Open Scope Z_scope.

(** ** Exceptions *)

(** The two codes a Buffer access can throw. *)
Inductive RangeError : Type :=
  | ERR_OUT_OF_RANGE
  | ERR_BUFFER_OUT_OF_BOUNDS.

Inductive result (A : Type) : Type :=
  | Ok (a : A)
  | Throw (e : RangeError).

Arguments Ok {A} a.
Arguments Throw {A} e.

Definition bind {A B : Type} (r : result A) (k : A -> result B) : result B :=
  match r with
  | Ok a => k a
  | Throw e => Throw e
  end.

Notation "'let*' x ':=' r 'in' k" := (bind r (fun x => k))
  (at level 10, x name, r at level 100, k at level 200).

(** ** Numbers *)

Inductive number : Type :=
  | Fin (q : Q)
  | Infinity (negative : bool)
  | NaN.

(** Rounding to the nearest double. *)
Module Double.

Definition pow2 (e : Z) : Q := (2 ^ e)%Q.

(** The exponent of a positive rational [x]:
    [2^e <= x < 2^(e+1)]. *)
Definition exponent (x : Q) : Z :=
  let e := Z.log2 (Qnum x) - Z.log2 (Zpos (Qden x)) in
  if Qle_bool (pow2 e) x then e else e - 1.

(** The nearest integer, a tie going to the even one. *)
Definition nearest_even (x : Q) : Z :=
  let f := Qfloor x in
  match Qcompare (x - inject_Z f) (1 # 2) with
  | Lt => f
  | Gt => f + 1
  | Eq => if Z.even f then f else f + 1
  end.

(** The nearest double of a positive rational, the exponent unbounded
    above: the nearest multiple of [2^(e - 52)], and of [2^(-1074)] below
    the normal range. *)
Definition rnd_pos (x : Q) : Q :=
  let q := Z.max (exponent x) (-1022) - 52 in
  (inject_Z (nearest_even (x / pow2 q)) * pow2 q)%Q.

Definition rnd (x : Q) : Q :=
  match Qcompare x 0 with
  | Eq => 0%Q
  | Gt => rnd_pos x
  | Lt => (- rnd_pos (- x))%Q
  end.

(** The double an exact result is rounded to: an infinity from [2^1024]
    on. *)
Definition round (x : Q) : number :=
  let y := rnd x in
  if Qle_bool (pow2 1024) (Qabs y)
  then Infinity (negb (Qle_bool 0 y))
  else Fin (Qred y).

End Double.

Module Number.

Definition Qltb (x y : Q) : bool := negb (Qle_bool y x).

Definition of_Z (z : Z) : number := Fin (inject_Z z).

(** [a * b] *)
Definition mul (a b : number) : number :=
  match a, b with
  | NaN, _ | _, NaN => NaN
  | Fin x, Fin y => Double.round (x * y)
  | Fin x, Infinity s | Infinity s, Fin x =>
      if Qeq_bool x 0 then NaN else Infinity (xorb s (Qltb x 0))
  | Infinity s, Infinity t => Infinity (xorb s t)
  end.

(** [a / b] *)
Definition div (a b : number) : number :=
  match a, b with
  | NaN, _ | _, NaN => NaN
  | Fin x, Fin y =>
      if Qeq_bool y 0
      then (if Qeq_bool x 0 then NaN else Infinity (Qltb x 0))
      else Double.round (x / y)
  | Fin _, Infinity _ => Fin 0
  | Infinity s, Fin y => Infinity (xorb s (Qltb y 0))
  | Infinity _, Infinity _ => NaN
  end.

(** [a + b] *)
Definition add (a b : number) : number :=
  match a, b with
  | NaN, _ | _, NaN => NaN
  | Fin x, Fin y => Double.round (x + y)
  | Fin _, Infinity s | Infinity s, Fin _ => Infinity s
  | Infinity s, Infinity t => if Bool.eqb s t then Infinity s else NaN
  end.

(** [a - b] *)
Definition sub (a b : number) : number :=
  match a, b with
  | NaN, _ | _, NaN => NaN
  | Fin x, Fin y => Double.round (x - y)
  | Fin _, Infinity s => Infinity (negb s)
  | Infinity s, Fin _ => Infinity s
  | Infinity s, Infinity t => if Bool.eqb s t then NaN else Infinity s
  end.

(** [a < b]: false as soon as one side is NaN. *)
Definition lt (a b : number) : bool :=
  match a, b with
  | NaN, _ | _, NaN => false
  | Fin x, Fin y => Qltb x y
  | Fin _, Infinity s => negb s
  | Infinity s, Fin _ => s
  | Infinity s, Infinity t => s && negb t
  end.

(** [a >= b]: false as soon as one side is NaN. *)
Definition ge (a b : number) : bool :=
  match a, b with
  | NaN, _ | _, NaN => false
  | Fin x, Fin y => Qle_bool y x
  | Fin _, Infinity s => s
  | Infinity s, Fin _ => negb s
  | Infinity s, Infinity t => negb s || t
  end.

End Number.

(** [Math.round] of a rational: the nearest integer, a tie going up. *)
Definition Math_round (x : Q) : Z := Qfloor (x + (1 # 2))%Q.

(** [Math.floor], [Math.round], [Math.min] and [Math.max] of numbers. *)
Module Math.

Definition floor (x : number) : number :=
  match x with
  | Fin q => Number.of_Z (Qfloor q)
  | _ => x
  end.

Definition round (x : number) : number :=
  match x with
  | Fin q => Number.of_Z (Math_round q)
  | _ => x
  end.

Definition min (a b : number) : number :=
  match a, b with
  | NaN, _ | _, NaN => NaN
  | _, _ => if Number.lt b a then b else a
  end.

Definition max (a b : number) : number :=
  match a, b with
  | NaN, _ | _, NaN => NaN
  | _, _ => if Number.lt a b then b else a
  end.

End Math.

(** ** Buffers *)

Module Buffer.

Abbreviation t := (list byte) (only parsing).

(** [buf.length] *)
Definition len (buf : t) : Z := Z.of_nat (length buf).

(** The value of a byte, 0..255. *)
Definition byte_val (b : byte) : Z := Z.of_N (Byte.to_N b).

(** Storing a number into a [Uint8Array] cell keeps it modulo 256. *)
Definition byte_of (z : Z) : byte :=
  match Byte.of_N (Z.to_N (z mod 256)) with
  | Some b => b
  | None => x00
  end.

(** [buf[offset]]: [None] is JavaScript's [undefined]. *)
Definition get (buf : t) (offset : Z) : option byte :=
  if offset <? 0 then None else buf !! Z.to_nat offset.

(** [buf[offset] = value] on an index known to be in range. *)
Definition set (buf : t) (offset : Z) (value : Z) : t :=
  <[Z.to_nat offset := byte_of value]> buf.

(** Node's [boundsError(value, length)] for an integer [value]. *)
Definition boundsError {A : Type} (value length : Z) : result A :=
  if length <? 0 then Throw ERR_BUFFER_OUT_OF_BOUNDS
  else Throw ERR_OUT_OF_RANGE.

(** [Buffer.alloc(size)]: zero-filled. *)
Definition alloc (size : Z) : result t :=
  if size <? 0 then Throw ERR_OUT_OF_RANGE
  else Ok (replicate (Z.to_nat size) x00).

(** [buf.readInt16LE(offset)]: two bytes, little endian, two's
    complement. *)
Definition readInt16LE (buf : t) (offset : Z) : result Z :=
  match get buf offset, get buf (offset + 1) with
  | Some first, Some last =>
      let val := byte_val first + byte_val last * 2 ^ 8 in
      Ok (if val <? 2 ^ 15 then val else val - 2 ^ 16)
  | _, _ => boundsError offset (len buf - 2)
  end.

(** [buf.writeInt16LE(value, offset)]: the value is checked first, then
    the offset; the low byte is stored at [offset], [value >>> 8] at
    [offset + 1]. *)
Definition writeInt16LE (buf : t) (value offset : Z) : result t :=
  if (value >? 32767) || (value <? -32768) then Throw ERR_OUT_OF_RANGE
  else
    match get buf offset, get buf (offset + 1) with
    | Some _, Some _ =>
        Ok (set (set buf offset value) (offset + 1) (Z.shiftr value 8))
    | _, _ => boundsError offset (len buf - 2)
    end.

(** [Buffer.concat(list)] *)
Definition concat (chunks : list t) : t := mjoin chunks.

(** [buffer.constants.MAX_LENGTH], at its largest: no buffer is longer. *)
Definition kMaxLength : Z := 2 ^ 53 - 1.

(** The methods called with a number that need not be an integer.
    [Buffer.alloc(size)] throws on NaN and the infinities. *)
Definition alloc_number (size : number) : result t :=
  match size with
  | Fin q => alloc (Qfloor q)
  | _ => Throw ERR_OUT_OF_RANGE
  end.

(** [buf.readInt16LE(offset)]: [buf[offset]] is undefined at an offset
    that is not an integer, and [boundsError] tells such an offset from
    an integer out of range. *)
Definition readInt16LE_number (buf : t) (offset : number) : result Z :=
  match offset with
  | Fin q =>
      if Qeq_bool q (inject_Z (Qfloor q)) then readInt16LE buf (Qfloor q)
      else Throw ERR_OUT_OF_RANGE
  | Infinity _ => boundsError 0 (len buf - 2)
  | NaN => Throw ERR_OUT_OF_RANGE
  end.

(** [buf.writeInt16LE(value, offset)]: the comparisons of the range check
    are false on NaN, which is stored as 0; a fraction is cut off. *)
Definition writeInt16LE_number (buf : t) (value : number) (offset : Z)
    : result t :=
  match value with
  | Fin q =>
      if Number.Qltb 32767%Q q || Number.Qltb q (-32768)%Q
      then Throw ERR_OUT_OF_RANGE
      else writeInt16LE buf (if Qle_bool 0 q then Qfloor q else Qceiling q)
             offset
  | Infinity _ => Throw ERR_OUT_OF_RANGE
  | NaN => writeInt16LE buf 0 offset
  end.

End Buffer.

(** ** Loops *)

(** [count] iterations of [body] on the consecutive counters [i], [i+1],
    ...; an exception ends the loop. *)
Fixpoint for_from {S : Type} (i : Z) (count : nat)
    (body : Z -> S -> result S) (s : S) : result S :=
  match count with
  | O => Ok s
  | Datatypes.S k => let* s' := body i s in for_from (i + 1) k body s'
  end.

(** [for (let i = 0; i < n; i++) body]: the counters below [n] are
    [0 .. ceiling n - 1]. *)
Definition for_lt {S : Type} (n : Q) (body : Z -> S -> result S) (s : S)
    : result S :=
  for_from 0 (Z.to_nat (Qceiling n)) body s.

(** ** OpusToPCMConverter: 48 kHz stereo to 16 kHz mono *)

Module OpusToPCMConverter.

(** [Math.floor((left + right) / 2)] *)
Definition mono (left right : Z) : Z :=
  Qfloor (inject_Z (left + right) / 2)%Q.

Definition downsampleAndMono (buffer : Buffer.t) : result Buffer.t :=
  let samplesPerChannel : Q := (inject_Z (Buffer.len buffer) / 4)%Q in
  let outputSamples : Z := Qfloor (samplesPerChannel / 3)%Q in
  let* output := Buffer.alloc (outputSamples * 2) in
  for_lt (inject_Z outputSamples)
    (fun i output =>
       let sourceIndex := i * 3 in
       let sourceOffset := sourceIndex * 4 in
       let* left := Buffer.readInt16LE buffer sourceOffset in
       let* right := Buffer.readInt16LE buffer (sourceOffset + 2) in
       Buffer.writeInt16LE output (mono left right) (i * 2))
    output.

End OpusToPCMConverter.

(** ** PCMToOpusConverter: mono at any rate to 48 kHz stereo *)

Module PCMToOpusConverter.

Record t : Type := mk { resampleRatio : number }.

(** The constructor, [inputSampleRate = 16000] by default. *)
Definition new (inputSampleRate : option number) : t :=
  {| resampleRatio :=
       Number.div (Number.of_Z 48000)
                  (default (Number.of_Z 16000) inputSampleRate) |}.

Definition resampleAndStereo (this : t) (buffer : Buffer.t)
    : result Buffer.t :=
  let inputSamples : number := Fin (inject_Z (Buffer.len buffer) / 2) in
  let outputSamples : number :=
    Math.floor (Number.mul inputSamples (resampleRatio this)) in
  let* output :=
    Buffer.alloc_number (Number.mul outputSamples (Number.of_Z 4)) in
  match outputSamples with
  | Fin n =>
      for_lt n
        (fun i output =>
           let inputPos := Number.div (Number.of_Z i) (resampleRatio this) in
           let inputIndex := Math.floor inputPos in
           let frac := Number.sub inputPos inputIndex in
           let* sample :=
             if Number.lt (Number.add inputIndex (Number.of_Z 1))
                          inputSamples
             then
               let* s1 :=
                 Buffer.readInt16LE_number buffer
                   (Number.mul inputIndex (Number.of_Z 2)) in
               let* s2 :=
                 Buffer.readInt16LE_number buffer
                   (Number.mul (Number.add inputIndex (Number.of_Z 1))
                               (Number.of_Z 2)) in
               Ok (Math.round
                     (Number.add (Number.of_Z s1)
                        (Number.mul frac
                           (Number.sub (Number.of_Z s2) (Number.of_Z s1)))))
             else if Number.lt inputIndex inputSamples then
               let* s1 :=
                 Buffer.readInt16LE_number buffer
                   (Number.mul inputIndex (Number.of_Z 2)) in
               Ok (Number.of_Z s1)
             else Ok (Number.of_Z 0) in
           let sample :=
             Math.max (Number.of_Z (-32768))
                      (Math.min (Number.of_Z 32767) sample) in
           let outputOffset := i * 4 in
           let* output :=
             Buffer.writeInt16LE_number output sample outputOffset in
           Buffer.writeInt16LE_number output sample (outputOffset + 2))
        output
  | _ => Ok output (* not reached: the allocation has thrown *)
  end.

End PCMToOpusConverter.

(** ** PCMToOpusConverter, the revision with a fixed 16 kHz input

    The second listing of [audio-converter.ts] upsamples by repeating every
    sample three times.  Its [downsampleAndMono] and [VADDetector] are
    those above. *)

Module PCMToOpusConverterFixed.

(** The size of the allocation, [length * 6], is an integer. *)
Definition upsampleAndStereo (buffer : Buffer.t) : result Buffer.t :=
  let inputSamples : Q := (inject_Z (Buffer.len buffer) / 2)%Q in
  let outputSamples : Q := (inputSamples * 3)%Q in
  let* output := Buffer.alloc (Qfloor (outputSamples * 4)%Q) in
  for_lt inputSamples
    (fun i output =>
       let* sample := Buffer.readInt16LE buffer (i * 2) in
       for_lt 3
         (fun j output =>
            let outputIndex := i * 3 + j in
            let outputOffset := outputIndex * 4 in
            let* output := Buffer.writeInt16LE output sample outputOffset in
            Buffer.writeInt16LE output sample (outputOffset + 2))
         output)
    output.

End PCMToOpusConverterFixed.

(** ** The readable side of a stream

    [readable.push(chunk)] of a stream in byte mode, as [VADDetector] is: a
    chunk of no bytes is not queued, and the reader gets no "data" for
    it. *)

Module Readable.

Definition push (queue : list Buffer.t) (chunk : Buffer.t)
    : list Buffer.t :=
  if 0 <? Buffer.len chunk then queue ++ [chunk] else queue.

(** The chunks a "data" listener receives, of the chunks pushed. *)
Definition data (pushed : list Buffer.t) : list Buffer.t :=
  foldl push [] pushed.

End Readable.

(** ** VADDetector *)

Inductive Event : Type :=
  | speech_start
  | speech_end.

#[global] Instance Event_eq_dec : EqDecision Event.
Proof. solve_decision. Defined.

Module VADDetector.

Record t : Type := mk {
  silenceThreshold : number;
  silenceDurationMs : number;
  sampleRate : number;
  consecutiveSilence : Z;
  isSpeaking : bool
}.

(** The constructor: [options.x ?? default]. *)
Definition new (silenceThreshold silenceDurationMs sampleRate : option number)
    : t :=
  {| silenceThreshold := default (Number.of_Z 500) silenceThreshold;
     silenceDurationMs := default (Number.of_Z 1500) silenceDurationMs;
     sampleRate := default (Number.of_Z 16000) sampleRate;
     consecutiveSilence := 0;
     isSpeaking := false |}.

Definition set_consecutiveSilence (this : t) (n : Z) : t :=
  {| silenceThreshold := silenceThreshold this;
     silenceDurationMs := silenceDurationMs this;
     sampleRate := sampleRate this;
     consecutiveSilence := n;
     isSpeaking := isSpeaking this |}.

Definition set_isSpeaking (this : t) (b : bool) : t :=
  {| silenceThreshold := silenceThreshold this;
     silenceDurationMs := silenceDurationMs this;
     sampleRate := sampleRate this;
     consecutiveSilence := consecutiveSilence this;
     isSpeaking := b |}.

Definition detectSilence (this : t) (buffer : Buffer.t) : result bool :=
  let samples : Q := (inject_Z (Buffer.len buffer) / 2)%Q in
  let* sum :=
    for_lt samples
      (fun i sum =>
         let* sample := Buffer.readInt16LE buffer (i * 2) in
         Ok (sum + Z.abs sample))
      0 in
  let avgAmplitude := Number.div (Number.of_Z sum) (Fin samples) in
  Ok (Number.lt avgAmplitude (silenceThreshold this)).

(** [(this.consecutiveSilence * chunk.length) / (this.sampleRate * 2)] *)
Definition silenceDuration (this : t) (chunk : Buffer.t) : number :=
  Number.div (Number.of_Z (consecutiveSilence this * Buffer.len chunk))
             (Number.mul (sampleRate this) (Number.of_Z 2)).

(** One chunk through the detector: the next state, the events emitted
    and the chunks pushed downstream. *)
Definition _transform (this : t) (chunk : Buffer.t)
    : result (t * list Event * list Buffer.t) :=
  let* isSilent := detectSilence this chunk in
  if isSilent then
    let this := set_consecutiveSilence this (consecutiveSilence this + 1) in
    if Number.ge (Number.mul (silenceDuration this chunk) (Number.of_Z 1000))
                 (silenceDurationMs this)
       && isSpeaking this
    then Ok (set_isSpeaking this false, [speech_end], [chunk])
    else Ok (this, [], [chunk])
  else
    let '(this, events) :=
      if negb (isSpeaking this)
      then (set_isSpeaking this true, [speech_start])
      else (this, []) in
    Ok (set_consecutiveSilence this 0, events, [chunk]).

Definition reset (this : t) : t * list Event :=
  (set_isSpeaking (set_consecutiveSilence this 0) false, []).

(** A sequence of writes: the final state, and per chunk the events it
    emitted and the chunks it pushed.  The stream stops at the first
    exception. *)
Fixpoint run (this : t) (chunks : list Buffer.t)
    : result (t * list (list Event) * list Buffer.t) :=
  match chunks with
  | [] => Ok (this, [], [])
  | chunk :: rest =>
      let* r := _transform this chunk in
      let '(this, events, pushed) := r in
      let* r' := run this rest in
      let '(this, trace, forwarded) := r' in
      Ok (this, events :: trace, pushed ++ forwarded)
  end.

End VADDetector.

(** ** Session buffers ([index.ts]) *)

Module Session.

Record AudioBufferState : Type := mkAudioBufferState {
  chunks : list Buffer.t;
  startTime : Z;
  lastChunkTime : Z;
  silenceCount : Z
}.

Record TranscribeOptions : Type := mkTranscribeOptions {
  format : string;
  sampleRate : Z;
  language : string
}.

(** One call [stt.transcribe(audio, options)]. *)
Record STTCall : Type := mkSTTCall {
  audio : Buffer.t;
  options : TranscribeOptions
}.

(** The plugin context: [getSTT()] gives a provider or [null]. *)
Inductive STTProvider : Type := stt_provider.

Record Context : Type := mkContext { getSTT : option STTProvider }.

(** The module-level variables [ctx] and [audioBuffers]. *)
Record Plugin : Type := mkPlugin {
  ctx : option Context;
  audioBuffers : gmap string AudioBufferState
}.

Definition bufferKey (guildId userId : string) : string :=
  (guildId +:+ "-" +:+ userId)%string.

(** [startListening], the handler of the receiver's "start": the entry
    of the speaker is (re)created empty. *)
Definition on_speaking_start (st : Plugin) (guildId userId : string)
    (now : Z) : Plugin :=
  {| ctx := ctx st;
     audioBuffers :=
       <[bufferKey guildId userId :=
           {| chunks := []; startTime := now; lastChunkTime := now;
              silenceCount := 0 |}]> (audioBuffers st) |}.

(** [startListening], the handler of the detector's "data": the chunk is
    appended to the entry, when there is one. *)
Definition on_vad_data (st : Plugin) (guildId userId : string)
    (chunk : Buffer.t) (now : Z) : Plugin :=
  match audioBuffers st !! bufferKey guildId userId with
  | Some buffer =>
      {| ctx := ctx st;
         audioBuffers :=
           <[bufferKey guildId userId :=
               {| chunks := chunks buffer ++ [chunk];
                  startTime := startTime buffer;
                  lastChunkTime := now;
                  silenceCount := silenceCount buffer |}]>
             (audioBuffers st) |}
  | None => st
  end.

(** [transcribeUserSpeech] up to its call of the STT provider: the next
    state and the calls made. *)
Definition transcribeUserSpeech (st : Plugin) (guildId userId : string)
    : Plugin * list STTCall :=
  match ctx st with
  | None => (st, [])
  | Some c =>
      let key := bufferKey guildId userId in
      match audioBuffers st !! key with
      | None => (st, [])
      | Some buffer =>
          if (length (chunks buffer) =? 0)%nat then (st, [])
          else
            let audioPCM := Buffer.concat (chunks buffer) in
            let st := {| ctx := ctx st;
                         audioBuffers := delete key (audioBuffers st) |} in
            match getSTT c with
            | None => (st, [])
            | Some _ =>
                (st, [ {| audio := audioPCM;
                          options := {| format := "pcm_s16le";
                                        sampleRate := 16000;
                                        language := "en" |} |} ])
            end
      end
  end.

End Session.

(** ** Guild connections ([index.ts])

    A JavaScript [Map] iterates in insertion order: it is a list of
    entries with distinct keys. *)

Module JsMap.

(** [map.get(key)] *)
Fixpoint get {V : Type} (map : list (string * V)) (key : string) : option V :=
  match map with
  | [] => None
  | (k, v) :: rest => if decide (k = key) then Some v else get rest key
  end.

(** [map.delete(key)] *)
Definition delete {V : Type} (map : list (string * V)) (key : string)
    : list (string * V) :=
  List.filter (fun entry => negb (bool_decide (entry.1 = key))) map.

End JsMap.

Module Voice.

(** The objects of the voice library, by identity. *)
Inductive VoiceConnection : Type := voice_connection (id : Z).

Inductive AudioPlayer : Type := audio_player (id : Z).

Record VoiceChannelState : Type := mkVoiceChannelState {
  guildId : string;
  channelId : string;
  sessionKey : string;
  userId : string;
  username : string;
  isListening : bool;
  isSpeaking : bool
}.

(** The module-level maps [connections], [audioPlayers] and [voiceStates],
    and the connections [destroy()] was called on, in order. *)
Record State : Type := mkState {
  connections : list (string * VoiceConnection);
  audioPlayers : list (string * AudioPlayer);
  voiceStates : list (string * VoiceChannelState);
  destroyed : list VoiceConnection
}.

Definition leaveChannel (st : State) (guildId : string) : State :=
  match JsMap.get (connections st) guildId with
  | Some connection =>
      {| connections := JsMap.delete (connections st) guildId;
         audioPlayers := JsMap.delete (audioPlayers st) guildId;
         voiceStates := JsMap.delete (voiceStates st) guildId;
         destroyed := destroyed st ++ [connection] |}
  | None => st
  end.

(** [shutdown], the loop [for (const [guildId] of connections)
    leaveChannel(guildId)]: every pass deletes the entry it is at, so the
    loop visits the keys the map had, in order. *)
Definition shutdown (st : State) : State :=
  foldl leaveChannel st (connections st).*1.

End Voice.

(** ** The configuration read by [init] ([index.ts]) *)

Module Plugin.

Record Config : Type := mkConfig {
  token : option string;
  guildId : option string;
  clientId : option string
}.

(** A string that is neither undefined nor empty. *)
Definition truthy (s : option string) : bool :=
  match s with
  | Some EmptyString | None => false
  | Some _ => true
  end.

(** [init], from [ctx.getConfig()] to the return on "Not configured":
    the configuration the Discord client is created with, [None] when
    [init] returns before.  [legacy] is the token of
    [ctx.getMainConfig("discord")]. *)
Definition init_config (config : option Config) (legacy : option string)
    : option Config :=
  let config :=
    if negb (truthy (config ≫= token)) then
      if truthy legacy
      then Some {| token := legacy; guildId := None; clientId := Some "" |}
      else config
    else config in
  if negb (truthy (config ≫= token)) || negb (truthy (config ≫= clientId))
  then None
  else config.

End Plugin.

(** * Vocabulary of the properties *)

(** A rational [m / 2^j] with [|m| <= 2^53] and [0 <= j <= 1022]: such
    a rational is a double. *)
Definition representable (x : Q) : Prop :=
  exists m j,
    Z.abs m <= 2 ^ 53 /\ 0 <= j <= 1022
    /\ (x * Double.pow2 j == inject_Z m)%Q.

(** A signed 16-bit sample. *)
Definition int16 (v : Z) : Prop := -32768 <= v <= 32767.

(** The two bytes [writeInt16LE] stores for [v]. *)
Definition encode16 (v : Z) : list byte :=
  [Buffer.byte_of v; Buffer.byte_of (Z.shiftr v 8)].

(** What [readInt16LE] makes of two bytes. *)
Definition decode16 (a b : byte) : Z :=
  let val := Buffer.byte_val a + Buffer.byte_val b * 2 ^ 8 in
  if val <? 2 ^ 15 then val else val - 2 ^ 16.

(** The sample a read yields, 0 where the read throws. *)
Definition peek16 (buf : Buffer.t) (off : Z) : Z :=
  match Buffer.readInt16LE buf off with
  | Ok v => v
  | Throw _ => 0
  end.

(** Output sample [i]: the mix of the stereo pair at source index
    [i * 3]. *)
Definition mono_at (buffer : Buffer.t) (i : Z) : Z :=
  OpusToPCMConverter.mono (peek16 buffer (i * 3 * 4))
    (peek16 buffer (i * 3 * 4 + 2)).

(** Clamping to the signed 16-bit range. *)
Definition clamp16 (v : Z) : Z := Z.max (-32768) (Z.min 32767 v).

(** The number of output frames: [floor(inputSamples * ratio)], the
    product rounded to a double. *)
Definition output_samples (ratio : Q) (buffer : Buffer.t) : Z :=
  Qfloor (Double.rnd (inject_Z (Buffer.len buffer) / 2 * ratio)).

(** The sample of output index [i] before clamping: interpolated between
    the input samples around [i / ratio], the last input sample when it has
    no successor, 0 past the input.  Every quotient, difference, product
    and sum is rounded to a double. *)
Definition interpolate (ratio : Q) (buffer : Buffer.t) (i : Z) : Z :=
  let inputSamples : Q := (inject_Z (Buffer.len buffer) / 2)%Q in
  let inputPos : Q := Double.rnd (inject_Z i / ratio) in
  let inputIndex : Z := Qfloor inputPos in
  let frac : Q := Double.rnd (inputPos - inject_Z inputIndex) in
  let s1 := peek16 buffer (inputIndex * 2) in
  let s2 := peek16 buffer ((inputIndex + 1) * 2) in
  if Number.Qltb (inject_Z (inputIndex + 1)) inputSamples
  then Math_round
         (Double.rnd (inject_Z s1 + Double.rnd (frac * inject_Z (s2 - s1))))
  else if Number.Qltb (inject_Z inputIndex) inputSamples then s1
  else 0.

(** The input and the output of the upsampler at the ratio [ratio] are
    buffers: neither is longer than [kMaxLength]. *)
Definition fits (ratio : Q) (buffer : Buffer.t) : Prop :=
  Buffer.len buffer <= Buffer.kMaxLength
  /\ (inject_Z (Buffer.len buffer) / 2 * ratio * 4
      <= inject_Z Buffer.kMaxLength)%Q.

(** The four bytes of a stereo frame with the same sample on both
    channels. *)
Definition stereo_frame (v : Z) : list byte := encode16 v ++ encode16 v.

(** [|sample|] of every sample of a mono chunk. *)
Definition amplitudes (chunk : Buffer.t) : list Z :=
  (fun i => Z.abs (peek16 chunk (i * 2))) <$> seqZ 0 (Buffer.len chunk / 2).

(** The mean of [|sample|] over the chunk, as the detector computes it. *)
Definition avgAmplitude (chunk : Buffer.t) : number :=
  Number.div (Number.of_Z (foldr Z.add 0 (amplitudes chunk)))
             (Fin (inject_Z (Buffer.len chunk) / 2)).

(** The silence estimate in milliseconds after [count] consecutive silent
    chunks, the last of which is [chunk]. *)
Definition estimate_ms (sampleRate : number) (count : Z) (chunk : Buffer.t)
    : number :=
  Number.mul
    (Number.div (Number.of_Z (count * Buffer.len chunk))
                (Number.mul sampleRate (Number.of_Z 2)))
    (Number.of_Z 1000).


(** The estimate reaches [silenceDurationMs]. *)
Definition reaches (this : VADDetector.t) (count : Z) (chunk : Buffer.t)
    : bool :=
  Number.ge (estimate_ms (VADDetector.sampleRate this) count chunk)
            (VADDetector.silenceDurationMs this).

(** The estimate reaches the threshold at chunk [k] of a run of silent
    chunks that starts with [count] silent chunks already counted. *)
Definition reaches_at (this : VADDetector.t) (count : Z)
    (chunks : list Buffer.t) (k : nat) : Prop :=
  exists chunk,
    chunks !! k = Some chunk
    /\ reaches this (count + Z.of_nat k + 1) chunk = true.

(** The events of a sequence of writes, chunk by chunk. *)
Definition trace_of
    (r : result (VADDetector.t * list (list Event) * list Buffer.t))
    : option (list (list Event)) :=
  match r with
  | Ok (_, trace, _) => Some trace
  | Throw _ => None
  end.

(** The same configuration. *)
Definition same_config (a b : VADDetector.t) : Prop :=
  VADDetector.silenceThreshold a = VADDetector.silenceThreshold b
  /\ VADDetector.silenceDurationMs a = VADDetector.silenceDurationMs b
  /\ VADDetector.sampleRate a = VADDetector.sampleRate b.

(** Speech starts and ends alternate, from the given state on. *)
Fixpoint alternate (speaking : bool) (events : list Event) : Prop :=
  match events with
  | [] => True
  | speech_start :: rest => speaking = false /\ alternate true rest
  | speech_end :: rest => speaking = true /\ alternate false rest
  end.

(** The state the events leave the detector in. *)
Definition speaking_after (speaking : bool) (events : list Event) : bool :=
  foldl (fun _ e => match e with speech_start => true | speech_end => false end)
        speaking events.

(** A chunk of [samples] samples of amplitude 10000, and a silent chunk
    of [bytes] bytes: the chunks of the test suite, without the sine. *)
Definition tone (samples : nat) : Buffer.t :=
  mjoin (replicate samples [x10; x27]).

Definition silence (bytes : nat) : Buffer.t := replicate bytes x00.

(** How often an event occurs. *)
Definition count_event (e : Event) (events : list Event) : Z :=
  Z.of_nat (length (filter (fun x => x = e) events)).

(** The string has a hyphen. *)
Fixpoint has_dash (s : string) : bool :=
  match s with
  | EmptyString => false
  | String c rest => if decide (c = "-"%char) then true else has_dash rest
  end.

(** The chunks the detector pushes, each with the time of its arrival,
    through the "data" handler of one speaker. *)
Definition feed (st : Session.Plugin) (guildId userId : string)
    (arrivals : list (Buffer.t * Z)) : Session.Plugin :=
  foldl (fun s a => Session.on_vad_data s guildId userId a.1 a.2) st arrivals.

(** * Properties *)

(** ** Bytes and 16-bit samples *)

Section BufferFacts.

Import Buffer.

Lemma byte_val_range b : 0 <= byte_val b < 256.
Proof. unfold byte_val. pose proof (Byte.to_N_bounded b). lia. Qed.

Lemma byte_val_of z : byte_val (byte_of z) = z mod 256.
Proof.
  unfold byte_val, byte_of.
  pose proof (Z.mod_pos_bound z 256 ltac:(lia)) as Hm.
  destruct (Byte.of_N (Z.to_N (z mod 256))) eqn:E.
  - apply Byte.to_of_N in E. rewrite E. lia.
  - apply Byte.of_N_None_iff in E. lia.
Qed.

Lemma len_nonneg buf : 0 <= len buf.
Proof. unfold len. lia. Qed.

Lemma len_app b1 b2 : len (b1 ++ b2) = len b1 + len b2.
Proof. unfold len. rewrite length_app. lia. Qed.

Lemma get_Some buf off b :
  get buf off = Some b <-> 0 <= off /\ buf !! Z.to_nat off = Some b.
Proof.
  unfold get. destruct (Z.ltb_spec off 0).
  - split; [discriminate | intros [? _]; lia].
  - split; [intros ?; split; [lia | assumption] | intros [_ ?]; assumption].
Qed.

Lemma get_in_range buf off :
  0 <= off < len buf -> exists b, get buf off = Some b.
Proof.
  intros H. unfold get. destruct (Z.ltb_spec off 0); [lia|].
  apply lookup_lt_is_Some_2. unfold len in H. lia.
Qed.

Lemma get_out_of_range buf off : len buf <= off -> get buf off = None.
Proof.
  intros H. unfold get. destruct (Z.ltb_spec off 0); [easy|].
  apply lookup_ge_None_2. unfold len in H. lia.
Qed.

Lemma get_app_here pre a post : get (pre ++ a :: post) (len pre) = Some a.
Proof.
  apply get_Some. split; [apply len_nonneg|].
  unfold len. rewrite Nat2Z.id. apply list_lookup_middle. reflexivity.
Qed.

Lemma get_app_next pre a b post :
  get (pre ++ a :: b :: post) (len pre + 1) = Some b.
Proof.
  replace (pre ++ a :: b :: post) with ((pre ++ [a]) ++ b :: post)
    by (rewrite <- app_assoc; reflexivity).
  replace (len pre + 1) with (len (pre ++ [a]))
    by (rewrite len_app; reflexivity).
  apply get_app_here.
Qed.

(** A buffer with two bytes at [off] splits around them. *)
Lemma split_at buf off :
  0 <= off -> off + 2 <= len buf ->
  exists pre a b post, buf = pre ++ a :: b :: post /\ len pre = off.
Proof.
  intros H0 H2. unfold len in *.
  exists (take (Z.to_nat off) buf).
  destruct (drop (Z.to_nat off) buf) as [|a [|b post]] eqn:E.
  - apply (f_equal length) in E. rewrite length_drop in E. simpl in E. lia.
  - apply (f_equal length) in E. rewrite length_drop in E. simpl in E. lia.
  - exists a, b, post. split.
    + rewrite <- E. symmetry. apply take_drop.
    + rewrite length_take. lia.
Qed.

Lemma decode16_int16 a b : int16 (decode16 a b).
Proof.
  unfold decode16, int16. cbv zeta.
  pose proof (byte_val_range a). pose proof (byte_val_range b).
  destruct (Z.ltb_spec (byte_val a + byte_val b * 2 ^ 8) (2 ^ 15)); lia.
Qed.

Lemma decode16_encode16 v :
  int16 v -> decode16 (byte_of v) (byte_of (Z.shiftr v 8)) = v.
Proof.
  unfold decode16, int16. intros Hv. cbv zeta.
  rewrite !byte_val_of, Z.shiftr_div_pow2 by lia.
  change (2 ^ 8) with 256. change (2 ^ 15) with 32768.
  change (2 ^ 16) with 65536.
  pose proof (Z.div_mod v 256 ltac:(lia)) as Hd.
  pose proof (Z.mod_pos_bound v 256 ltac:(lia)) as Hm.
  pose proof (Z.div_mod (v / 256) 256 ltac:(lia)) as Hd2.
  pose proof (Z.mod_pos_bound (v / 256) 256 ltac:(lia)) as Hm2.
  assert (-128 <= v / 256 <= 127) as Hq by lia.
  assert (v / 256 / 256 = 0 \/ v / 256 / 256 = -1) as [Hz|Hz] by lia.
  - destruct (Z.ltb_spec (v mod 256 + (v / 256) mod 256 * 256) 32768); lia.
  - destruct (Z.ltb_spec (v mod 256 + (v / 256) mod 256 * 256) 32768); lia.
Qed.

Lemma readInt16LE_here pre a b post :
  readInt16LE (pre ++ a :: b :: post) (len pre) = Ok (decode16 a b).
Proof.
  unfold readInt16LE. rewrite get_app_here, get_app_next. reflexivity.
Qed.

Lemma writeInt16LE_here pre a b post v :
  int16 v ->
  writeInt16LE (pre ++ a :: b :: post) v (len pre)
  = Ok (pre ++ encode16 v ++ post).
Proof.
  unfold int16. intros Hv. unfold writeInt16LE.
  destruct (Z.gtb_spec v 32767); [lia|].
  destruct (Z.ltb_spec v (-32768)); [lia|]. cbn [orb].
  rewrite get_app_here, get_app_next. f_equal.
  unfold set, len.
  replace (Z.to_nat (Z.of_nat (length pre))) with (length pre + 0)%nat by lia.
  replace (Z.to_nat (Z.of_nat (length pre) + 1)) with (length pre + 1)%nat
    by lia.
  rewrite !insert_app_r. reflexivity.
Qed.

(** A read inside the buffer returns a sample. *)
Lemma readInt16LE_in_range buf off :
  0 <= off -> off + 2 <= len buf ->
  exists v, readInt16LE buf off = Ok v /\ int16 v.
Proof.
  intros H0 H2.
  destruct (split_at buf off H0 H2) as (pre & a & b & post & -> & <-).
  exists (decode16 a b). split; [apply readInt16LE_here | apply decode16_int16].
Qed.

(** A read that passes the end of the buffer throws. *)
Lemma readInt16LE_out_of_range buf off :
  len buf < off + 2 -> exists e, readInt16LE buf off = Throw e.
Proof.
  intros H. unfold readInt16LE.
  rewrite (get_out_of_range buf (off + 1)) by lia.
  unfold boundsError.
  destruct (get buf off); destruct (len buf - 2 <? 0); eauto.
Qed.

Lemma alloc_nonneg size :
  0 <= size -> alloc size = Ok (replicate (Z.to_nat size) x00).
Proof.
  intros H. unfold alloc. destruct (Z.ltb_spec size 0); [lia | reflexivity].
Qed.

End BufferFacts.

(** ** Loops that fill a zeroed buffer block by block *)

Section Loops.

Import Buffer.

Lemma for_lt_Z {S : Type} (n : Z) (body : Z -> S -> result S) s :
  for_lt (inject_Z n) body s = for_from 0 (Z.to_nat n) body s.
Proof. unfold for_lt. rewrite Qceiling_Z. reflexivity. Qed.

(** The counters of [for_lt n] are the integers [i] with [0 <= i < n]. *)
Lemma for_lt_counters (n : Q) (i : Z) :
  (0 <= i < Z.of_nat (Z.to_nat (Qceiling n)))
  <-> (0 <= i /\ (inject_Z i < n)%Q).
Proof.
  pose proof (Qle_ceiling n) as Hle. pose proof (Qceiling_lt n) as Hlt.
  split; intros [H0 H1]; split; try assumption.
  - assert (i <= Qceiling n - 1) as Hi by lia.
    eapply Qle_lt_trans; [|exact Hlt]. rewrite <- Zle_Qle. exact Hi.
  - assert (inject_Z i < inject_Z (Qceiling n))%Q as Hi
        by (eapply Qlt_le_trans; eassumption).
    rewrite <- Zlt_Qlt in Hi. lia.
Qed.

Lemma length_mjoin_fixed {A : Type} (f : A -> list byte) (w : nat) xs :
  (forall x, length (f x) = w) ->
  length (mjoin (f <$> xs)) = (length xs * w)%nat.
Proof.
  intros Hw. induction xs as [|x xs IH]; [reflexivity|].
  change (mjoin (f <$> x :: xs)) with (f x ++ mjoin (f <$> xs)).
  rewrite length_app, IH, Hw. simpl. lia.
Qed.

(** Block [i] of a concatenation of blocks of width [w] starts at
    [w * i]. *)
Lemma mjoin_fixed_split {A : Type} (f : A -> list byte) (w : nat) xs i x :
  (forall x, length (f x) = w) ->
  xs !! i = Some x ->
  exists pre post,
    mjoin (f <$> xs) = pre ++ f x ++ post /\ length pre = (i * w)%nat.
Proof.
  intros Hw Hx.
  exists (mjoin (f <$> take i xs)), (mjoin (f <$> drop (Datatypes.S i) xs)).
  split.
  - rewrite <- (take_drop_middle xs i x Hx) at 1.
    rewrite fmap_app, join_app. reflexivity.
  - rewrite (length_mjoin_fixed f w) by assumption.
    rewrite length_take. apply lookup_lt_Some in Hx. lia.
Qed.

(** A loop whose iteration [j] overwrites the zero block at [w * j] with
    [step j] returns the blocks in order. *)
Lemma for_from_fill (w : nat) (body : Z -> list byte -> result (list byte))
    (step : Z -> list byte) :
  (forall j, length (step j) = w) ->
  forall count i pre,
    (forall j pre' post,
        i <= j < i + Z.of_nat count ->
        len pre' = Z.of_nat w * j ->
        body j (pre' ++ replicate w x00 ++ post)
        = Ok (pre' ++ step j ++ post)) ->
    len pre = Z.of_nat w * i ->
    for_from i count body (pre ++ replicate (count * w) x00)
    = Ok (pre ++ mjoin (step <$> seqZ i (Z.of_nat count))).
Proof.
  intros Hw. induction count as [|k IH]; intros i pre Hbody Hpre.
  - simpl. rewrite app_nil_r. reflexivity.
  - cbn [for_from]. rewrite seqZ_cons by lia.
    replace (Datatypes.S k * w)%nat with (w + k * w)%nat by lia.
    rewrite replicate_add, Hbody by (assumption || lia).
    cbn [bind]. rewrite app_assoc, IH.
    + replace (Z.pred (Z.of_nat (Datatypes.S k))) with (Z.of_nat k) by lia.
      change (mjoin (step <$> i :: seqZ (Z.succ i) (Z.of_nat k)))
        with (step i ++ mjoin (step <$> seqZ (Z.succ i) (Z.of_nat k))).
      rewrite <- app_assoc. reflexivity.
    + intros j pre' post Hj Hlen. apply Hbody; [lia | assumption].
    + rewrite len_app. unfold len at 2. rewrite Hw. lia.
Qed.

(** Reading sample [i] back from a sequence of encoded samples. *)
Lemma readInt16LE_encoded (vs : list Z) (i : nat) v :
  vs !! i = Some v -> int16 v ->
  readInt16LE (mjoin (encode16 <$> vs)) (Z.of_nat i * 2) = Ok v.
Proof.
  intros Hi Hv.
  destruct (mjoin_fixed_split encode16 2 vs i v) as (pre & post & -> & Hpre);
    [reflexivity | assumption |].
  replace (Z.of_nat i * 2) with (len pre) by (unfold len; lia).
  cbn [encode16 app]. rewrite readInt16LE_here.
  f_equal. apply decode16_encode16. assumption.
Qed.

End Loops.

(** ** Downsampling *)

Section Downsample.

Import Buffer OpusToPCMConverter.

Lemma mono_div l r : mono l r = (l + r) / 2.
Proof. unfold mono. symmetry. apply (Zdiv_Qdiv (l + r) 2). Qed.

Lemma mono_int16 l r : int16 l -> int16 r -> int16 (mono l r).
Proof.
  unfold int16. intros Hl Hr. rewrite mono_div.
  split.
  - apply Z.div_le_lower_bound; lia.
  - apply Z.div_le_upper_bound; lia.
Qed.

Lemma outputSamples_div n :
  Qfloor (inject_Z n / 4 / 3)%Q = n / 12.
Proof.
  rewrite (Zdiv_Qdiv n 12). apply Qfloor_comp.
  unfold Qeq, Qdiv, Qmult, Qinv, inject_Z. simpl. lia.
Qed.

Lemma peek16_in_range buf off :
  0 <= off -> off + 2 <= len buf ->
  readInt16LE buf off = Ok (peek16 buf off) /\ int16 (peek16 buf off).
Proof.
  intros H0 H2. unfold peek16.
  destruct (readInt16LE_in_range buf off H0 H2) as (v & -> & Hv). auto.
Qed.

Lemma mono_at_int16 buffer i :
  0 <= i < len buffer / 12 -> int16 (mono_at buffer i).
Proof.
  intros Hi. pose proof (Z.mul_div_le (len buffer) 12 ltac:(lia)).
  apply mono_int16; apply peek16_in_range; lia.
Qed.

(** The function returns, on every buffer, the encoded mixes of the
    complete groups of three stereo frames. *)
Lemma downsampleAndMono_eq buffer :
  downsampleAndMono buffer
  = Ok (mjoin (encode16 <$> (mono_at buffer <$> seqZ 0 (len buffer / 12)))).
Proof.
  pose proof (len_nonneg buffer) as Hlen.
  assert (0 <= len buffer / 12) as Hn by (apply Z.div_pos; lia).
  pose proof (Z.mul_div_le (len buffer) 12 ltac:(lia)) as Hle.
  unfold downsampleAndMono. rewrite outputSamples_div.
  rewrite alloc_nonneg by lia. cbn [bind]. rewrite for_lt_Z.
  replace (Z.to_nat (len buffer / 12 * 2))
    with (Z.to_nat (len buffer / 12) * 2)%nat by lia.
  rewrite <- list_fmap_compose.
  rewrite <- (Z2Nat.id (len buffer / 12)) at 3 by lia.
  apply (for_from_fill 2 _ (encode16 ∘ mono_at buffer) ltac:(reflexivity)
           (Z.to_nat (len buffer / 12)) 0 []); [|reflexivity].
  intros j pre post Hj Hpre.
  destruct (peek16_in_range buffer (j * 3 * 4)) as [-> Hl]; [lia | lia |].
  destruct (peek16_in_range buffer (j * 3 * 4 + 2)) as [-> Hr];
    [lia | lia |].
  cbn [bind]. replace (j * 2) with (len pre) by lia.
  apply writeInt16LE_here. apply mono_int16; assumption.
Qed.

(** A read below a cut sees the same bytes in the prefix. *)
Lemma readInt16LE_take buf k off :
  0 <= off -> off + 2 <= Z.of_nat k -> Z.of_nat k <= len buf ->
  readInt16LE (take k buf) off = readInt16LE buf off.
Proof.
  intros H0 H2 Hk.
  assert (len (take k buf) = Z.of_nat k) as Hlen
      by (unfold len in *; rewrite length_take; lia).
  destruct (split_at (take k buf) off) as (pre & a & b & post & E & <-);
    [lia | lia |].
  rewrite <- (take_drop k buf) at 2. rewrite E, <- app_assoc.
  cbn [app]. rewrite !readInt16LE_here. reflexivity.
Qed.

Lemma downsampleAndMono_take buffer :
  downsampleAndMono (take (Z.to_nat (len buffer / 12 * 12)) buffer)
  = downsampleAndMono buffer.
Proof.
  pose proof (len_nonneg buffer) as Hlen.
  assert (0 <= len buffer / 12) as Hn by (apply Z.div_pos; lia).
  pose proof (Z.mul_div_le (len buffer) 12 ltac:(lia)) as Hle.
  set (k := Z.to_nat (len buffer / 12 * 12)).
  assert (len (take k buffer) = len buffer / 12 * 12) as Hk
      by (unfold len in *; rewrite length_take; lia).
  rewrite !downsampleAndMono_eq, Hk, Z.div_mul by lia.
  do 3 f_equal. apply list_fmap_ext. intros i j Hj.
  apply lookup_seqZ in Hj as [-> Hi]. unfold mono_at, peek16.
  rewrite !readInt16LE_take by lia. reflexivity.
Qed.

Lemma readInt16LE_zeros n off :
  0 <= off -> off + 2 <= Z.of_nat n ->
  readInt16LE (replicate n x00) off = Ok 0.
Proof.
  intros H0 H2.
  destruct (split_at (replicate n x00) off) as (pre & a & b & post & E & <-);
    [lia | unfold len; rewrite length_replicate; lia |].
  assert (a = x00 /\ b = x00) as [-> ->].
  { split; eapply (elem_of_replicate_inv _ n); rewrite E;
      set_solver. }
  rewrite E, readInt16LE_here. reflexivity.
Qed.

Lemma downsampleAndMono_zeros n :
  downsampleAndMono (replicate n x00)
  = Ok (replicate (Z.to_nat (Z.of_nat n / 12 * 2)) x00).
Proof.
  assert (0 <= Z.of_nat n / 12) as Hn by (apply Z.div_pos; lia).
  pose proof (Z.mul_div_le (Z.of_nat n) 12 ltac:(lia)) as Hle.
  rewrite downsampleAndMono_eq. unfold len. rewrite length_replicate.
  f_equal. rewrite <- list_fmap_compose.
  replace (Z.to_nat (Z.of_nat n / 12 * 2))
    with (Z.to_nat (Z.of_nat n / 12) * 2)%nat by lia.
  rewrite <- (length_seqZ 0 (Z.of_nat n / 12)).
  assert (Forall (fun i => 0 <= i < Z.of_nat n / 12)
            (seqZ 0 (Z.of_nat n / 12))) as Hall
      by (apply Forall_seqZ; intros; lia).
  induction Hall as [|i l Hi _ IH]; [reflexivity|].
  change (mjoin (encode16 ∘ mono_at (replicate n x00) <$> i :: l))
    with (encode16 (mono_at (replicate n x00) i)
            ++ mjoin (encode16 ∘ mono_at (replicate n x00) <$> l)).
  rewrite IH. unfold mono_at, peek16.
  rewrite !readInt16LE_zeros by lia. reflexivity.
Qed.

End Downsample.

(** ** Rounding to doubles *)

Section Rounding.

Import Double.


Lemma pow2_pos e : (0 < pow2 e)%Q.
Proof. apply Qpower_0_lt. reflexivity. Qed.

Lemma pow2_add a b : (pow2 (a + b) == pow2 a * pow2 b)%Q.
Proof. apply Qpower_plus. discriminate. Qed.

Lemma pow2_le a b : a <= b -> (pow2 a <= pow2 b)%Q.
Proof. intros H. apply Qpower_le_compat_l; [exact H | discriminate]. Qed.

Lemma pow2_lt a b : a < b -> (pow2 a < pow2 b)%Q.
Proof. intros H. apply Qpower_lt_compat_l; [exact H | reflexivity]. Qed.

Lemma pow2_lt_inv a b : (pow2 a < pow2 b)%Q -> a < b.
Proof. intros H. apply (Qpower_lt_compat_l_inv 2); [exact H | reflexivity]. Qed.

Lemma pow2_Z e : 0 <= e -> (pow2 e == inject_Z (2 ^ e))%Q.
Proof.
  intros H. unfold pow2. rewrite Zpower_Qpower by exact H. reflexivity.
Qed.

Lemma pow2_succ e : (pow2 (e + 1) == 2 * pow2 e)%Q.
Proof. rewrite pow2_add. change (pow2 1) with 2%Q. ring. Qed.

Lemma pow2_pred e : (2 * pow2 (e - 1) == pow2 e)%Q.
Proof.
  replace e with (e - 1 + 1) at 2 by lia. rewrite pow2_succ. reflexivity.
Qed.

Lemma log2_bounds n :
  0 < n -> (pow2 (Z.log2 n) <= inject_Z n < 2 * pow2 (Z.log2 n))%Q.
Proof.
  intros H. destruct (Z.log2_spec n H) as [H1 H2].
  pose proof (Z.log2_nonneg n) as H0.
  rewrite <- pow2_succ, !pow2_Z by lia. split.
  - rewrite <- Zle_Qle. exact H1.
  - rewrite <- Zlt_Qlt. exact H2.
Qed.

Lemma quotient_bounds (x A B P R E : Q) :
  (P <= A < 2 * P)%Q -> (R <= B < 2 * R)%Q -> (0 < R)%Q -> (0 < E)%Q ->
  (E * R == P)%Q -> (x * B == A)%Q ->
  (E < 2 * x /\ x < 2 * E)%Q.
Proof.
  intros [A1 A2] [B1 B2] PB PE HE HX. split.
  - apply Qnot_le_lt. intros H.
    assert (0 <= (E - 2 * x) * B)%Q by (apply Qmult_le_0_compat; lra).
    assert (0 < E * (2 * R - B))%Q by (apply Qmult_lt_0_compat; lra).
    nra.
  - apply Qnot_le_lt. intros H.
    assert (0 <= (x - 2 * E) * B)%Q by (apply Qmult_le_0_compat; lra).
    assert (0 <= E * (B - R))%Q by (apply Qmult_le_0_compat; lra).
    nra.
Qed.

Lemma exponent_spec x :
  (0 < x)%Q -> (pow2 (exponent x) <= x < pow2 (exponent x + 1))%Q.
Proof.
  intros Hx. destruct x as [a b].
  assert (0 < a) as Ha by (unfold Qlt in Hx; simpl in Hx; lia).
  unfold exponent. cbn [Qnum Qden]. cbv zeta.
  set (e := Z.log2 a - Z.log2 (Z.pos b)).
  assert (pow2 e * pow2 (Z.log2 (Z.pos b)) == pow2 (Z.log2 a))%Q as HE.
  { rewrite <- pow2_add. unfold e.
    replace (Z.log2 a - Z.log2 (Z.pos b) + Z.log2 (Z.pos b)) with (Z.log2 a)
      by lia. reflexivity. }
  assert ((a # b) * inject_Z (Z.pos b) == inject_Z a)%Q as HX.
  { unfold Qeq, Qmult, inject_Z. simpl. lia. }
  destruct (quotient_bounds (a # b) (inject_Z a) (inject_Z (Z.pos b))
              (pow2 (Z.log2 a)) (pow2 (Z.log2 (Z.pos b))) (pow2 e)
              (log2_bounds a Ha) (log2_bounds (Z.pos b) eq_refl)
              (pow2_pos _) (pow2_pos _) HE HX) as [L U].
  destruct (Qle_bool (pow2 e) (a # b)) eqn:T.
  - apply Qle_bool_iff in T. split; [exact T|].
    rewrite pow2_succ. exact U.
  - assert (a # b < pow2 e)%Q as T'.
    { apply Qnot_le_lt. intros H. apply Qle_bool_iff in H. congruence. }
    replace (e - 1 + 1) with e by lia. split; [|exact T'].
    pose proof (pow2_pred e) as Hp. lra.
Qed.

Lemma exponent_unique x e :
  (pow2 e <= x < pow2 (e + 1))%Q -> exponent x = e.
Proof.
  intros [L U].
  assert (0 < x)%Q as Hx by (pose proof (pow2_pos e); lra).
  destruct (exponent_spec x Hx) as [L' U'].
  assert (exponent x < e + 1) by (apply pow2_lt_inv; lra).
  assert (e < exponent x + 1) by (apply pow2_lt_inv; lra).
  lia.
Qed.

Lemma exponent_comp x y : (0 < x)%Q -> (x == y)%Q -> exponent x = exponent y.
Proof.
  intros Hx E. symmetry. apply exponent_unique. rewrite <- E.
  apply exponent_spec. exact Hx.
Qed.

Lemma exponent_mono x y :
  (0 < x)%Q -> (x <= y)%Q -> exponent x <= exponent y.
Proof.
  intros Hx Hxy.
  destruct (exponent_spec x Hx) as [L _].
  destruct (exponent_spec y ltac:(lra)) as [_ U].
  assert (exponent x < exponent y + 1) by (apply pow2_lt_inv; lra).
  lia.
Qed.


Lemma nearest_even_comp x y :
  (x == y)%Q -> nearest_even x = nearest_even y.
Proof.
  intros E. unfold nearest_even. rewrite (Qfloor_comp x y E).
  assert (x - inject_Z (Qfloor y) == y - inject_Z (Qfloor y))%Q as ->
      by (rewrite E; reflexivity).
  reflexivity.
Qed.

Lemma nearest_even_Z z : nearest_even (inject_Z z) = z.
Proof.
  unfold nearest_even. rewrite Qfloor_Z.
  assert ((inject_Z z - inject_Z z ?= 1 # 2)%Q = Lt) as ->
      by (rewrite <- Qlt_alt; lra).
  reflexivity.
Qed.

Lemma nearest_even_bounds x :
  Qfloor x <= nearest_even x <= Qfloor x + 1.
Proof.
  unfold nearest_even.
  destruct (x - inject_Z (Qfloor x) ?= 1 # 2)%Q; [|lia|lia].
  destruct (Z.even (Qfloor x)); lia.
Qed.

Lemma nearest_even_mono x y :
  (x <= y)%Q -> nearest_even x <= nearest_even y.
Proof.
  intros Hxy. pose proof (Qfloor_resp_le x y Hxy) as Hf.
  destruct (Z.eq_dec (Qfloor x) (Qfloor y)) as [E|N].
  - unfold nearest_even. rewrite E.
    destruct (Qcompare_spec (x - inject_Z (Qfloor y)) (1 # 2)) as [X|X|X],
      (Qcompare_spec (y - inject_Z (Qfloor y)) (1 # 2)) as [Y|Y|Y];
      try lia; try (exfalso; lra);
      destruct (Z.even (Qfloor y)); lia.
  - pose proof (nearest_even_bounds x). pose proof (nearest_even_bounds y).
    lia.
Qed.

(** The quantum of a positive rational: the power of two its doubles are
    multiples of. *)
Lemma quantum_mono x y :
  (0 < x)%Q -> (x <= y)%Q ->
  Z.max (exponent x) (-1022) - 52 <= Z.max (exponent y) (-1022) - 52.
Proof. intros Hx Hxy. pose proof (exponent_mono x y Hx Hxy). lia. Qed.

Lemma rnd_pos_comp x y :
  (0 < x)%Q -> (x == y)%Q -> (rnd_pos x == rnd_pos y)%Q.
Proof.
  intros Hx E. unfold rnd_pos. rewrite (exponent_comp x y Hx E).
  set (q := Z.max (exponent y) (-1022) - 52).
  rewrite (nearest_even_comp (x / pow2 q) (y / pow2 q))
    by (rewrite E; reflexivity).
  reflexivity.
Qed.

Lemma scaled x q : (x / pow2 q * pow2 q == x)%Q.
Proof. pose proof (pow2_pos q). field. lra. Qed.

Lemma rnd_pos_nonneg x : (0 < x)%Q -> (0 <= rnd_pos x)%Q.
Proof.
  intros Hx. unfold rnd_pos.
  set (q := Z.max (exponent x) (-1022) - 52).
  pose proof (pow2_pos q) as Hq.
  apply Qmult_le_0_compat; [|lra].
  change 0%Q with (inject_Z 0). rewrite <- Zle_Qle.
  rewrite <- (nearest_even_Z 0). apply nearest_even_mono.
  change (inject_Z 0) with 0%Q. apply (Qmult_le_r _ _ (pow2 q)); [exact Hq|].
  rewrite scaled. lra.
Qed.

(** The double of a positive rational stays in its binade. *)
Lemma rnd_pos_binade x :
  (0 < x)%Q ->
  let E := Z.max (exponent x) (-1022) in
  (rnd_pos x <= pow2 (E + 1))%Q
  /\ (-1022 <= exponent x -> (pow2 E <= rnd_pos x)%Q).
Proof.
  intros Hx E. destruct (exponent_spec x Hx) as [L U].
  unfold rnd_pos. fold E. set (q := E - 52).
  pose proof (pow2_pos q) as Hq.
  assert (pow2 (E + 1) == inject_Z (2 ^ 53) * pow2 q)%Q as E1.
  { rewrite <- pow2_Z, <- pow2_add by lia. unfold q.
    replace (53 + (E - 52)) with (E + 1) by lia. reflexivity. }
  assert (pow2 E == inject_Z (2 ^ 52) * pow2 q)%Q as E0.
  { rewrite <- pow2_Z, <- pow2_add by lia. unfold q.
    replace (52 + (E - 52)) with E by lia. reflexivity. }
  split.
  - rewrite E1. apply Qmult_le_compat_r; [|lra].
    rewrite <- Zle_Qle. rewrite <- (nearest_even_Z (2 ^ 53)).
    apply nearest_even_mono.
    apply (Qmult_le_r _ _ (pow2 q)); [exact Hq|].
    rewrite scaled, <- E1.
    assert (pow2 (exponent x + 1) <= pow2 (E + 1))%Q
      by (apply pow2_le; unfold E; lia).
    lra.
  - intros Hn. rewrite E0. apply Qmult_le_compat_r; [|lra].
    rewrite <- Zle_Qle. rewrite <- (nearest_even_Z (2 ^ 52)).
    apply nearest_even_mono.
    apply (Qmult_le_r _ _ (pow2 q)); [exact Hq|].
    rewrite scaled, <- E0.
    replace E with (exponent x) by (unfold E; lia). exact L.
Qed.

Lemma rnd_pos_mono x y :
  (0 < x)%Q -> (x <= y)%Q -> (rnd_pos x <= rnd_pos y)%Q.
Proof.
  intros Hx Hxy. assert (0 < y)%Q as Hy by lra.
  pose proof (exponent_mono x y Hx Hxy) as He.
  destruct (Z.eq_dec (Z.max (exponent x) (-1022))
                     (Z.max (exponent y) (-1022))) as [E|N].
  - unfold rnd_pos. rewrite E.
    set (q := Z.max (exponent y) (-1022) - 52).
    pose proof (pow2_pos q) as Hq.
    apply Qmult_le_compat_r; [|lra]. rewrite <- Zle_Qle.
    apply nearest_even_mono.
    apply (Qmult_le_r _ _ (pow2 q)); [exact Hq|].
    rewrite !scaled. exact Hxy.
  - destruct (rnd_pos_binade x Hx) as [Ux _].
    destruct (rnd_pos_binade y Hy) as [_ Ly].
    cbv zeta in Ux, Ly.
    assert (pow2 (Z.max (exponent x) (-1022) + 1)
            <= pow2 (Z.max (exponent y) (-1022)))%Q
      by (apply pow2_le; lia).
    specialize (Ly ltac:(lia)). lra.
Qed.

Lemma rnd_comp x y : (x == y)%Q -> (rnd x == rnd y)%Q.
Proof.
  intros E. unfold rnd. rewrite <- E.
  destruct (Qcompare_spec x 0) as [H|H|H]; [reflexivity| |].
  - rewrite (rnd_pos_comp (- x) (- y)); [reflexivity | lra |].
    rewrite E. reflexivity.
  - apply rnd_pos_comp; assumption.
Qed.

#[global] Instance rnd_proper : Proper (Qeq ==> Qeq) rnd.
Proof. intros x y E. apply rnd_comp. exact E. Qed.

Lemma rnd_le x y : (x <= y)%Q -> (rnd x <= rnd y)%Q.
Proof.
  intros Hxy. unfold rnd.
  destruct (Qcompare_spec x 0) as [X|X|X],
    (Qcompare_spec y 0) as [Y|Y|Y]; try lra.
  - pose proof (rnd_pos_nonneg y Y). lra.
  - pose proof (rnd_pos_nonneg (- x) ltac:(lra)). lra.
  - pose proof (rnd_pos_mono (- y) (- x) ltac:(lra) ltac:(lra)). lra.
  - pose proof (rnd_pos_nonneg (- x) ltac:(lra)).
    pose proof (rnd_pos_nonneg y Y). lra.
  - apply rnd_pos_mono; assumption.
Qed.

Lemma rnd_0 : (rnd 0 == 0)%Q.
Proof. reflexivity. Qed.

Lemma rnd_opp x : (rnd (- x) == - rnd x)%Q.
Proof.
  unfold rnd.
  destruct (Qcompare_spec x 0) as [X|X|X],
    (Qcompare_spec (- x) 0) as [Y|Y|Y]; try lra.
  rewrite (rnd_pos_comp (- - x) x); [ring | lra | ring].
Qed.

Lemma rnd_pos_representable x m j :
  (0 < x)%Q -> m <= 2 ^ 53 -> 0 <= j <= 1022 ->
  (x * pow2 j == inject_Z m)%Q -> (rnd_pos x == x)%Q.
Proof.
  intros Hx Hm Hj Hxm.
  destruct (exponent_spec x Hx) as [L U].
  pose proof (pow2_pos j) as Pj.
  assert (0 < m) as Hm0.
  { rewrite Zlt_Qlt. change (inject_Z 0) with 0%Q. rewrite <- Hxm.
    apply Qmult_lt_0_compat; assumption. }
  set (e := exponent x) in *.
  (* 2^(e+j) <= m *)
  assert (pow2 (e + j) <= inject_Z m)%Q as Hem.
  { rewrite pow2_add, <- Hxm. apply Qmult_le_compat_r; [exact L | lra]. }
  assert (e + j <= 53) as He53.
  { destruct (Z_le_gt_dec (e + j) 53) as [|G]; [assumption|]. exfalso.
    assert (pow2 54 <= pow2 (e + j))%Q by (apply pow2_le; lia).
    assert (inject_Z m <= inject_Z (2 ^ 53))%Q
      by (rewrite <- Zle_Qle; exact Hm).
    rewrite (pow2_Z 54) in H by lia.
    assert (inject_Z (2 ^ 53) < inject_Z (2 ^ 54))%Q
      by (rewrite <- Zlt_Qlt; reflexivity).
    lra. }
  assert (- j <= e) as Hje.
  { assert (- j < e + 1); [|lia]. apply pow2_lt_inv.
    assert (pow2 (- j) * pow2 j == 1)%Q
      by (rewrite <- pow2_add; replace (- j + j) with 0 by lia; reflexivity).
    assert (1 <= inject_Z m)%Q
      by (change 1%Q with (inject_Z 1); rewrite <- Zle_Qle; lia).
    apply (Qmult_lt_r _ _ (pow2 j)); [exact Pj|].
    assert (x * pow2 j < pow2 (e + 1) * pow2 j)%Q
      by (apply Qmult_lt_compat_r; assumption).
    lra. }
  unfold rnd_pos. fold e.
  replace (Z.max e (-1022)) with e by lia.
  set (q := e - 52). pose proof (pow2_pos q) as Pq.
  destruct (Z.eq_dec (e + j) 53) as [E53|N53].
  - (* m = 2^53 *)
    assert (pow2 (e + j) == inject_Z (2 ^ 53))%Q as Hp
      by (rewrite E53; apply pow2_Z; lia).
    assert (inject_Z m <= inject_Z (2 ^ 53))%Q
      by (rewrite <- Zle_Qle; exact Hm).
    assert (x * pow2 j == pow2 (e + j))%Q as Hx2 by lra.
    assert (x == pow2 e)%Q as Hxe.
    { apply (Qmult_inj_r _ _ (pow2 j)); [lra|].
      rewrite Hx2, pow2_add. reflexivity. }
    assert (x / pow2 q == inject_Z (2 ^ 52))%Q as Hs.
    { apply (Qmult_inj_r _ _ (pow2 q)); [lra|].
      rewrite scaled, Hxe, <- pow2_Z, <- pow2_add by lia.
      unfold q. replace (52 + (e - 52)) with e by lia. reflexivity. }
    rewrite (nearest_even_comp _ _ Hs), nearest_even_Z, <- Hs.
    apply scaled.
  - assert (x / pow2 q == inject_Z (m * 2 ^ (52 - e - j)))%Q as Hs.
    { apply (Qmult_inj_r _ _ (pow2 (q + j)));
        [pose proof (pow2_pos (q + j)); lra|].
      rewrite inject_Z_mult, <- (pow2_Z (52 - e - j)) by lia.
      rewrite <- Hxm. rewrite <- (Qmult_assoc (x * pow2 j)), <- pow2_add.
      replace (52 - e - j + (q + j)) with 0 by (unfold q; lia).
      rewrite pow2_add. change (pow2 0) with 1%Q.
      field. lra. }
    rewrite (nearest_even_comp _ _ Hs), nearest_even_Z, <- Hs.
    apply scaled.
Qed.

Lemma rnd_representable x : representable x -> (rnd x == x)%Q.
Proof.
  intros (m & j & Hm & Hj & Hxm). unfold rnd.
  destruct (Qcompare_spec x 0) as [X|X|X].
  - symmetry. exact X.
  - rewrite (rnd_pos_representable (- x) (- m) j); [ring | lra | lia | lia |].
    rewrite inject_Z_opp, <- Hxm. ring.
  - apply (rnd_pos_representable x m j); [assumption | lia | lia | assumption].
Qed.

Lemma representable_Z z : Z.abs z <= 2 ^ 53 -> representable (inject_Z z).
Proof.
  intros H. exists z, 0. split; [exact H|]. split; [lia|].
  change (pow2 0) with 1%Q. ring.
Qed.

Lemma rnd_Z z : Z.abs z <= 2 ^ 53 -> (rnd (inject_Z z) == inject_Z z)%Q.
Proof. intros H. apply rnd_representable, representable_Z, H. Qed.


Lemma rnd_between (a b : Z) (x : Q) :
  Z.abs a <= 2 ^ 53 -> Z.abs b <= 2 ^ 53 ->
  (inject_Z a <= x)%Q -> (x <= inject_Z b)%Q ->
  (inject_Z a <= rnd x <= inject_Z b)%Q.
Proof.
  intros Ha Hb Hax Hxb. split.
  - rewrite <- (rnd_Z a Ha). apply rnd_le. exact Hax.
  - rewrite <- (rnd_Z b Hb). apply rnd_le. exact Hxb.
Qed.

Lemma Qred_inject_Z z : Qred (inject_Z z) = inject_Z z.
Proof.
  unfold Qred, inject_Z.
  pose proof (Z.ggcd_gcd z 1) as Hg.
  pose proof (Z.ggcd_correct_divisors z 1) as Hd.
  destruct (Z.ggcd z 1) as [g [aa bb]]. cbn [fst snd] in *.
  rewrite Z.gcd_1_r in Hg. subst g. destruct Hd as [Ha Hb].
  assert (aa = z) as -> by lia. assert (bb = 1) as -> by lia.
  reflexivity.
Qed.

Lemma Qabs_bound (x b : Q) : (- b <= x)%Q -> (x <= b)%Q -> (Qabs x <= b)%Q.
Proof. intros H1 H2. apply Qabs_Qle_condition. split; assumption. Qed.

(** An exact result between [-2^53] and [2^53] is rounded to a finite
    double. *)
Lemma round_bounded x :
  (- inject_Z (2 ^ 53) <= x)%Q -> (x <= inject_Z (2 ^ 53))%Q ->
  round x = Fin (Qred (rnd x)).
Proof.
  intros H1 H2.
  destruct (rnd_between (- 2 ^ 53) (2 ^ 53) x) as [L U];
    [lia | lia | rewrite inject_Z_opp; exact H1 | exact H2 |].
  rewrite inject_Z_opp in L.
  unfold round. cbv zeta.
  destruct (Qle_bool (pow2 1024) (Qabs (rnd x))) eqn:E; [|reflexivity].
  exfalso. apply Qle_bool_iff in E.
  pose proof (Qabs_bound (rnd x) (inject_Z (2 ^ 53)) L U) as Hb.
  assert (pow2 53 < pow2 1024)%Q as Hp by (apply pow2_lt; lia).
  rewrite (pow2_Z 53) in Hp by lia. lra.
Qed.

Lemma round_in (a b : Z) x :
  - 2 ^ 53 <= a -> b <= 2 ^ 53 ->
  (inject_Z a <= x)%Q -> (x <= inject_Z b)%Q ->
  round x = Fin (Qred (rnd x)).
Proof.
  intros Ha Hb Hax Hxb.
  assert (inject_Z (- 2 ^ 53) <= inject_Z a)%Q as A
      by (rewrite <- Zle_Qle; exact Ha).
  assert (inject_Z b <= inject_Z (2 ^ 53))%Q as B
      by (rewrite <- Zle_Qle; exact Hb).
  rewrite inject_Z_opp in A. apply round_bounded; lra.
Qed.

(** An exact result that is an integer up to [2^53] is not changed. *)
Lemma round_Z x z :
  (x == inject_Z z)%Q -> Z.abs z <= 2 ^ 53 -> round x = Number.of_Z z.
Proof.
  intros E Hz.
  assert (- inject_Z (2 ^ 53) <= x /\ x <= inject_Z (2 ^ 53))%Q as [H1 H2].
  { rewrite E, <- inject_Z_opp, <- !Zle_Qle. lia. }
  rewrite (round_bounded x H1 H2). unfold Number.of_Z. f_equal.
  rewrite <- (Qred_inject_Z z). apply Qred_complete.
  rewrite E. apply rnd_Z. exact Hz.
Qed.

Lemma Fin_Qred x y : (x == y)%Q -> Fin (Qred x) = Fin (Qred y).
Proof. intros E. f_equal. apply Qred_complete. exact E. Qed.

Lemma add_Z a b :
  Z.abs (a + b) <= 2 ^ 53 ->
  Number.add (Number.of_Z a) (Number.of_Z b) = Number.of_Z (a + b).
Proof.
  intros H. cbn [Number.add Number.of_Z]. apply round_Z; [|exact H].
  rewrite inject_Z_plus. reflexivity.
Qed.

Lemma sub_Z a b :
  Z.abs (a - b) <= 2 ^ 53 ->
  Number.sub (Number.of_Z a) (Number.of_Z b) = Number.of_Z (a - b).
Proof.
  intros H. cbn [Number.sub Number.of_Z]. apply round_Z; [|exact H].
  unfold Z.sub. rewrite inject_Z_plus, inject_Z_opp. reflexivity.
Qed.

Lemma mul_Z a b :
  Z.abs (a * b) <= 2 ^ 53 ->
  Number.mul (Number.of_Z a) (Number.of_Z b) = Number.of_Z (a * b).
Proof.
  intros H. cbn [Number.mul Number.of_Z]. apply round_Z; [|exact H].
  rewrite inject_Z_mult. reflexivity.
Qed.


Lemma min_of_Z a b :
  Math.min (Number.of_Z a) (Number.of_Z b) = Number.of_Z (Z.min a b).
Proof.
  unfold Math.min, Number.of_Z, Number.lt, Number.Qltb.
  destruct (Qle_bool (inject_Z a) (inject_Z b)) eqn:E; cbn [negb].
  - apply Qle_bool_iff in E. rewrite <- Zle_Qle in E.
    rewrite Z.min_l by exact E. reflexivity.
  - assert (~ a <= b) as N.
    { intros H. rewrite Zle_Qle in H. apply Qle_bool_iff in H. congruence. }
    rewrite Z.min_r by lia. reflexivity.
Qed.

Lemma max_of_Z a b :
  Math.max (Number.of_Z a) (Number.of_Z b) = Number.of_Z (Z.max a b).
Proof.
  unfold Math.max, Number.of_Z, Number.lt, Number.Qltb.
  destruct (Qle_bool (inject_Z b) (inject_Z a)) eqn:E; cbn [negb].
  - apply Qle_bool_iff in E. rewrite <- Zle_Qle in E.
    rewrite Z.max_l by exact E. reflexivity.
  - assert (~ b <= a) as N.
    { intros H. rewrite Zle_Qle in H. apply Qle_bool_iff in H. congruence. }
    rewrite Z.max_r by lia. reflexivity.
Qed.

End Rounding.

(** ** Upsampling *)

Section Upsample.

Import Buffer PCMToOpusConverter Double.

Lemma clamp16_int16 v : int16 (clamp16 v).
Proof. unfold clamp16, int16. lia. Qed.

Lemma clamp16_id v : int16 v -> clamp16 v = v.
Proof. unfold clamp16, int16. lia. Qed.

Lemma Qltb_half a n :
  Number.Qltb (inject_Z a) (inject_Z n / 2)%Q = true <-> 2 * a < n.
Proof.
  unfold Number.Qltb. rewrite negb_true_iff, <- not_true_iff_false.
  rewrite Qle_bool_iff. unfold Qle, Qdiv, Qmult, Qinv, inject_Z. simpl.
  lia.
Qed.

Lemma readInt16LE_int16 buf off v : readInt16LE buf off = Ok v -> int16 v.
Proof.
  unfold readInt16LE.
  destruct (get buf off) as [a|], (get buf (off + 1)) as [b|];
    try (unfold boundsError; destruct (len buf - 2 <? 0); discriminate).
  intros [= <-]. apply (decode16_int16 a b).
Qed.

(** The methods on a number that is an integer. *)
Lemma readInt16LE_number_Z buf z :
  readInt16LE_number buf (Number.of_Z z) = readInt16LE buf z.
Proof.
  unfold readInt16LE_number, Number.of_Z. rewrite Qfloor_Z.
  assert (Qeq_bool (inject_Z z) (inject_Z z) = true) as ->
      by (apply Qeq_bool_iff; reflexivity).
  reflexivity.
Qed.

Lemma writeInt16LE_number_Z buf v off :
  int16 v ->
  writeInt16LE_number buf (Number.of_Z v) off = writeInt16LE buf v off.
Proof.
  intros [H1 H2]. unfold writeInt16LE_number, Number.of_Z, Number.Qltb.
  assert (Qle_bool (inject_Z v) 32767 = true) as ->.
  { apply Qle_bool_iff. change 32767%Q with (inject_Z 32767).
    rewrite <- Zle_Qle. exact H2. }
  assert (Qle_bool (-32768) (inject_Z v) = true) as ->.
  { apply Qle_bool_iff. change (-32768)%Q with (inject_Z (-32768)).
    rewrite <- Zle_Qle. exact H1. }
  cbn [negb orb]. rewrite Qfloor_Z, Qceiling_Z.
  destruct (Qle_bool 0 (inject_Z v)); reflexivity.
Qed.

(** The clamped sample, written to both channels. *)
Lemma write_frame output v i :
  (let sample :=
     Math.max (Number.of_Z (-32768))
              (Math.min (Number.of_Z 32767) (Number.of_Z v)) in
   let outputOffset := i * 4 in
   let* output := writeInt16LE_number output sample outputOffset in
   writeInt16LE_number output sample (outputOffset + 2))
  = let* output := writeInt16LE output (clamp16 v) (i * 4) in
    writeInt16LE output (clamp16 v) (i * 4 + 2).
Proof.
  cbv zeta. rewrite min_of_Z, max_of_Z.
  change (Z.max (-32768) (Z.min 32767 v)) with (clamp16 v).
  rewrite (writeInt16LE_number_Z output _ _ (clamp16_int16 v)).
  destruct (writeInt16LE output (clamp16 v) (i * 4)) as [output'|e];
    [|reflexivity].
  cbn [bind]. apply writeInt16LE_number_Z, clamp16_int16.
Qed.

Lemma Math_round_comp x y : (x == y)%Q -> Math_round x = Math_round y.
Proof.
  intros E. unfold Math_round. apply Qfloor_comp. rewrite E. reflexivity.
Qed.

(** The position [i / ratio] in the input, as long as it is not beyond
    [2^52]. *)
Lemma inputPos_finite ratio i :
  (0 < ratio)%Q -> 0 <= i ->
  Qfloor (rnd (inject_Z i / ratio)) < 2 ^ 52 ->
  (0 <= inject_Z i / ratio)%Q /\ (inject_Z i / ratio <= inject_Z (2 ^ 52))%Q
  /\ (0 <= rnd (inject_Z i / ratio))%Q
  /\ 0 <= Qfloor (rnd (inject_Z i / ratio)).
Proof.
  intros Hr Hi Hidx.
  assert (0 <= inject_Z i / ratio)%Q as H0.
  { apply Qle_shift_div_l; [exact Hr|]. rewrite Qmult_0_l.
    change 0%Q with (inject_Z 0). rewrite <- Zle_Qle. exact Hi. }
  assert (0 <= rnd (inject_Z i / ratio))%Q as H0'
      by (rewrite <- rnd_0; apply rnd_le; exact H0).
  split; [exact H0|]. split; [|split; [exact H0'|]].
  - apply Qnot_lt_le. intros Hgt.
    assert (inject_Z (2 ^ 52) <= rnd (inject_Z i / ratio))%Q as Hge.
    { rewrite <- (rnd_Z (2 ^ 52)) by lia. apply rnd_le. lra. }
    apply Qfloor_resp_le in Hge. rewrite Qfloor_Z in Hge. lia.
  - change 0 with (Qfloor 0). apply Qfloor_resp_le. exact H0'.
Qed.

(** The sample of an iteration: what the operations on numbers compute is
    the interpolation on rationals, every result rounded. *)
Lemma sample_read this ratio buffer i :
  resampleRatio this = Fin ratio -> (0 < ratio)%Q -> 0 <= i ->
  Qfloor (rnd (inject_Z i / ratio)) < 2 ^ 52 ->
  (let inputSamples : number := Fin (inject_Z (len buffer) / 2) in
   let inputPos := Number.div (Number.of_Z i) (resampleRatio this) in
   let inputIndex := Math.floor inputPos in
   let frac := Number.sub inputPos inputIndex in
   if Number.lt (Number.add inputIndex (Number.of_Z 1)) inputSamples
   then
     let* s1 :=
       readInt16LE_number buffer (Number.mul inputIndex (Number.of_Z 2)) in
     let* s2 :=
       readInt16LE_number buffer
         (Number.mul (Number.add inputIndex (Number.of_Z 1))
                     (Number.of_Z 2)) in
     Ok (Math.round
           (Number.add (Number.of_Z s1)
              (Number.mul frac
                 (Number.sub (Number.of_Z s2) (Number.of_Z s1)))))
   else if Number.lt inputIndex inputSamples then
     let* s1 :=
       readInt16LE_number buffer (Number.mul inputIndex (Number.of_Z 2)) in
     Ok (Number.of_Z s1)
   else Ok (Number.of_Z 0))
  = (let inputSamples : Q := (inject_Z (len buffer) / 2)%Q in
     let inputPos : Q := rnd (inject_Z i / ratio) in
     let inputIndex : Z := Qfloor inputPos in
     let frac : Q := rnd (inputPos - inject_Z inputIndex) in
     if Number.Qltb (inject_Z (inputIndex + 1)) inputSamples then
       let* s1 := readInt16LE buffer (inputIndex * 2) in
       let* s2 := readInt16LE buffer ((inputIndex + 1) * 2) in
       Ok (Number.of_Z
             (Math_round
                (rnd (inject_Z s1 + rnd (frac * inject_Z (s2 - s1))))))
     else if Number.Qltb (inject_Z inputIndex) inputSamples then
       let* s1 := readInt16LE buffer (inputIndex * 2) in
       Ok (Number.of_Z s1)
     else Ok (Number.of_Z 0)).
Proof.
  intros Hratio Hr Hi Hidx. cbv zeta. rewrite Hratio.
  destruct (inputPos_finite ratio i Hr Hi Hidx) as (Hp0 & Hp1 & Hq0 & Hidx0).
  set (x := (inject_Z i / ratio)%Q) in *.
  set (idx := Qfloor (rnd x)) in *.
  (* inputPos *)
  assert (Number.div (Number.of_Z i) (Fin ratio) = Fin (Qred (rnd x))) as ->.
  { unfold Number.div, Number.of_Z.
    destruct (Qeq_bool ratio 0) eqn:E.
    - apply Qeq_bool_iff in E. lra.
    - apply (round_in 0 (2 ^ 52)); [lia | lia | exact Hp0 | exact Hp1]. }
  (* inputIndex *)
  assert (Math.floor (Fin (Qred (rnd x))) = Number.of_Z idx) as ->.
  { unfold Math.floor. f_equal. apply Qfloor_comp, Qred_correct. }
  (* frac *)
  assert (0 <= rnd x - inject_Z idx < 1)%Q as [Hf0 Hf1].
  { pose proof (Qfloor_le (rnd x)) as Hle.
    pose proof (Qlt_floor (rnd x)) as Hlt.
    fold idx in Hle, Hlt. rewrite inject_Z_plus in Hlt.
    change (inject_Z 1) with 1%Q in Hlt. split; lra. }
  assert (Number.sub (Fin (Qred (rnd x))) (Number.of_Z idx)
          = Fin (Qred (rnd (rnd x - inject_Z idx)))) as ->.
  { unfold Number.sub, Number.of_Z.
    assert (Qred (rnd x) - inject_Z idx == rnd x - inject_Z idx)%Q as E
        by (rewrite Qred_correct; reflexivity).
    rewrite (round_in 0 1); [| lia | lia | rewrite E; exact Hf0
                            | rewrite E; change (inject_Z 1) with 1%Q; lra].
    apply Fin_Qred, rnd_comp, E. }
  set (frac := rnd (rnd x - inject_Z idx)).
  assert (0 <= frac <= 1)%Q as [Hfr0 Hfr1].
  { unfold frac. split.
    - rewrite <- rnd_0. apply rnd_le. exact Hf0.
    - change 1%Q with (inject_Z 1). rewrite <- (rnd_Z 1) by lia.
      apply rnd_le. change (inject_Z 1) with 1%Q. lra. }
  rewrite add_Z by lia. rewrite !mul_Z by lia.
  rewrite !readInt16LE_number_Z.
  change (Number.lt (Number.of_Z (idx + 1)) (Fin (inject_Z (len buffer) / 2)))
    with (Number.Qltb (inject_Z (idx + 1)) (inject_Z (len buffer) / 2)).
  change (Number.lt (Number.of_Z idx) (Fin (inject_Z (len buffer) / 2)))
    with (Number.Qltb (inject_Z idx) (inject_Z (len buffer) / 2)).
  destruct (Number.Qltb (inject_Z (idx + 1)) (inject_Z (len buffer) / 2));
    [|reflexivity].
  destruct (readInt16LE buffer (idx * 2)) as [s1|e] eqn:E1; [|reflexivity].
  destruct (readInt16LE buffer ((idx + 1) * 2)) as [s2|e] eqn:E2;
    [|reflexivity].
  cbn [bind]. f_equal.
  pose proof (readInt16LE_int16 _ _ _ E1) as [L1 U1].
  pose proof (readInt16LE_int16 _ _ _ E2) as [L2 U2].
  rewrite sub_Z by lia.
  (* frac * (s2 - s1) *)
  assert (inject_Z (-65535) <= frac * inject_Z (s2 - s1) <= inject_Z 65535)%Q
    as [Hm0 Hm1].
  { assert (inject_Z (-65535) <= inject_Z (s2 - s1) <= inject_Z 65535)%Q
      as [Hd0 Hd1] by (rewrite <- !Zle_Qle; lia).
    change (inject_Z (-65535)) with (-65535)%Q in *.
    change (inject_Z 65535) with 65535%Q in *.
    split; nra. }
  assert (Number.mul (Fin (Qred frac)) (Number.of_Z (s2 - s1))
          = Fin (Qred (rnd (frac * inject_Z (s2 - s1))))) as ->.
  { unfold Number.mul, Number.of_Z.
    assert (Qred frac * inject_Z (s2 - s1) == frac * inject_Z (s2 - s1))%Q
      as E by (rewrite Qred_correct; reflexivity).
    rewrite (round_in (-65535) 65535);
      [| lia | lia | rewrite E; exact Hm0 | rewrite E; exact Hm1].
    apply Fin_Qred, rnd_comp, E. }
  set (g := rnd (frac * inject_Z (s2 - s1))).
  assert (inject_Z (-65535) <= g <= inject_Z 65535)%Q as [Hg0 Hg1]
      by (unfold g; apply rnd_between; [lia | lia | exact Hm0 | exact Hm1]).
  assert (Number.add (Number.of_Z s1) (Fin (Qred g))
          = Fin (Qred (rnd (inject_Z s1 + g)))) as ->.
  { unfold Number.add, Number.of_Z.
    assert (inject_Z s1 + Qred g == inject_Z s1 + g)%Q as E
        by (rewrite Qred_correct; reflexivity).
    assert (inject_Z (-32768) <= inject_Z s1 <= inject_Z 32767)%Q as [A B]
        by (rewrite <- !Zle_Qle; lia).
    rewrite (round_in (-32768 + -65535) (32767 + 65535));
      [| lia | lia | rewrite E, inject_Z_plus; lra
       | rewrite E, inject_Z_plus; lra].
    apply Fin_Qred, rnd_comp, E. }
  unfold Math.round. f_equal. apply Math_round_comp, Qred_correct.
Qed.


Lemma Qfloor_unique (x : Q) (q : Z) :
  (inject_Z q <= x)%Q -> (x < inject_Z (q + 1))%Q -> Qfloor x = q.
Proof.
  intros L U.
  pose proof (Qfloor_resp_le _ _ L) as H1. rewrite Qfloor_Z in H1.
  pose proof (Qfloor_le x) as H2.
  assert (inject_Z (Qfloor x) < inject_Z (q + 1))%Q as H3 by lra.
  rewrite <- Zlt_Qlt in H3. lia.
Qed.

Lemma half_len buffer :
  len buffer mod 2 = 0 ->
  (inject_Z (len buffer) / 2 == inject_Z (len buffer / 2))%Q.
Proof.
  intros Heven. unfold Qeq, Qdiv, Qmult, Qinv, inject_Z. simpl.
  Z.to_euclidean_division_equations. lia.
Qed.

(** The exact number of output frames fits [2^51]. *)
Lemma fits_bound ratio buffer :
  (0 < ratio)%Q -> fits ratio buffer ->
  (0 <= inject_Z (len buffer) / 2 * ratio)%Q
  /\ (inject_Z (len buffer) / 2 * ratio <= inject_Z (2 ^ 51))%Q.
Proof.
  intros Hr [_ Hout]. pose proof (len_nonneg buffer) as Hlen.
  assert (0 <= inject_Z (len buffer) / 2)%Q as H0.
  { unfold Qle, Qdiv, Qmult, Qinv, inject_Z. simpl. lia. }
  split; [apply Qmult_le_0_compat; lra|].
  assert (inject_Z kMaxLength <= 4 * inject_Z (2 ^ 51))%Q.
  { change 4%Q with (inject_Z 4). rewrite <- inject_Z_mult, <- Zle_Qle.
    unfold kMaxLength. lia. }
  lra.
Qed.

Lemma outputSamples_range ratio buffer :
  (0 < ratio)%Q -> fits ratio buffer ->
  0 <= output_samples ratio buffer <= 2 ^ 51.
Proof.
  intros Hr Hfits. destruct (fits_bound ratio buffer Hr Hfits) as [H0 H1].
  destruct (rnd_between 0 (2 ^ 51) _ ltac:(lia) ltac:(lia) H0 H1) as [L U].
  unfold output_samples. split.
  - rewrite <- (Qfloor_Z 0). apply Qfloor_resp_le. exact L.
  - rewrite <- (Qfloor_Z (2 ^ 51)). apply Qfloor_resp_le. exact U.
Qed.

(** An output index below [floor(inputSamples * ratio)] maps into the
    input: the quotient [i / ratio], rounded, stays below the number of
    input samples. *)
Lemma inputIndex_lt ratio buffer i :
  (0 < ratio)%Q -> len buffer mod 2 = 0 -> fits ratio buffer ->
  0 <= i < output_samples ratio buffer ->
  0 <= Qfloor (rnd (inject_Z i / ratio))
  /\ 2 * Qfloor (rnd (inject_Z i / ratio)) < len buffer.
Proof.
  intros Hr Heven Hfits [Hi0 Hi].
  destruct (fits_bound ratio buffer Hr Hfits) as [HX0 HX1].
  pose proof (outputSamples_range ratio buffer Hr Hfits) as [_ Hout].
  destruct Hfits as [Hlen Hfit].
  pose proof (half_len buffer Heven) as HN.
  unfold output_samples in Hi, Hout.
  set (n := len buffer / 2) in *.
  assert (len buffer = 2 * n) as Hn
      by (unfold n; Z.to_euclidean_division_equations; lia).
  set (X := (inject_Z (len buffer) / 2 * ratio)%Q) in *.
  assert (X == inject_Z n * ratio)%Q as HXn
      by (unfold X; rewrite HN; reflexivity).
  (* the rounded product is at least i + 1 *)
  assert (inject_Z (i + 1) <= rnd X)%Q as F2.
  { eapply Qle_trans; [|apply Qfloor_le]. rewrite <- Zle_Qle. lia. }
  (* so the product is at least i + 1/2 *)
  assert (inject_Z (2 * i + 1) <= 2 * X)%Q as F4.
  { apply Qnot_lt_le. intros Hlt.
    set (h := (inject_Z (2 * i + 1) * (1 # 2))%Q).
    assert (rnd h == h)%Q as Hh.
    { apply rnd_representable. exists (2 * i + 1), 1.
      split; [lia|]. split; [lia|].
      unfold h. change (pow2 1) with 2%Q. ring. }
    assert (rnd X <= rnd h)%Q as Hle by (apply rnd_le; unfold h; lra).
    rewrite Hh in Hle. unfold h in Hle.
    rewrite inject_Z_plus in F2. rewrite inject_Z_plus, inject_Z_mult in Hle.
    change (inject_Z 1) with 1%Q in *. change (inject_Z 2) with 2%Q in *.
    lra. }
  rewrite inject_Z_plus, inject_Z_mult in F4.
  change (inject_Z 1) with 1%Q in F4. change (inject_Z 2) with 2%Q in F4.
  assert (0 <= inject_Z i)%Q as Hiq
      by (change 0%Q with (inject_Z 0); rewrite <- Zle_Qle; lia).
  (* there is an input sample *)
  assert (1 <= n) as Hn1.
  { destruct (Z_le_gt_dec 1 n) as [|G]; [assumption|]. exfalso.
    assert (inject_Z n <= 0)%Q
      by (change 0%Q with (inject_Z 0); rewrite <- Zle_Qle; lia).
    nra. }
  assert (1 <= inject_Z n)%Q as Hnq
      by (change 1%Q with (inject_Z 1); rewrite <- Zle_Qle; lia).
  (* a power of two that is at least twice the ratio *)
  destruct (exponent_spec ratio Hr) as [He0 He1].
  set (e := exponent ratio) in *.
  assert (e < 52) as He52.
  { apply pow2_lt_inv. rewrite (pow2_Z 52) by lia.
    assert (inject_Z (2 ^ 51) < inject_Z (2 ^ 52))%Q
      by (rewrite <- Zlt_Qlt; lia).
    nra. }
  set (j := Z.max 0 (e + 2)).
  assert (0 <= j <= 1022) as Hj by (unfold j; lia).
  assert (2 * ratio <= pow2 j)%Q as Hj2.
  { assert (pow2 (e + 2) <= pow2 j)%Q by (apply pow2_le; unfold j; lia).
    pose proof (pow2_succ (e + 1)) as Hs.
    replace (e + 1 + 1) with (e + 2) in Hs by lia. lra. }
  assert (inject_Z n * pow2 j <= inject_Z (2 ^ 53))%Q as Hnj.
  { destruct (Z.max_spec 0 (e + 2)) as [[_ Hm]|[_ Hm]]; fold j in Hm.
    - (* j = e + 2 *)
      assert (pow2 j == 4 * pow2 e)%Q as Hp.
      { rewrite Hm. replace (e + 2) with (e + 1 + 1) by lia.
        rewrite !pow2_succ. ring. }
      assert (inject_Z kMaxLength <= inject_Z (2 ^ 53))%Q
        by (rewrite <- Zle_Qle; unfold kMaxLength; lia).
      rewrite Hp. nra.
    - rewrite Hm. change (pow2 0) with 1%Q.
      assert (inject_Z n <= inject_Z (2 ^ 53))%Q
        by (rewrite <- Zle_Qle; unfold kMaxLength in Hlen; lia).
      lra. }
  pose proof (pow2_pos j) as Pj. pose proof (pow2_pos (- j)) as Pw.
  assert (pow2 (- j) * pow2 j == 1)%Q as Hw
      by (rewrite <- pow2_add; replace (- j + j) with 0 by lia; reflexivity).
  set (w := pow2 (- j)) in *.
  (* the exact quotient is at most n - w, which is a double *)
  set (p := (inject_Z i / ratio)%Q).
  assert (p * ratio == inject_Z i)%Q as Hp by (unfold p; field; lra).
  assert (p <= inject_Z n - w)%Q as Hpw.
  { assert (w * (2 * ratio) <= w * pow2 j)%Q
      by (apply Qmult_le_l; assumption).
    apply (Qmult_le_r _ _ ratio); [exact Hr|]. nra. }
  assert (rnd (inject_Z n - w) == inject_Z n - w)%Q as Hrep.
  { apply rnd_representable. exists (n * 2 ^ j - 1), j.
    rewrite (pow2_Z j) in Hnj by lia.
    rewrite <- inject_Z_mult, <- Zle_Qle in Hnj.
    assert (0 < 2 ^ j) by (apply Z.pow_pos_nonneg; lia).
    split; [nia|]. split; [exact Hj|].
    unfold Z.sub. rewrite inject_Z_plus, inject_Z_mult, <- (pow2_Z j) by lia.
    rewrite inject_Z_opp. change (inject_Z 1) with 1%Q. nra. }
  assert (rnd p <= inject_Z n - w)%Q as Hrp
      by (rewrite <- Hrep; apply rnd_le; exact Hpw).
  assert (0 <= rnd p)%Q as Hrp0.
  { rewrite <- rnd_0. apply rnd_le. unfold p.
    apply Qle_shift_div_l; [exact Hr|]. lra. }
  split.
  - change 0 with (Qfloor 0). apply Qfloor_resp_le. exact Hrp0.
  - pose proof (Qfloor_le (rnd p)) as Hfl.
    assert (inject_Z (Qfloor (rnd p)) < inject_Z n)%Q as Hlt by lra.
    rewrite <- Zlt_Qlt in Hlt. lia.
Qed.

(** On a buffer of whole samples the reads of an iteration stay inside
    the buffer. *)
Lemma sample_interpolate ratio buffer i :
  (0 < ratio)%Q -> len buffer mod 2 = 0 -> fits ratio buffer ->
  0 <= i < output_samples ratio buffer ->
  (let inputSamples : Q := (inject_Z (len buffer) / 2)%Q in
   let inputPos : Q := rnd (inject_Z i / ratio) in
   let inputIndex : Z := Qfloor inputPos in
   let frac : Q := rnd (inputPos - inject_Z inputIndex) in
   if Number.Qltb (inject_Z (inputIndex + 1)) inputSamples then
     let* s1 := readInt16LE buffer (inputIndex * 2) in
     let* s2 := readInt16LE buffer ((inputIndex + 1) * 2) in
     Ok (Number.of_Z
           (Math_round
              (rnd (inject_Z s1 + rnd (frac * inject_Z (s2 - s1))))))
   else if Number.Qltb (inject_Z inputIndex) inputSamples then
     let* s1 := readInt16LE buffer (inputIndex * 2) in
     Ok (Number.of_Z s1)
   else Ok (Number.of_Z 0))
  = Ok (Number.of_Z (interpolate ratio buffer i)).
Proof.
  intros Hr Heven Hfits Hi. cbv zeta. unfold interpolate.
  destruct (inputIndex_lt ratio buffer i Hr Heven Hfits Hi) as [Hidx Hlt].
  set (idx := Qfloor (rnd (inject_Z i / ratio))) in *.
  destruct (Number.Qltb (inject_Z (idx + 1)) (inject_Z (len buffer) / 2)%Q)
    eqn:E1.
  - apply Qltb_half in E1.
    destruct (peek16_in_range buffer (idx * 2)) as [-> _];
      [lia | Z.to_euclidean_division_equations; lia |].
    destruct (peek16_in_range buffer ((idx + 1) * 2)) as [-> _];
      [lia | Z.to_euclidean_division_equations; lia |].
    reflexivity.
  - destruct (Number.Qltb (inject_Z idx) (inject_Z (len buffer) / 2)%Q)
      eqn:E2; [|reflexivity].
    apply Qltb_half in E2.
    destruct (peek16_in_range buffer (idx * 2)) as [-> _];
      [lia | Z.to_euclidean_division_equations; lia |].
    reflexivity.
Qed.


(** The allocation and the loop bound of [resampleAndStereo]. *)
Lemma outputSamples_number this ratio buffer :
  resampleRatio this = Fin ratio -> (0 < ratio)%Q -> fits ratio buffer ->
  Math.floor (Number.mul (Fin (inject_Z (len buffer) / 2))
                (resampleRatio this))
  = Number.of_Z (output_samples ratio buffer).
Proof.
  intros Hratio Hr Hfits. rewrite Hratio.
  destruct (fits_bound ratio buffer Hr Hfits) as [H0 H1].
  unfold Number.mul.
  rewrite (round_in 0 (2 ^ 51)) by (lia || assumption).
  unfold Math.floor, output_samples. f_equal.
  apply Qfloor_comp, Qred_correct.
Qed.

(** On a buffer of whole samples and a positive ratio the function
    returns the frames of the clamped interpolated samples. *)
Lemma resampleAndStereo_eq this ratio buffer :
  resampleRatio this = Fin ratio -> (0 < ratio)%Q ->
  len buffer mod 2 = 0 -> fits ratio buffer ->
  resampleAndStereo this buffer
  = Ok (mjoin
          ((fun i => stereo_frame (clamp16 (interpolate ratio buffer i)))
             <$> seqZ 0 (output_samples ratio buffer))).
Proof.
  intros Hratio Hr Heven Hfits.
  pose proof (outputSamples_range ratio buffer Hr Hfits) as [Hn0 Hn1].
  unfold resampleAndStereo. cbv zeta.
  rewrite (outputSamples_number this ratio buffer Hratio Hr Hfits).
  set (n := output_samples ratio buffer) in *.
  rewrite mul_Z by lia.
  assert (alloc_number (Number.of_Z (n * 4))
          = Ok (replicate (Z.to_nat (n * 4)) x00)) as ->.
  { unfold alloc_number, Number.of_Z. rewrite Qfloor_Z.
    apply alloc_nonneg. lia. }
  cbn [bind]. change (Number.of_Z n) with (Fin (inject_Z n)). cbv iota.
  rewrite for_lt_Z.
  replace (Z.to_nat (n * 4)) with (Z.to_nat n * 4)%nat by lia.
  replace (seqZ 0 n) with (seqZ 0 (Z.of_nat (Z.to_nat n)))
    by (rewrite Z2Nat.id by lia; reflexivity).
  apply (for_from_fill 4 _
           (fun i => stereo_frame (clamp16 (interpolate ratio buffer i)))
           ltac:(reflexivity) (Z.to_nat n) 0 []); [|reflexivity].
  intros j pre post Hj Hpre.
  assert (0 <= j < output_samples ratio buffer) as Hjn by (fold n; lia).
  destruct (inputIndex_lt ratio buffer j Hr Heven Hfits Hjn) as [Hidx Hlt].
  assert (Qfloor (rnd (inject_Z j / ratio)) < 2 ^ 52) as Hidx52.
  { destruct Hfits as [Hlen _]. unfold kMaxLength in Hlen. lia. }
  pose proof (sample_read this ratio buffer j Hratio Hr ltac:(lia) Hidx52)
    as Hs.
  pose proof (sample_interpolate ratio buffer j Hr Heven Hfits Hjn) as Hi.
  cbv zeta in Hs, Hi. cbv beta. rewrite Hs, Hi. cbn [bind].
  pose proof (write_frame (pre ++ replicate 4 x00 ++ post)
                (interpolate ratio buffer j) j) as Hw.
  cbv zeta in Hw. rewrite Hw.
  pose proof (clamp16_int16 (interpolate ratio buffer j)) as Hv.
  set (v := clamp16 (interpolate ratio buffer j)) in *.
  replace (j * 4) with (len pre) by lia.
  change (pre ++ replicate 4 x00 ++ post)
    with (pre ++ x00 :: x00 :: (x00 :: x00 :: post)).
  rewrite (writeInt16LE_here pre x00 x00 _ v Hv). cbn [bind].
  rewrite app_assoc.
  replace (len pre + 2) with (len (pre ++ encode16 v))
    by (rewrite len_app; reflexivity).
  rewrite (writeInt16LE_here (pre ++ encode16 v) x00 x00 post v Hv).
  unfold stereo_frame. rewrite <- !app_assoc. reflexivity.
Qed.

(** Both channels of frame [i] of a sequence of stereo frames. *)
Lemma readInt16LE_frames (vs : list Z) (i : nat) v :
  vs !! i = Some v -> int16 v ->
  readInt16LE (mjoin (stereo_frame <$> vs)) (Z.of_nat i * 4) = Ok v
  /\ readInt16LE (mjoin (stereo_frame <$> vs)) (Z.of_nat i * 4 + 2) = Ok v.
Proof.
  intros Hi Hv.
  destruct (mjoin_fixed_split stereo_frame 4 vs i v)
    as (pre & post & -> & Hpre); [reflexivity | assumption |].
  replace (Z.of_nat i * 4) with (len pre) by (unfold len; lia).
  unfold stereo_frame. split.
  - rewrite <- app_assoc. cbn [encode16 app]. rewrite readInt16LE_here.
    f_equal. apply decode16_encode16. assumption.
  - rewrite <- app_assoc, app_assoc.
    replace (len pre + 2) with (len (pre ++ encode16 v))
      by (rewrite len_app; reflexivity).
    cbn [encode16 app]. rewrite readInt16LE_here.
    f_equal. apply decode16_encode16. assumption.
Qed.

(** A fraction of 0 leaves the first sample. *)
Lemma Math_round_Z a (f b : Q) :
  Z.abs a <= 2 ^ 53 -> (f == 0)%Q ->
  Math_round (rnd (inject_Z a + rnd (f * b))) = a.
Proof.
  intros Ha Hf.
  assert (rnd (f * b) == 0)%Q as E1.
  { rewrite (rnd_comp (f * b) 0); [apply rnd_0 | rewrite Hf; ring]. }
  assert (rnd (inject_Z a + rnd (f * b)) == inject_Z a)%Q as E2.
  { rewrite (rnd_comp _ (inject_Z a)); [apply rnd_Z; exact Ha|].
    rewrite E1. ring. }
  rewrite (Math_round_comp _ _ E2).
  unfold Math_round, Qfloor, Qplus, inject_Z. simpl.
  Z.to_euclidean_division_equations. lia.
Qed.

Lemma writeInt16LE_in_range buf v off :
  int16 v -> 0 <= off -> off + 2 <= len buf ->
  exists buf', writeInt16LE buf v off = Ok buf' /\ len buf' = len buf.
Proof.
  intros Hv H0 H2.
  destruct (split_at buf off H0 H2) as (pre & a & b & post & -> & <-).
  eexists. split; [apply writeInt16LE_here; assumption|].
  unfold len. rewrite !length_app. reflexivity.
Qed.

(** A loop that throws at its iteration [i + m], the iterations before it
    keeping an invariant of the state. *)
Lemma for_from_throws_at {S : Type} (P : S -> Prop)
    (body : Z -> S -> result S) extra m :
  forall i s,
    P s ->
    (forall j s, i <= j < i + Z.of_nat m -> P s ->
                 exists s', body j s = Ok s' /\ P s') ->
    (forall s, P s -> exists e, body (i + Z.of_nat m) s = Throw e) ->
    exists e, for_from i (m + Datatypes.S extra) body s = Throw e.
Proof.
  induction m as [|k IH]; intros i s Hs Hok Hthrow.
  - destruct (Hthrow s Hs) as [e He]. exists e. cbn [for_from Nat.add].
    replace (i + Z.of_nat 0) with i in He by lia. rewrite He. reflexivity.
  - destruct (Hok i s ltac:(lia) Hs) as (s' & Hs' & HP).
    destruct (IH (i + 1) s' HP) as [e He].
    + intros j s0 Hj. apply Hok. lia.
    + intros s0. replace (i + 1 + Z.of_nat k)
        with (i + Z.of_nat (Datatypes.S k)) by lia. apply Hthrow.
    + exists e. cbn [for_from Nat.add]. rewrite Hs'. exact He.
Qed.


Lemma inputIndex_ratio3 ratio i :
  (ratio == 3)%Q -> 0 <= i < 3 * 2 ^ 51 ->
  Qfloor (rnd (inject_Z i / ratio)) = i / 3.
Proof.
  intros Hr Hi. set (q := i / 3).
  assert (3 * q <= i <= 3 * q + 2) as Hq
      by (unfold q; Z.to_euclidean_division_equations; lia).
  assert (inject_Z i / ratio == inject_Z i * (1 # 3))%Q as Hx
      by (rewrite Hr; field).
  assert (inject_Z (3 * q) <= inject_Z i <= inject_Z (3 * q + 2))%Q
    as [Hl Hu] by (rewrite <- !Zle_Qle; lia).
  rewrite inject_Z_mult in Hl. rewrite inject_Z_plus, inject_Z_mult in Hu.
  change (inject_Z 3) with 3%Q in *. change (inject_Z 2) with 2%Q in *.
  set (h := (inject_Z (4 * q + 3) * (1 # 4))%Q).
  assert (rnd h == h)%Q as Hh.
  { apply rnd_representable. exists (4 * q + 3), 2.
    split; [lia|]. split; [lia|].
    unfold h. change (pow2 2) with 4%Q. ring. }
  assert (h == inject_Z q + (3 # 4))%Q as Hh'.
  { unfold h. rewrite inject_Z_plus, inject_Z_mult.
    change (inject_Z 4) with 4%Q. change (inject_Z 3) with 3%Q. field. }
  apply Qfloor_unique.
  - rewrite <- (rnd_Z q) by lia. apply rnd_le. rewrite Hx. lra.
  - assert (rnd (inject_Z i / ratio) <= rnd h)%Q as Hle
        by (apply rnd_le; rewrite Hx, Hh'; lra).
    rewrite Hh, Hh' in Hle. rewrite inject_Z_plus.
    change (inject_Z 1) with 1%Q. lra.
Qed.

Lemma outputSamples_ratio3_odd ratio buffer k :
  (ratio == 3)%Q -> len buffer = 2 * k + 1 -> 0 <= k < 2 ^ 50 ->
  output_samples ratio buffer = 3 * k + 1.
Proof.
  intros Hr Hk Hk50. unfold output_samples. rewrite Hk.
  assert (inject_Z (2 * k + 1) / 2 * ratio
          == inject_Z (6 * k + 3) * (1 # 2))%Q as HX.
  { rewrite Hr, !inject_Z_plus, !inject_Z_mult.
    change (inject_Z 2) with 2%Q. change (inject_Z 6) with 6%Q.
    change (inject_Z 3) with 3%Q. change (inject_Z 1) with 1%Q. field. }
  assert (rnd (inject_Z (2 * k + 1) / 2 * ratio)
          == inject_Z (6 * k + 3) * (1 # 2))%Q as HR.
  { rewrite (rnd_comp _ _ HX). apply rnd_representable.
    exists (6 * k + 3), 1. split; [lia|]. split; [lia|].
    change (pow2 1) with 2%Q. ring. }
  rewrite (Qfloor_comp _ _ HR).
  apply Qfloor_unique; rewrite !inject_Z_plus, !inject_Z_mult;
    change (inject_Z 6) with 6%Q; change (inject_Z 3) with 3%Q;
    change (inject_Z 1) with 1%Q; lra.
Qed.


(** At the ratio of a 16 kHz input, a buffer that ends in half a sample
    makes a read pass its end. *)
Lemma resampleAndStereo_odd this ratio buffer :
  resampleRatio this = Fin ratio -> (ratio == 3)%Q -> fits ratio buffer ->
  len buffer mod 2 <> 0 ->
  exists e, resampleAndStereo this buffer = Throw e.
Proof.
  intros Hratio Hr3 Hfits Hodd. pose proof (len_nonneg buffer) as Hlen.
  assert (0 < ratio)%Q as Hr by (rewrite Hr3; reflexivity).
  set (k := len buffer / 2).
  assert (len buffer = 2 * k + 1) as Hk
      by (unfold k; Z.to_euclidean_division_equations; lia).
  assert (0 <= k /\ 12 * k + 6 <= 2 ^ 53 - 1) as [Hk0 Hk1].
  { split; [lia|]. destruct Hfits as [_ Hout]. rewrite Hr3, Hk in Hout.
    assert (inject_Z (2 * k + 1) / 2 * 3 * 4 == inject_Z (12 * k + 6))%Q as E.
    { rewrite !inject_Z_plus, !inject_Z_mult.
      change (inject_Z 2) with 2%Q. change (inject_Z 12) with 12%Q.
      change (inject_Z 6) with 6%Q. change (inject_Z 1) with 1%Q. field. }
    rewrite E, <- Zle_Qle in Hout. exact Hout. }
  unfold resampleAndStereo. cbv zeta.
  rewrite (outputSamples_number this ratio buffer Hratio Hr Hfits).
  rewrite (outputSamples_ratio3_odd ratio buffer k Hr3 Hk ltac:(lia)).
  rewrite mul_Z by lia.
  assert (alloc_number (Number.of_Z ((3 * k + 1) * 4))
          = Ok (replicate (Z.to_nat ((3 * k + 1) * 4)) x00)) as ->.
  { unfold alloc_number, Number.of_Z. rewrite Qfloor_Z.
    apply alloc_nonneg. lia. }
  cbn [bind].
  change (Number.of_Z (3 * k + 1)) with (Fin (inject_Z (3 * k + 1))).
  cbv iota. rewrite for_lt_Z.
  set (m := Z.to_nat (3 * Z.max 0 (k - 1))).
  replace (Z.to_nat (3 * k + 1))
    with (m + Datatypes.S (Z.to_nat (3 * k + 1) - m - 1))%nat
    by (unfold m; lia).
  apply (for_from_throws_at (fun s => len s = (3 * k + 1) * 4)).
  - unfold len. rewrite length_replicate. lia.
  - intros j s Hj Hs. cbv beta.
    assert (0 <= j < 3 * 2 ^ 51) as Hj51 by (unfold m in Hj; lia).
    pose proof (inputIndex_ratio3 ratio j Hr3 Hj51) as Hidx.
    assert (0 <= j / 3 /\ j / 3 + 2 <= k) as [Hi0 Hi1]
        by (unfold m in Hj; Z.to_euclidean_division_equations; lia).
    pose proof (sample_read this ratio buffer j Hratio Hr ltac:(lia)
                  ltac:(rewrite Hidx; lia)) as Hsr.
    cbv zeta in Hsr. rewrite Hsr, Hidx.
    assert (Number.Qltb (inject_Z (j / 3 + 1)) (inject_Z (len buffer) / 2)%Q
            = true) as -> by (apply Qltb_half; lia).
    destruct (peek16_in_range buffer (j / 3 * 2)) as [-> _]; [lia | lia |].
    destruct (peek16_in_range buffer ((j / 3 + 1) * 2)) as [-> _];
      [lia | lia |].
    cbn [bind].
    match goal with
    | |- context [Math.min (Number.of_Z 32767) (Number.of_Z ?x)] =>
        pose proof (write_frame s x j) as Hw; cbv zeta in Hw;
        pose proof (clamp16_int16 x) as Hv; set (v := clamp16 x) in *
    end.
    rewrite Hw.
    destruct (writeInt16LE_in_range s v (j * 4) Hv) as (s1 & -> & Hs1);
      [lia | unfold m in Hj; lia |].
    cbn [bind].
    destruct (writeInt16LE_in_range s1 v (j * 4 + 2) Hv) as (s2 & -> & Hs2);
      [lia | unfold m in Hj; lia |].
    exists s2. split; [reflexivity | lia].
  - intros s _. cbv beta.
    assert (0 <= 0 + Z.of_nat m < 3 * 2 ^ 51) as Hj51 by (unfold m; lia).
    pose proof (inputIndex_ratio3 ratio _ Hr3 Hj51) as Hidx.
    pose proof (sample_read this ratio buffer (0 + Z.of_nat m) Hratio Hr
                  ltac:(lia)) as Hsr.
    cbv zeta in Hsr. rewrite Hidx in Hsr.
    rewrite Hsr by (unfold m; Z.to_euclidean_division_equations; lia).
    destruct (Z.eq_dec k 0) as [Hz|Hnz].
    + assert (0 + Z.of_nat m = 0) as -> by (unfold m; lia).
      change (0 / 3) with 0.
      assert (Number.Qltb (inject_Z (0 + 1)) (inject_Z (len buffer) / 2)%Q
              = false) as ->.
      { apply not_true_iff_false. rewrite Qltb_half. lia. }
      assert (Number.Qltb (inject_Z 0) (inject_Z (len buffer) / 2)%Q = true)
        as -> by (apply Qltb_half; lia).
      destruct (readInt16LE_out_of_range buffer (0 * 2)) as [e He]; [lia|].
      exists e. rewrite He. reflexivity.
    + assert (0 + Z.of_nat m = 3 * (k - 1)) as -> by (unfold m; lia).
      replace (3 * (k - 1) / 3) with (k - 1)
        by (Z.to_euclidean_division_equations; lia).
      assert (Number.Qltb (inject_Z (k - 1 + 1)) (inject_Z (len buffer) / 2)%Q
              = true) as -> by (apply Qltb_half; lia).
      destruct (peek16_in_range buffer ((k - 1) * 2)) as [-> _];
        [lia | lia |].
      cbn [bind].
      destruct (readInt16LE_out_of_range buffer ((k - 1 + 1) * 2))
        as [e He]; [lia|].
      exists e. rewrite He. reflexivity.
Qed.

End Upsample.

(** ** Voice-activity detection *)

Section VAD.

Import Buffer VADDetector.

Lemma number_ge_not_lt a b : Number.ge a b = true -> Number.lt a b = false.
Proof.
  destruct a as [x|s|], b as [y|t|]; cbn; try congruence.
  - unfold Number.Qltb. intros ->. reflexivity.
  - intros ->. reflexivity.
  - destruct s; cbn; congruence.
  - destruct s, t; cbn; congruence.
Qed.


Lemma samples_ceiling n :
  0 <= n -> Qceiling (inject_Z n / 2)%Q = (n + 1) / 2.
Proof.
  intros H. unfold Qceiling, Qfloor, Qdiv, Qmult, Qinv, Qopp, inject_Z.
  simpl. Z.to_euclidean_division_equations. lia.
Qed.

(** The summing loop over reads that stay inside the chunk. *)
Lemma sum_loop chunk count : forall i sum,
  0 <= i -> (i + Z.of_nat count) * 2 <= len chunk ->
  for_from i count
    (fun i sum =>
       let* sample := readInt16LE chunk (i * 2) in Ok (sum + Z.abs sample))
    sum
  = Ok (sum + foldr Z.add 0
                ((fun i => Z.abs (peek16 chunk (i * 2)))
                   <$> seqZ i (Z.of_nat count))).
Proof.
  induction count as [|k IH]; intros i sum H0 Hlen.
  - simpl. f_equal. lia.
  - cbn [for_from]. rewrite seqZ_cons by lia.
    destruct (peek16_in_range chunk (i * 2)) as [-> _]; [lia | lia |].
    cbn [bind]. rewrite IH by lia.
    replace (Z.pred (Z.of_nat (Datatypes.S k))) with (Z.of_nat k) by lia.
    cbn [fmap list_fmap foldr]. f_equal.
    change (Z.succ i) with (i + 1). lia.
Qed.

(** On a chunk of whole samples the classification is the comparison of
    the mean amplitude with the threshold. *)
Lemma detectSilence_even this chunk :
  len chunk mod 2 = 0 ->
  detectSilence this chunk
  = Ok (Number.lt (avgAmplitude chunk) (silenceThreshold this)).
Proof.
  intros Heven. pose proof (len_nonneg chunk) as Hlen.
  unfold detectSilence, for_lt. rewrite samples_ceiling by lia.
  assert ((len chunk + 1) / 2 = len chunk / 2) as ->
      by (Z.to_euclidean_division_equations; lia).
  rewrite sum_loop
    by (try lia; Z.to_euclidean_division_equations; lia).
  cbn [bind]. rewrite Z2Nat.id
    by (Z.to_euclidean_division_equations; lia).
  reflexivity.
Qed.

(** A loop whose last iteration throws, throws. *)
Lemma for_from_throws {S : Type} (body : Z -> S -> result S) count :
  forall i s,
    (forall j s, i <= j < i + Z.of_nat count -> exists s', body j s = Ok s') ->
    (forall s, exists e, body (i + Z.of_nat count) s = Throw e) ->
    exists e, for_from i (Datatypes.S count) body s = Throw e.
Proof.
  induction count as [|k IH]; intros i s Hok Hthrow.
  - destruct (Hthrow s) as [e He]. exists e. cbn [for_from].
    replace (i + Z.of_nat 0) with i in He by lia. rewrite He. reflexivity.
  - destruct (Hok i s ltac:(lia)) as [s' Hs'].
    destruct (IH (i + 1) s') as [e He].
    + intros j s0 Hj. apply Hok. lia.
    + intros s0. replace (i + 1 + Z.of_nat k)
        with (i + Z.of_nat (Datatypes.S k)) by lia. apply Hthrow.
    + exists e. change (for_from i (Datatypes.S (Datatypes.S k)) body s)
        with (let* s' := body i s in
              for_from (i + 1) (Datatypes.S k) body s').
      rewrite Hs'. exact He.
Qed.

(** On a chunk that ends in half a sample the last read passes the end
    of the chunk. *)
Lemma detectSilence_odd this chunk :
  len chunk mod 2 <> 0 -> exists e, detectSilence this chunk = Throw e.
Proof.
  intros Hodd. pose proof (len_nonneg chunk) as Hlen.
  unfold detectSilence, for_lt. rewrite samples_ceiling by lia.
  assert ((len chunk + 1) / 2 = len chunk / 2 + 1) as ->
      by (Z.to_euclidean_division_equations; lia).
  assert (0 <= len chunk / 2) as Hn by (apply Z.div_pos; lia).
  replace (Z.to_nat (len chunk / 2 + 1))
    with (Datatypes.S (Z.to_nat (len chunk / 2))) by lia.
  destruct (for_from_throws
              (fun i sum =>
                 let* sample := readInt16LE chunk (i * 2) in
                 Ok (sum + Z.abs sample))
              (Z.to_nat (len chunk / 2)) 0 0) as [e He].
  - intros j s Hj.
    destruct (peek16_in_range chunk (j * 2)) as [-> _];
      [lia | Z.to_euclidean_division_equations; lia |].
    eexists. reflexivity.
  - intros s.
    destruct (readInt16LE_out_of_range chunk
                ((0 + Z.of_nat (Z.to_nat (len chunk / 2))) * 2))
      as [e He]; [Z.to_euclidean_division_equations; lia |].
    exists e. rewrite He. reflexivity.
  - exists e. rewrite He. reflexivity.
Qed.

Lemma detectSilence_config this this' chunk :
  silenceThreshold this = silenceThreshold this' ->
  detectSilence this chunk = detectSilence this' chunk.
Proof. intros H. unfold detectSilence. rewrite H. reflexivity. Qed.


(** The step on a silent chunk. *)
Lemma _transform_silent this chunk :
  detectSilence this chunk = Ok true ->
  _transform this chunk
  = let this1 :=
      set_consecutiveSilence this (consecutiveSilence this + 1) in
    if reaches this (consecutiveSilence this + 1) chunk && isSpeaking this
    then Ok (set_isSpeaking this1 false, [speech_end], [chunk])
    else Ok (this1, [], [chunk]).
Proof. intros H. unfold _transform. rewrite H. reflexivity. Qed.

(** The step on a chunk that is not silent. *)
Lemma _transform_not_silent this chunk :
  detectSilence this chunk = Ok false ->
  _transform this chunk
  = Ok (set_consecutiveSilence (set_isSpeaking this true) 0,
        if isSpeaking this then [] else [speech_start],
        [chunk]).
Proof.
  intros H. unfold _transform. rewrite H. cbn [bind].
  destruct this as [thr dur sr n []]; reflexivity.
Qed.

Lemma run_cons this chunk rest this1 events pushed :
  _transform this chunk = Ok (this1, events, pushed) ->
  run this (chunk :: rest)
  = let* r := run this1 rest in
    let '(this2, trace, forwarded) := r in
    Ok (this2, events :: trace, pushed ++ forwarded).
Proof. intros H. cbn [run]. rewrite H. reflexivity. Qed.

(** Every chunk of whole samples is taken: the step returns, keeps the
    configuration, emits events that fit the state and pushes the
    chunk. *)
Lemma _transform_total this chunk :
  len chunk mod 2 = 0 ->
  exists this1 events,
    _transform this chunk = Ok (this1, events, [chunk])
    /\ same_config this this1
    /\ alternate (isSpeaking this) events
    /\ isSpeaking this1 = speaking_after (isSpeaking this) events.
Proof.
  intros Heven. pose proof (detectSilence_even this chunk Heven) as Hd.
  destruct (Number.lt (avgAmplitude chunk) (silenceThreshold this)).
  - rewrite (_transform_silent this chunk Hd). cbv zeta.
    destruct (reaches this (consecutiveSilence this + 1) chunk),
      (isSpeaking this) eqn:Es;
      cbn [andb]; eexists _, _; (split; [reflexivity|]);
      cbn; rewrite ?Es; repeat split.
  - rewrite (_transform_not_silent this chunk Hd).
    destruct (isSpeaking this) eqn:Es; eexists _, _;
      (split; [reflexivity|]); cbn; rewrite ?Es; repeat split.
Qed.

Lemma alternate_app b e1 e2 :
  alternate b e1 -> alternate (speaking_after b e1) e2 ->
  alternate b (e1 ++ e2).
Proof.
  revert b. induction e1 as [|[] e1 IH]; intros b H1 H2.
  - exact H2.
  - destruct H1 as [-> H1]. split; [reflexivity|]. apply IH; assumption.
  - destruct H1 as [-> H1]. split; [reflexivity|]. apply IH; assumption.
Qed.

Lemma speaking_after_app b e1 e2 :
  speaking_after b (e1 ++ e2) = speaking_after (speaking_after b e1) e2.
Proof. apply foldl_app. Qed.

(** A sequence of chunks of whole samples goes through: every chunk is
    pushed, unchanged and in order, and the events alternate. *)
Lemma run_total chunks : forall this,
  Forall (fun c => len c mod 2 = 0) chunks ->
  exists this' trace,
    run this chunks = Ok (this', trace, chunks)
    /\ same_config this this'
    /\ length trace = length chunks
    /\ alternate (isSpeaking this) (mjoin trace)
    /\ isSpeaking this' = speaking_after (isSpeaking this) (mjoin trace).
Proof.
  induction chunks as [|c rest IH]; intros this Hall.
  - exists this, []. repeat split.
  - apply Forall_cons in Hall as [Hc Hrest].
    destruct (_transform_total this c Hc)
      as (this1 & events & Ht & Hcfg & Halt & Hsp).
    destruct (IH this1 Hrest)
      as (this' & trace & Hrun & Hcfg' & Hlen & Halt' & Hsp').
    exists this', (events :: trace).
    rewrite (run_cons _ _ _ _ _ _ Ht), Hrun. cbn [bind].
    split; [reflexivity|]. split; [|split; [|split]].
    + destruct Hcfg as (? & ? & ?), Hcfg' as (? & ? & ?).
      repeat split; congruence.
    + simpl. congruence.
    + change (mjoin (events :: trace)) with (events ++ mjoin trace).
      apply alternate_app; [assumption|]. rewrite <- Hsp. assumption.
    + change (mjoin (events :: trace)) with (events ++ mjoin trace).
      rewrite speaking_after_app, <- Hsp. assumption.
Qed.

Lemma reaches_config a b count chunk :
  same_config a b -> reaches a count chunk = reaches b count chunk.
Proof. intros (_ & Hd & Hs). unfold reaches. rewrite Hd, Hs. reflexivity. Qed.

Lemma reaches_at_cons this this1 count c rest k :
  same_config this this1 ->
  reaches_at this count (c :: rest) (Datatypes.S k)
  <-> reaches_at this1 (count + 1) rest k.
Proof.
  intros Hcfg. unfold reaches_at.
  replace (count + Z.of_nat (Datatypes.S k) + 1)
    with (count + 1 + Z.of_nat k + 1) by lia.
  split; intros (chunk & Hk & Hr); exists chunk; (split; [exact Hk|]).
  - rewrite <- (reaches_config this this1) by assumption. exact Hr.
  - rewrite (reaches_config this this1) by assumption. exact Hr.
Qed.

Lemma reaches_at_0 this count c rest :
  reaches_at this count (c :: rest) 0 <-> reaches this (count + 1) c = true.
Proof.
  unfold reaches_at. replace (count + Z.of_nat 0 + 1) with (count + 1) by lia.
  split.
  - intros (chunk & [= <-] & Hr). exact Hr.
  - intros Hr. exists c. split; [reflexivity | exact Hr].
Qed.

(** A run of silent chunks: the counter counts them, and the only event
    is one [speech_end], at the first chunk where the estimate reaches
    the threshold, when the detector was speaking. *)
Lemma run_silent chunks : forall this,
  Forall (fun c => detectSilence this c = Ok true) chunks ->
  exists this' trace,
    run this chunks = Ok (this', trace, chunks)
    /\ same_config this this'
    /\ consecutiveSilence this'
       = consecutiveSilence this + Z.of_nat (length chunks)
    /\ (forall k,
          trace !! k = Some [speech_end]
          <-> (isSpeaking this = true
               /\ reaches_at this (consecutiveSilence this) chunks k
               /\ forall j, (j < k)%nat ->
                    ~ reaches_at this (consecutiveSilence this) chunks j))
    /\ (forall k events,
          trace !! k = Some events -> events = [] \/ events = [speech_end])
    /\ (isSpeaking this = false ->
          trace = replicate (length chunks) [] /\ isSpeaking this' = false).
Proof.
  induction chunks as [|c rest IH]; intros this Hall.
  - exists this, []. split; [reflexivity|]. split; [repeat split|].
    split; [simpl; lia|]. split; [|split].
    + intros k. split; [discriminate|].
      intros (_ & (chunk & Hk & _) & _). discriminate.
    + intros k events. discriminate.
    + intros H. split; [reflexivity | exact H].
  - apply Forall_cons in Hall as [Hc Hrest].
    pose proof (_transform_silent this c Hc) as Ht. cbv zeta in Ht.
    set (this1 := set_consecutiveSilence this (consecutiveSilence this + 1))
      in *.
    assert (same_config this this1) as Hcfg1 by (repeat split).
    destruct (reaches this (consecutiveSilence this + 1) c
              && isSpeaking this) eqn:Egate.
    + (* the estimate is reached while speaking: speech_end *)
      apply andb_prop in Egate as [Hreach Hsp].
      set (this2 := set_isSpeaking this1 false) in *.
      assert (same_config this this2) as Hcfg2 by (repeat split).
      destruct (IH this2) as (this' & trace & Hrun & Hcfg' & Hcnt & Hiff
                              & Hev & Hsil).
      { eapply Forall_impl; [exact Hrest|]. intros x Hx.
        rewrite <- Hx. symmetry. apply detectSilence_config. reflexivity. }
      destruct (Hsil eq_refl) as [Htrace Hsp'].
      exists this', ([speech_end] :: trace).
      rewrite (run_cons _ _ _ _ _ _ Ht), Hrun. cbn [bind].
      split; [reflexivity|]. split; [|split; [|split; [|split]]].
      * destruct Hcfg2 as (? & ? & ?), Hcfg' as (? & ? & ?).
        repeat split; congruence.
      * rewrite Hcnt. cbn. lia.
      * intros [|k].
        -- split; [|reflexivity]. intros _. split; [exact Hsp|].
           split; [apply reaches_at_0; exact Hreach | intros j Hj; lia].
        -- cbn [lookup list_lookup]. split.
           ++ intros Hk. apply Hiff in Hk as (Hk & _). discriminate Hk.
           ++ intros (_ & _ & Hnone). exfalso.
              apply (Hnone 0%nat ltac:(lia)). apply reaches_at_0.
              exact Hreach.
      * intros [|k] events; cbn [lookup list_lookup].
        -- intros [= <-]. right. reflexivity.
        -- apply Hev.
      * intros Hf. congruence.
    + (* no event *)
      destruct (IH this1) as (this' & trace & Hrun & Hcfg' & Hcnt & Hiff
                              & Hev & Hsil).
      { eapply Forall_impl; [exact Hrest|]. intros x Hx.
        rewrite <- Hx. symmetry. apply detectSilence_config. reflexivity. }
      exists this', ([] :: trace).
      rewrite (run_cons _ _ _ _ _ _ Ht), Hrun. cbn [bind].
      split; [reflexivity|]. split; [|split; [|split; [|split]]].
      * destruct Hcfg1 as (? & ? & ?), Hcfg' as (? & ? & ?).
        repeat split; congruence.
      * rewrite Hcnt. cbn. lia.
      * intros [|k].
        -- split; [discriminate|]. intros (Hsp & Hr & _).
           apply reaches_at_0 in Hr. rewrite Hr, Hsp in Egate.
           discriminate.
        -- cbn [lookup list_lookup]. rewrite Hiff.
           change (consecutiveSilence this1)
             with (consecutiveSilence this + 1).
           change (isSpeaking this1) with (isSpeaking this).
           split.
           ++ intros (Hsp & Hr & Hnone). split; [exact Hsp|]. split.
              ** apply (reaches_at_cons this this1); assumption.
              ** intros [|j] Hj.
                 --- intros Hr0. apply reaches_at_0 in Hr0.
                     rewrite Hr0, Hsp in Egate. discriminate.
                 --- intros Hrj.
                     apply (reaches_at_cons this this1) in Hrj;
                       [|assumption].
                     apply (Hnone j ltac:(lia)). exact Hrj.
           ++ intros (Hsp & Hr & Hnone). split; [exact Hsp|]. split.
              ** apply (reaches_at_cons this this1) in Hr; assumption.
              ** intros j Hj Hrj. apply (Hnone (Datatypes.S j) ltac:(lia)).
                 apply (reaches_at_cons this this1); assumption.
      * intros [|k] events; cbn [lookup list_lookup].
        -- intros [= <-]. left. reflexivity.
        -- apply Hev.
      * intros Hf. destruct (Hsil Hf) as [-> Hsp']. split; [|exact Hsp'].
        reflexivity.
Qed.

(** Silent chunks on a detector that is not speaking, then a chunk that
    is not silent. *)
Lemma run_quiet_then_loud quiet : forall this chunk,
  isSpeaking this = false ->
  Forall (fun c => detectSilence this c = Ok true) quiet ->
  detectSilence this chunk = Ok false ->
  exists this',
    run this (quiet ++ [chunk])
    = Ok (this', replicate (length quiet) [] ++ [[speech_start]],
          quiet ++ [chunk])
    /\ isSpeaking this' = true /\ consecutiveSilence this' = 0.
Proof.
  induction quiet as [|c rest IH]; intros this chunk Hsp Hall Hloud.
  - pose proof (_transform_not_silent this chunk Hloud) as Ht.
    rewrite Hsp in Ht. eexists. cbn [app run replicate length].
    rewrite Ht. cbn [bind]. repeat split.
  - apply Forall_cons in Hall as [Hc Hrest].
    pose proof (_transform_silent this c Hc) as Ht. cbv zeta in Ht.
    rewrite Hsp, andb_false_r in Ht.
    destruct (IH (set_consecutiveSilence this (consecutiveSilence this + 1))
                chunk) as (this' & Hrun & Hsp' & Hcnt).
    + exact Hsp.
    + eapply Forall_impl; [exact Hrest|]. intros x Hx.
      rewrite <- Hx. symmetry. apply detectSilence_config. reflexivity.
    + rewrite <- Hloud. symmetry. apply detectSilence_config. reflexivity.
    + exists this'. cbn [app]. rewrite (run_cons _ _ _ _ _ _ Ht), Hrun.
      cbn [bind]. repeat split; assumption.
Qed.



End VAD.

(** ** The reader of the detector's stream *)

Section ReadableFacts.

Lemma data_from queue chunks :
  foldl Readable.push queue chunks
  = queue ++ List.filter (fun c => 0 <? Buffer.len c) chunks.
Proof.
  revert queue. induction chunks as [|c rest IH]; intros queue.
  - cbn. rewrite app_nil_r. reflexivity.
  - cbn [foldl List.filter]. rewrite IH. unfold Readable.push.
    destruct (0 <? Buffer.len c); [|reflexivity].
    rewrite <- app_assoc. reflexivity.
Qed.

(** The reader receives the chunks that have bytes. *)
Lemma data_filter chunks :
  Readable.data chunks = List.filter (fun c => 0 <? Buffer.len c) chunks.
Proof. unfold Readable.data. apply data_from. Qed.

Lemma data_non_empty chunks :
  Forall (fun c => c <> []) chunks -> Readable.data chunks = chunks.
Proof.
  intros Hall. rewrite data_filter.
  induction Hall as [|c rest Hc _ IH]; [reflexivity|].
  cbn [List.filter]. destruct c as [|b c']; [congruence|].
  cbn. rewrite IH. reflexivity.
Qed.

End ReadableFacts.

(** ** Concatenation *)

Section ConcatFacts.

Lemma concat_length (chunks : list (list byte)) :
  length (Buffer.concat chunks) = sum_list (length <$> chunks).
Proof.
  unfold Buffer.concat. induction chunks as [|c rest IH]; [reflexivity|].
  change (mjoin (c :: rest)) with (c ++ mjoin rest).
  rewrite length_app, IH. reflexivity.
Qed.

(** Byte [k] of a chunk is the byte of the concatenation at [k] past the
    lengths of the chunks before it. *)
Lemma concat_lookup (before : list (list byte)) chunk after k b :
  chunk !! k = Some b ->
  Buffer.concat (before ++ chunk :: after)
  !! (sum_list (length <$> before) + k)%nat = Some b.
Proof.
  intros Hk. unfold Buffer.concat.
  induction before as [|c rest IH].
  - change (mjoin ([] ++ chunk :: after)) with (chunk ++ mjoin after).
    change (sum_list (length <$> []) + k)%nat with k.
    rewrite lookup_app_l by (eapply lookup_lt_Some; exact Hk).
    exact Hk.
  - change (mjoin ((c :: rest) ++ chunk :: after))
      with (c ++ mjoin (rest ++ chunk :: after)).
    change (sum_list (length <$> c :: rest))
      with (length c + sum_list (length <$> rest))%nat.
    rewrite lookup_app_r by lia.
    replace (length c + sum_list (length <$> rest) + k - length c)%nat
      with (sum_list (length <$> rest) + k)%nat by lia.
    exact IH.
Qed.

End ConcatFacts.

(** ** The scenarios of the test suite *)

Example downsample_two_groups :
  OpusToPCMConverter.downsampleAndMono
    [x01; x00; x03; x00; x00; x00; x00; x00; x00; x00; x00; x00;
     xff; xff; xfe; xff; x00; x00; x00; x00; x00; x00; x00; x00]
  = Ok [x02; x00; xfe; xff].
Proof. vm_compute. reflexivity. Qed.

Example downsample_decoder_frame :
  OpusToPCMConverter.downsampleAndMono (silence 3840) = Ok (silence 640).
Proof. vm_compute. reflexivity. Qed.

Example upsample_two_samples :
  PCMToOpusConverter.resampleAndStereo (PCMToOpusConverter.new None)
    [x01; x00; x04; x00]
  = Ok [x01; x00; x01; x00; x02; x00; x02; x00; x03; x00; x03; x00;
        x04; x00; x04; x00; x04; x00; x04; x00; x04; x00; x04; x00].
Proof. vm_compute. reflexivity. Qed.

Example vad_speech_start_on_loud_audio :
  trace_of
    (VADDetector.run
       (VADDetector.new (Some (Number.of_Z 500)) (Some (Number.of_Z 1500))
          (Some (Number.of_Z 16000)))
       [tone 1600])
  = Some [[speech_start]].
Proof. vm_compute. reflexivity. Qed.

Example vad_speech_end_after_sustained_silence :
  trace_of
    (VADDetector.run
       (VADDetector.new (Some (Number.of_Z 500)) (Some (Number.of_Z 500))
          (Some (Number.of_Z 16000)))
       (tone 1600 :: replicate 6 (silence 3200)))
  = Some [[speech_start]; []; []; []; []; [speech_end]; []].
Proof. vm_compute. reflexivity. Qed.

Example vad_no_speech_end_during_brief_silence :
  trace_of
    (VADDetector.run (VADDetector.new None None None)
       [tone 1600; silence 3200; silence 3200; tone 1600])
  = Some [[speech_start]; []; []; []].
Proof. vm_compute. reflexivity. Qed.

Example vad_reset_then_silence :
  trace_of
    (let* r := VADDetector.run (VADDetector.new None None None) [tone 1600] in
     VADDetector.run (fst (VADDetector.reset r.1.1))
       (replicate 20 (silence 3200)))
  = Some (replicate 20 []).
Proof. vm_compute. reflexivity. Qed.

(** The operations round as doubles do.  At 8000 Hz the position of
    output frame 7 is 7/6 rounded, and the sample interpolated between 0
    and -3 comes out just below -1/2; 47 samples at 47000 Hz give 47
    frames, the product 47 * (48000 / 47000) being rounded below 48; the
    estimate of 201 silent chunks of 640 bytes at 16 kHz is just below
    4020 ms. *)
Example upsample_8000_frame_7 :
  (let* output :=
     PCMToOpusConverter.resampleAndStereo
       (PCMToOpusConverter.new (Some (Number.of_Z 8000)))
       [x00; x00; x00; x00; xfd; xff] in
   Buffer.readInt16LE output (7 * 4))
  = Ok (-1)
  /\ Math_round (0 + ((7 # 6) - 1) * (-3 - 0))%Q = 0.
Proof. split; vm_compute; reflexivity. Qed.

Example upsample_47000_frames :
  (let* output :=
     PCMToOpusConverter.resampleAndStereo
       (PCMToOpusConverter.new (Some (Number.of_Z 47000))) (silence 94) in
   Ok (Buffer.len output))
  = Ok (47 * 4)
  /\ Qfloor (47 * (48000 / 47000))%Q = 48.
Proof. split; vm_compute; reflexivity. Qed.

Example estimate_of_201_chunks :
  estimate_ms (Number.of_Z 16000) 201 (silence 640)
  = Fin (8840073487319039 # 2199023255552)
  /\ Number.ge (estimate_ms (Number.of_Z 16000) 201 (silence 640))
       (Number.of_Z 4020) = false
  /\ (inject_Z (201 * 640) / (16000 * 2) * 1000 == 4020)%Q.
Proof. repeat split; vm_compute; reflexivity. Qed.

(** * The claims *)

(** C1, first as the specification has it: a buffer whose length is not
    a multiple of the stride makes the operation fail.  A stereo buffer of
    14 bytes is downsampled to one sample without an error, its last two
    bytes ignored; at a ratio of one half, a mono buffer of 3 bytes is
    resampled to an empty buffer without an error. *)
Lemma ragged_buffers_accepted :
  Buffer.len [x01; x00; x03; x00; x00; x00; x00; x00; x00; x00; x00; x00;
              xff; xff] mod 4 <> 0
  /\ OpusToPCMConverter.downsampleAndMono
       [x01; x00; x03; x00; x00; x00; x00; x00; x00; x00; x00; x00;
        xff; xff] = Ok [x02; x00]
  /\ Buffer.len [x01; x00; x04] mod 2 <> 0
  /\ PCMToOpusConverter.resampleAndStereo
       (PCMToOpusConverter.new (Some (Number.of_Z 96000))) [x01; x00; x04]
     = Ok [].
Proof. repeat split; try discriminate; vm_compute; reflexivity. Qed.

(** C1, as the code has it.  No operation checks the length.
    [downsampleAndMono] returns on a stereo buffer whose length is not a
    multiple of 4: the mixes of the complete groups of 12 bytes, the rest
    ignored.  On a mono buffer of odd length [detectSilence], and with it
    the detector's [_transform], throws the range error of the read that
    passes the end of the buffer, and so does [resampleAndStereo] at the
    ratio 3 of a 16 kHz input (the buffer and the result it would have
    being of a length buffers can have). *)
Theorem ragged_length_behaviour (stereo mono : Buffer.t)
    (this : VADDetector.t) (converter : PCMToOpusConverter.t) (ratio : Q) :
  Buffer.len stereo mod 4 <> 0 ->
  Buffer.len mono mod 2 <> 0 ->
  PCMToOpusConverter.resampleRatio converter = Fin ratio ->
  (ratio == 3)%Q ->
  fits ratio mono ->
  (exists output,
     OpusToPCMConverter.downsampleAndMono stereo = Ok output
     /\ Buffer.len output = Buffer.len stereo / 12 * 2
     /\ OpusToPCMConverter.downsampleAndMono
          (take (Z.to_nat (Buffer.len stereo / 12 * 12)) stereo)
        = Ok output)
  /\ (exists e,
        VADDetector.detectSilence this mono = Throw e
        /\ VADDetector._transform this mono = Throw e)
  /\ (exists e,
        PCMToOpusConverter.resampleAndStereo converter mono = Throw e).
Proof.
  intros _ Hodd Hratio Hr Hfits. split; [|split].
  - pose proof (len_nonneg stereo) as Hlen.
    assert (0 <= Buffer.len stereo / 12) as Hn by (apply Z.div_pos; lia).
    eexists. split; [apply downsampleAndMono_eq|]. split.
    + unfold Buffer.len at 1.
      rewrite (length_mjoin_fixed encode16 2) by reflexivity.
      rewrite length_fmap, length_seqZ. lia.
    + rewrite downsampleAndMono_take. apply downsampleAndMono_eq.
  - destruct (detectSilence_odd this mono Hodd) as [e He].
    exists e. split; [exact He|].
    unfold VADDetector._transform. rewrite He. reflexivity.
  - apply (resampleAndStereo_odd converter ratio); assumption.
Qed.

Lemma ragged_length_behaviour_witness :
  (exists output,
     OpusToPCMConverter.downsampleAndMono
       [x01; x00; x03; x00; x00; x00; x00; x00; x00; x00; x00; x00;
        xff; xff] = Ok output
     /\ Buffer.len output = 14 / 12 * 2)
  /\ (exists e,
        VADDetector.detectSilence (VADDetector.new None None None)
          [x01; x00; x04] = Throw e)
  /\ (exists e,
        PCMToOpusConverter.resampleAndStereo
          (PCMToOpusConverter.new (Some (Number.of_Z 16000)))
          [x01; x00; x04] = Throw e).
Proof.
  destruct (ragged_length_behaviour
              [x01; x00; x03; x00; x00; x00; x00; x00; x00; x00; x00; x00;
               xff; xff]
              [x01; x00; x04]
              (VADDetector.new None None None)
              (PCMToOpusConverter.new (Some (Number.of_Z 16000))) 3)
    as ((output & H1 & H2 & _) & (e & H3 & _) & H4).
  - discriminate.
  - discriminate.
  - vm_compute. reflexivity.
  - reflexivity.
  - split; [vm_compute; discriminate | apply Qle_bool_iff; reflexivity].
  - split; [exists output; split; assumption|].
    split; [exists e; exact H3 | exact H4].
Defined.

(** C2. For a stereo buffer whose length is a multiple of 4,
    [downsampleAndMono] returns a buffer of exactly
    [floor((length / 4) / 3) * 2] bytes; output sample [i] is
    [floor((left + right) / 2)] of the stereo pair at source index [i * 3],
    both read as signed 16-bit little endian; the samples after the last
    complete group of three are dropped (the result is that of the buffer
    cut there); and an all-zero input gives an all-zero output of that
    length. *)
Theorem downsampleAndMono_spec (buffer : Buffer.t) :
  Buffer.len buffer mod 4 = 0 ->
  exists output,
    OpusToPCMConverter.downsampleAndMono buffer = Ok output
    /\ Buffer.len output = Buffer.len buffer / 4 / 3 * 2
    /\ (forall i, 0 <= i < Buffer.len buffer / 4 / 3 ->
          exists left right,
            Buffer.readInt16LE buffer (i * 3 * 4) = Ok left
            /\ Buffer.readInt16LE buffer (i * 3 * 4 + 2) = Ok right
            /\ Buffer.readInt16LE output (i * 2) = Ok ((left + right) / 2))
    /\ OpusToPCMConverter.downsampleAndMono
         (take (Z.to_nat (Buffer.len buffer / 4 / 3 * 3 * 4)) buffer)
       = Ok output
    /\ (Forall (fun b => b = x00) buffer -> Forall (fun b => b = x00) output).
Proof.
  intros _.
  pose proof (len_nonneg buffer) as Hlen.
  rewrite Z.div_div by lia. change (4 * 3) with 12.
  assert (0 <= Buffer.len buffer / 12) as Hn by (apply Z.div_pos; lia).
  pose proof (Z.mul_div_le (Buffer.len buffer) 12 ltac:(lia)) as Hle.
  eexists. split; [apply downsampleAndMono_eq|]. split; [|split; [|split]].
  - unfold Buffer.len at 1.
    rewrite (length_mjoin_fixed encode16 2) by reflexivity.
    rewrite length_fmap, length_seqZ. lia.
  - intros i Hi.
    destruct (peek16_in_range buffer (i * 3 * 4)) as [Hl _]; [lia | lia |].
    destruct (peek16_in_range buffer (i * 3 * 4 + 2)) as [Hr _];
      [lia | lia |].
    eexists _, _. split; [exact Hl|]. split; [exact Hr|].
    rewrite <- mono_div. fold (mono_at buffer i).
    replace (i * 2) with (Z.of_nat (Z.to_nat i) * 2) by lia.
    apply readInt16LE_encoded; [|apply mono_at_int16; lia].
    rewrite list_lookup_fmap, lookup_seqZ_lt by lia.
    replace (0 + Z.of_nat (Z.to_nat i)) with i by lia. reflexivity.
  - replace (Buffer.len buffer / 12 * 3 * 4)
      with (Buffer.len buffer / 12 * 12) by lia.
    rewrite downsampleAndMono_take. apply downsampleAndMono_eq.
  - intros Hz.
    assert (buffer = replicate (length buffer) x00) as E.
    { clear -Hz. induction Hz as [|b l -> _ IH]; [reflexivity|].
      simpl. f_equal. exact IH. }
    pose proof (downsampleAndMono_zeros (length buffer)) as Hzeros.
    rewrite <- E, downsampleAndMono_eq in Hzeros.
    injection Hzeros as ->. apply Forall_replicate. reflexivity.
Qed.

Lemma downsampleAndMono_spec_witness :
  exists output,
    OpusToPCMConverter.downsampleAndMono
      [x01; x00; x03; x00; x00; x00; x00; x00; x00; x00; x00; x00;
       xff; xff; xfe; xff; x09; x00; x09; x00; x00; x00; x00; x00;
       x07; x00; x07; x00] = Ok output
    /\ Buffer.len output = 28 / 4 / 3 * 2.
Proof.
  destruct (downsampleAndMono_spec
              [x01; x00; x03; x00; x00; x00; x00; x00; x00; x00; x00; x00;
               xff; xff; xfe; xff; x09; x00; x09; x00; x00; x00; x00; x00;
               x07; x00; x07; x00] eq_refl) as (output & H1 & H2 & _).
  exists output. split; [exact H1 | exact H2].
Defined.






(** C5, first as the specification has it: [speech_start] at the first
    chunk whose mean amplitude is greater than or equal to the threshold.
    A chunk of no bytes has the mean 0/0, which is not greater than or
    equal to anything, and starts the speech; the chunk of speech after it
    emits nothing. *)
Lemma speech_start_at_empty_chunk :
  VADDetector.run (VADDetector.new None None None) [[]; [x10; x27]]
  = Ok (VADDetector.mk (Number.of_Z 500) (Number.of_Z 1500)
          (Number.of_Z 16000) 0 true,
        [[speech_start]; []],
        [[]; [x10; x27]])
  /\ Number.ge (avgAmplitude []) (Number.of_Z 500) = false
  /\ Number.ge (avgAmplitude [x10; x27]) (Number.of_Z 500) = true.
Proof. repeat split; vm_compute; reflexivity. Qed.

(** C5, as the detector has it.  On a detector that is not speaking (fresh
    or just reset), silent chunks emit nothing and the first chunk that is
    not classified silent emits [speech_start], once, and leaves the
    counter at 0.  A chunk of whole samples is not silent exactly when its
    mean amplitude is not below the threshold, which holds when it is
    greater than or equal to it.  On a detector that is speaking, a chunk
    that is not silent emits nothing and sets the counter to 0. *)
Theorem speech_start_at_first_non_silent (this : VADDetector.t)
    (quiet : list Buffer.t) (chunk : Buffer.t) :
  VADDetector.isSpeaking this = false ->
  Forall (fun c => VADDetector.detectSilence this c = Ok true) quiet ->
  VADDetector.detectSilence this chunk = Ok false ->
  (exists this',
     VADDetector.run this (quiet ++ [chunk])
     = Ok (this', replicate (length quiet) [] ++ [[speech_start]],
           quiet ++ [chunk])
     /\ VADDetector.isSpeaking this' = true
     /\ VADDetector.consecutiveSilence this' = 0)
  /\ (forall c,
        Buffer.len c mod 2 = 0 ->
        (VADDetector.detectSilence this c = Ok false
         <-> Number.lt (avgAmplitude c) (VADDetector.silenceThreshold this)
             = false)
        /\ (Number.ge (avgAmplitude c) (VADDetector.silenceThreshold this)
            = true ->
            VADDetector.detectSilence this c = Ok false))
  /\ (forall speaking c,
        VADDetector.isSpeaking speaking = true ->
        VADDetector.detectSilence speaking c = Ok false ->
        VADDetector._transform speaking c
        = Ok (VADDetector.set_consecutiveSilence speaking 0, [], [c])).
Proof.
  intros Hsp Hquiet Hloud. split; [|split].
  - apply run_quiet_then_loud; assumption.
  - intros c Heven. rewrite (detectSilence_even this c Heven). split.
    + split; [intros [= ->]; reflexivity | intros ->; reflexivity].
    + intros Hge. rewrite (number_ge_not_lt _ _ Hge). reflexivity.
  - intros speaking c Hs Hc.
    rewrite (_transform_not_silent speaking c Hc), Hs.
    destruct speaking as [thr dur sr n sp]. cbn in Hs. subst sp. reflexivity.
Qed.

Lemma speech_start_at_first_non_silent_witness :
  exists this',
    VADDetector.run (VADDetector.new None None None)
      ([replicate 4 x00; replicate 2 x00] ++ [[x10; x27]])
    = Ok (this', replicate 2 [] ++ [[speech_start]],
          [replicate 4 x00; replicate 2 x00] ++ [[x10; x27]])
    /\ VADDetector.isSpeaking this' = true
    /\ VADDetector.consecutiveSilence this' = 0.
Proof.
  apply (speech_start_at_first_non_silent (VADDetector.new None None None)
           [replicate 4 x00; replicate 2 x00] [x10; x27]).
  - reflexivity.
  - repeat constructor.
  - reflexivity.
Defined.

(** C6, first as the specification has it: every input chunk is forwarded
    downstream.  Of four chunks written, the third of no bytes, the reader
    of the stream receives three: the empty chunk is handed to [push], and
    a stream in byte mode does not queue it.  A chunk of three bytes is
    not forwarded at all: [detectSilence] throws before the push. *)
Lemma vad_reader_misses_chunks :
  (exists this' trace,
     VADDetector.run (VADDetector.new None None None)
       [[x10; x27]; replicate 4 x00; []; [xf0; xd8; x10; x27]]
     = Ok (this', trace,
           [[x10; x27]; replicate 4 x00; []; [xf0; xd8; x10; x27]]))
  /\ Readable.data [[x10; x27]; replicate 4 x00; []; [xf0; xd8; x10; x27]]
     = [[x10; x27]; replicate 4 x00; [xf0; xd8; x10; x27]]
  /\ VADDetector._transform (VADDetector.new None None None) [x01; x00; x04]
     = Throw ERR_OUT_OF_RANGE.
Proof.
  split; [|split]; [eexists _, _|..]; vm_compute; reflexivity.
Qed.

(** C6, as the detector has it.  Every chunk of whole samples written to
    the detector is handed to [push] unchanged, whatever its
    classification and the events emitted, and over a sequence of writes
    the chunks pushed are the chunks written, in order.  The reader of the
    stream receives the chunks that have bytes, unchanged and in order:
    all of them when none is empty.  A chunk of odd length is not pushed:
    the step throws, and so does the sequence of writes it is in. *)
Theorem vad_forwards_chunks_with_samples (this : VADDetector.t)
    (chunks : list Buffer.t) :
  Forall (fun c => Buffer.len c mod 2 = 0) chunks ->
  (exists this' trace,
     VADDetector.run this chunks = Ok (this', trace, chunks)
     /\ length trace = length chunks)
  /\ Readable.data chunks
     = List.filter (fun c => 0 <? Buffer.len c) chunks
  /\ (Forall (fun c => c <> []) chunks -> Readable.data chunks = chunks)
  /\ (forall detector chunk,
        chunk ∈ chunks ->
        exists detector' events,
          VADDetector._transform detector chunk
          = Ok (detector', events, [chunk]))
  /\ (forall ragged after,
        Buffer.len ragged mod 2 <> 0 ->
        (forall detector,
            exists e, VADDetector._transform detector ragged = Throw e)
        /\ exists e,
             VADDetector.run this (chunks ++ ragged :: after) = Throw e).
Proof.
  intros Hall.
  destruct (run_total chunks this Hall)
    as (this' & trace & Hrun & _ & Hlen & _).
  split; [exists this', trace; split; assumption|].
  split; [apply data_filter|]. split; [apply data_non_empty|]. split.
  - intros detector chunk Hin. rewrite Forall_forall in Hall.
    destruct (_transform_total detector chunk (Hall chunk Hin))
      as (d & events & Ht & _).
    exists d, events. exact Ht.
  - intros ragged after Hodd.
    assert (forall detector,
               exists e, VADDetector._transform detector ragged = Throw e)
      as Hthrow.
    { intros detector.
      destruct (detectSilence_odd detector ragged Hodd) as [e He].
      exists e. unfold VADDetector._transform. rewrite He. reflexivity. }
    split; [exact Hthrow|].
    destruct (Hthrow this') as [e He]. exists e.
    assert (forall l d d' tr pushed,
               VADDetector.run d l = Ok (d', tr, pushed) ->
               VADDetector._transform d' ragged = Throw e ->
               VADDetector.run d (l ++ ragged :: after) = Throw e) as Happ.
    { induction l as [|c l IH]; intros d d' tr pushed Hr Ht.
      - injection Hr as <- _ _. cbn [app VADDetector.run]. rewrite Ht.
        reflexivity.
      - cbn [app VADDetector.run] in *.
        destruct (VADDetector._transform d c) as [[[dc events] pc]|];
          [|discriminate].
        cbn [bind] in *.
        destruct (VADDetector.run dc l) as [[[dl trl] pl]|] eqn:El;
          [|discriminate].
        cbn [bind] in Hr. injection Hr as <- _ _.
        rewrite (IH dc dl trl pl El Ht). reflexivity. }
    apply (Happ chunks this this' trace chunks Hrun He).
Qed.

Lemma vad_forwards_chunks_with_samples_witness :
  Readable.data [[x10; x27]; replicate 4 x00; []; [xf0; xd8; x10; x27]]
  = List.filter (fun c => 0 <? Buffer.len c)
      [[x10; x27]; replicate 4 x00; []; [xf0; xd8; x10; x27]].
Proof.
  destruct (vad_forwards_chunks_with_samples
              (VADDetector.new None None None)
              [[x10; x27]; replicate 4 x00; []; [xf0; xd8; x10; x27]])
    as (_ & H & _).
  - repeat constructor.
  - exact H.
Defined.

(** C7. [reset] sets [isSpeaking] to false and [consecutiveSilence] to 0,
    emits nothing and keeps the configuration.  After it, silent chunks,
    however many, emit no event; and whatever is written, the events
    alternate from [speech_start]: no [speech_end] comes before a new
    [speech_start]. *)
Theorem reset_spec (this : VADDetector.t) (chunks : list Buffer.t) :
  Forall (fun c => VADDetector.detectSilence this c = Ok true) chunks ->
  VADDetector.reset this
  = (VADDetector.mk (VADDetector.silenceThreshold this)
       (VADDetector.silenceDurationMs this) (VADDetector.sampleRate this)
       0 false, [])
  /\ (exists this',
        VADDetector.run (fst (VADDetector.reset this)) chunks
        = Ok (this', replicate (length chunks) [], chunks)
        /\ VADDetector.isSpeaking this' = false)
  /\ (forall written,
        Forall (fun c => Buffer.len c mod 2 = 0) written ->
        exists this' trace,
          VADDetector.run (fst (VADDetector.reset this)) written
          = Ok (this', trace, written)
          /\ alternate false (mjoin trace)).
Proof.
  intros Hall. split; [reflexivity|]. split.
  - destruct (run_silent chunks (fst (VADDetector.reset this)))
      as (this' & trace & Hrun & _ & _ & _ & _ & Hsil).
    + eapply Forall_impl; [exact Hall|]. intros c Hc. rewrite <- Hc.
      apply detectSilence_config. reflexivity.
    + destruct (Hsil eq_refl) as [-> Hsp]. exists this'. split; assumption.
  - intros written Hw.
    destruct (run_total written (fst (VADDetector.reset this)) Hw)
      as (this' & trace & Hrun & _ & _ & Halt & _).
    exists this', trace. split; assumption.
Qed.

Lemma reset_spec_witness :
  exists this',
    VADDetector.run
      (fst (VADDetector.reset
              (VADDetector.mk (Number.of_Z 500) (Number.of_Z 1)
                 (Number.of_Z 16000) 7 true)))
      [replicate 320 x00; replicate 320 x00]
    = Ok (this', replicate 2 [], [replicate 320 x00; replicate 320 x00])
    /\ VADDetector.isSpeaking this' = false.
Proof.
  destruct (reset_spec
              (VADDetector.mk (Number.of_Z 500) (Number.of_Z 1)
                 (Number.of_Z 16000) 7 true)
              [replicate 320 x00; replicate 320 x00]) as (_ & H & _).
  - repeat constructor.
  - exact H.
Defined.




(** C9. The mix [floor((left + right) / 2)] of two signed 16-bit samples
    is a signed 16-bit sample, so writing it unclamped does not throw
    wherever two bytes are available; [downsampleAndMono] returns on every
    buffer. *)
Theorem mono_in_int16_range (left right : Z) :
  -32768 <= left <= 32767 ->
  -32768 <= right <= 32767 ->
  OpusToPCMConverter.mono left right = (left + right) / 2
  /\ -32768 <= OpusToPCMConverter.mono left right <= 32767
  /\ (forall output offset,
        0 <= offset -> offset + 2 <= Buffer.len output ->
        exists output',
          Buffer.writeInt16LE output (OpusToPCMConverter.mono left right)
            offset = Ok output')
  /\ (forall buffer,
        exists output, OpusToPCMConverter.downsampleAndMono buffer = Ok output).
Proof.
  intros Hl Hr. split; [apply mono_div|].
  split; [apply mono_int16; assumption|].
  split.
  - intros output offset H0 H2.
    destruct (split_at output offset H0 H2) as (pre & a & b & post & -> & <-).
    eexists. apply writeInt16LE_here. apply mono_int16; assumption.
  - intros buffer. eexists. apply downsampleAndMono_eq.
Qed.

Lemma mono_in_int16_range_witness :
  OpusToPCMConverter.mono (-32768) (-32768) = (-32768 + -32768) / 2
  /\ -32768 <= OpusToPCMConverter.mono (-32768) (-32768) <= 32767.
Proof.
  destruct (mono_in_int16_range (-32768) (-32768)) as (H1 & H2 & _);
    [lia | lia |].
  split; [exact H1 | exact H2].
Defined.

(** C10. A chunk of no bytes has the mean amplitude 0/0 = NaN; NaN is
    below no threshold, so the chunk is not silent: on a detector that is
    not speaking it emits [speech_start] and leaves the counter at 0, and
    it is pushed like every chunk. *)
Theorem empty_chunk_is_speech (this : VADDetector.t) :
  VADDetector.isSpeaking this = false ->
  avgAmplitude [] = NaN
  /\ Number.lt NaN (VADDetector.silenceThreshold this) = false
  /\ VADDetector.detectSilence this [] = Ok false
  /\ VADDetector._transform this []
     = Ok (VADDetector.mk (VADDetector.silenceThreshold this)
             (VADDetector.silenceDurationMs this)
             (VADDetector.sampleRate this) 0 true,
           [speech_start], [[]]).
Proof.
  intros Hsp. split; [reflexivity|]. split; [reflexivity|].
  split; [reflexivity|].
  rewrite (_transform_not_silent this [] eq_refl), Hsp. reflexivity.
Qed.

Lemma empty_chunk_is_speech_witness :
  VADDetector._transform
    (VADDetector.mk (Number.of_Z 500) (Number.of_Z 1500) (Number.of_Z 16000)
       9 false) []
  = Ok (VADDetector.mk (Number.of_Z 500) (Number.of_Z 1500)
          (Number.of_Z 16000) 0 true,
        [speech_start], [[]]).
Proof.
  apply (empty_chunk_is_speech
           (VADDetector.mk (Number.of_Z 500) (Number.of_Z 1500)
              (Number.of_Z 16000) 9 false) eq_refl).
Defined.

(** * Further properties of the converters *)

Section SampleRoundTrip.

Import Buffer.

Lemma byte_of_val z b : z mod 256 = byte_val b -> byte_of z = b.
Proof.
  intros H. unfold byte_of. rewrite H. unfold byte_val.
  rewrite N2Z.id, Byte.of_to_N. reflexivity.
Qed.

(** The two bytes of a sample read back as themselves. *)
Lemma encode16_decode16 a b : encode16 (decode16 a b) = [a; b].
Proof.
  pose proof (byte_val_range a) as Ha. pose proof (byte_val_range b) as Hb.
  unfold encode16, decode16. cbv zeta.
  change (2 ^ 8) with 256. change (2 ^ 15) with 32768.
  change (2 ^ 16) with 65536.
  destruct (Z.ltb_spec (byte_val a + byte_val b * 256) 32768).
  - f_equal; [|f_equal]; apply byte_of_val;
      rewrite ?Z.shiftr_div_pow2 by lia; change (2 ^ 8) with 256;
      Z.to_euclidean_division_equations; lia.
  - f_equal; [|f_equal]; apply byte_of_val;
      rewrite ?Z.shiftr_div_pow2 by lia; change (2 ^ 8) with 256;
      Z.to_euclidean_division_equations; lia.
Qed.

Lemma peek16_cons2 a b buf off :
  0 <= off -> peek16 (a :: b :: buf) (off + 2) = peek16 buf off.
Proof.
  intros H0. unfold peek16, readInt16LE, get.
  destruct (Z.ltb_spec (off + 2) 0); [lia|].
  destruct (Z.ltb_spec (off + 2 + 1) 0); [lia|].
  destruct (Z.ltb_spec off 0); [lia|].
  destruct (Z.ltb_spec (off + 1) 0); [lia|].
  replace (Z.to_nat (off + 2))
    with (Datatypes.S (Datatypes.S (Z.to_nat off))) by lia.
  replace (Z.to_nat (off + 2 + 1))
    with (Datatypes.S (Datatypes.S (Z.to_nat (off + 1)))) by lia.
  cbn [lookup list_lookup].
  destruct (buf !! Z.to_nat off); [destruct (buf !! Z.to_nat (off + 1))|];
    try reflexivity; unfold boundsError;
    destruct (len (a :: b :: buf) - 2 <? 0), (len buf - 2 <? 0); reflexivity.
Qed.

(** A buffer of whole samples is the encoding of its samples. *)
Lemma encode_samples buf :
  len buf mod 2 = 0 ->
  mjoin (encode16 <$> ((fun i => peek16 buf (i * 2)) <$> seqZ 0 (len buf / 2)))
  = buf.
Proof.
  remember (length buf) as n eqn:Hn. revert buf Hn.
  induction n as [n IH] using lt_wf_ind. intros buf Hn Heven.
  destruct buf as [|a [|b rest]].
  - reflexivity.
  - discriminate Heven.
  - assert (len (a :: b :: rest) / 2 = len rest / 2 + 1) as ->.
    { unfold len. cbn [length]. Z.to_euclidean_division_equations. lia. }
    assert (0 <= len rest / 2) as Hr
        by (apply Z.div_pos; unfold len; lia).
    rewrite seqZ_cons by lia.
    replace (Z.pred (len rest / 2 + 1)) with (len rest / 2) by lia.
    rewrite !fmap_cons.
    change (mjoin (?x :: ?l)) with (x ++ mjoin l).
    assert (peek16 (a :: b :: rest) (0 * 2) = decode16 a b) as ->.
    { pose proof (readInt16LE_here [] a b rest) as Hread.
      unfold peek16. change (len []) with (0 * 2) in Hread.
      cbn [app] in Hread. rewrite Hread. reflexivity. }
    rewrite encode16_decode16. cbn [app]. do 2 f_equal.
    transitivity
      (mjoin (encode16 <$> ((fun i => peek16 rest (i * 2))
                              <$> seqZ 0 (len rest / 2)))).
    + do 2 f_equal. change (Z.succ 0) with (1 + 0).
      rewrite <- (fmap_add_seqZ 1 0), <- list_fmap_compose.
      apply list_fmap_ext.
      intros i j Hj. apply lookup_seqZ in Hj as [-> _]. cbn.
      replace ((1 + (0 + Z.of_nat i)) * 2) with ((0 + Z.of_nat i) * 2 + 2)
        by lia.
      apply peek16_cons2. lia.
    + apply (IH (length rest)).
      * subst n. cbn [length]. lia.
      * reflexivity.
      * unfold len in *. cbn [length] in Heven.
        Z.to_euclidean_division_equations. lia.
Qed.

End SampleRoundTrip.

Section UpsampleFacts.

Import Buffer PCMToOpusConverter Double.

Lemma Math_round_between (a b : Z) (x : Q) :
  (inject_Z a <= x)%Q -> (x <= inject_Z b)%Q -> a <= Math_round x <= b.
Proof.
  intros Ha Hb. unfold Math_round. split.
  - rewrite <- (Qfloor_Z a). apply Qfloor_resp_le. lra.
  - assert (Qfloor (inject_Z b + (1 # 2))%Q = b) as <-.
    { unfold Qfloor, Qplus, inject_Z. simpl.
      Z.to_euclidean_division_equations. lia. }
    apply Qfloor_resp_le. lra.
Qed.

(** The fraction of a position is a double between 0 and 1. *)
Lemma frac_range (x : Q) :
  (0 <= rnd (x - inject_Z (Qfloor x)) <= 1)%Q.
Proof.
  pose proof (Qfloor_le x) as Hle. pose proof (Qlt_floor x) as Hlt.
  rewrite inject_Z_plus in Hlt. change (inject_Z 1) with 1%Q in Hlt.
  change 0%Q with (inject_Z 0). change 1%Q with (inject_Z 1).
  apply rnd_between; [lia | lia | |].
  - change (inject_Z 0) with 0%Q. lra.
  - change (inject_Z 1) with 1%Q. lra.
Qed.

(** A value interpolated with a fraction in [0, 1] rounds to a value
    between the two samples, the product and the sum being rounded to
    doubles. *)
Lemma interpolated_between (s1 s2 : Z) (f : Q) :
  int16 s1 -> int16 s2 -> (0 <= f)%Q -> (f <= 1)%Q ->
  Z.min s1 s2
  <= Math_round (rnd (inject_Z s1 + rnd (f * inject_Z (s2 - s1))))
  <= Z.max s1 s2.
Proof.
  intros [L1 U1] [L2 U2] H0 H1.
  assert (inject_Z (s2 - s1) == inject_Z s2 - inject_Z s1)%Q as Hd.
  { unfold Z.sub. rewrite inject_Z_plus, inject_Z_opp. reflexivity. }
  destruct (Z.le_gt_cases s1 s2) as [Hle|Hgt].
  - rewrite Z.min_l, Z.max_r by lia.
    assert (inject_Z 0 <= inject_Z (s2 - s1))%Q as Hd0
        by (rewrite <- Zle_Qle; lia).
    change (inject_Z 0) with 0%Q in Hd0.
    destruct (rnd_between 0 (s2 - s1) (f * inject_Z (s2 - s1)))
      as [G0 G1]; [lia | lia | change (inject_Z 0) with 0%Q; nra | nra |].
    change (inject_Z 0) with 0%Q in G0.
    destruct (rnd_between s1 s2
                (inject_Z s1 + rnd (f * inject_Z (s2 - s1))))
      as [A B]; [lia | lia | lra | lra |].
    apply Math_round_between; assumption.
  - rewrite Z.min_r, Z.max_l by lia.
    assert (inject_Z (s2 - s1) <= inject_Z 0)%Q as Hd0
        by (rewrite <- Zle_Qle; lia).
    change (inject_Z 0) with 0%Q in Hd0.
    destruct (rnd_between (s2 - s1) 0 (f * inject_Z (s2 - s1)))
      as [G0 G1]; [lia | lia | nra | change (inject_Z 0) with 0%Q; nra |].
    change (inject_Z 0) with 0%Q in G1.
    destruct (rnd_between s2 s1
                (inject_Z s1 + rnd (f * inject_Z (s2 - s1))))
      as [A B]; [lia | lia | lra | lra |].
    apply Math_round_between; assumption.
Qed.

(** Where it is defined by two or one input samples, the interpolated
    sample lies between the sample at [inputIndex] and the next one (the
    same one at the end of the input). *)
Lemma interpolate_between ratio buffer i :
  (0 < ratio)%Q -> len buffer mod 2 = 0 -> fits ratio buffer ->
  0 <= i < output_samples ratio buffer ->
  let idx := Qfloor (rnd (inject_Z i / ratio)) in
  let s1 := peek16 buffer (idx * 2) in
  let s2 := peek16 buffer (Z.min (idx + 1) (len buffer / 2 - 1) * 2) in
  Z.min s1 s2 <= interpolate ratio buffer i <= Z.max s1 s2.
Proof.
  intros Hr Heven Hfits Hi idx s1 s2.
  destruct (inputIndex_lt ratio buffer i Hr Heven Hfits Hi) as [Hidx Hlt].
  fold idx in Hidx, Hlt.
  unfold interpolate. fold idx.
  destruct (Number.Qltb (inject_Z (idx + 1)) (inject_Z (len buffer) / 2)%Q)
    eqn:E1.
  - apply Qltb_half in E1.
    assert (Z.min (idx + 1) (len buffer / 2 - 1) = idx + 1) as Hmin
        by (Z.to_euclidean_division_equations; lia).
    unfold s1, s2. rewrite Hmin.
    destruct (frac_range (rnd (inject_Z i / ratio))) as [Hf0 Hf1].
    fold idx in Hf0, Hf1.
    destruct (peek16_in_range buffer (idx * 2)) as [_ I1];
      [lia | Z.to_euclidean_division_equations; lia |].
    destruct (peek16_in_range buffer ((idx + 1) * 2)) as [_ I2];
      [lia | Z.to_euclidean_division_equations; lia |].
    apply interpolated_between; assumption.
  - assert (Number.Qltb (inject_Z idx) (inject_Z (len buffer) / 2)%Q = true)
      as -> by (apply Qltb_half; lia).
    apply not_true_iff_false in E1. rewrite Qltb_half in E1.
    assert (Z.min (idx + 1) (len buffer / 2 - 1) = idx) as Hmin
        by (Z.to_euclidean_division_equations; lia).
    unfold s1, s2. rewrite Hmin. lia.
Qed.

Lemma interpolate_int16 ratio buffer i :
  (0 < ratio)%Q -> len buffer mod 2 = 0 -> fits ratio buffer ->
  0 <= i < output_samples ratio buffer ->
  int16 (interpolate ratio buffer i).
Proof.
  intros Hr Heven Hfits Hi.
  pose proof (interpolate_between ratio buffer i Hr Heven Hfits Hi) as Hb.
  cbv zeta in Hb.
  destruct (inputIndex_lt ratio buffer i Hr Heven Hfits Hi) as [H0 Hlt].
  set (idx := Qfloor (rnd (inject_Z i / ratio))) in *.
  destruct (peek16_in_range buffer (idx * 2)) as [_ H1];
    [lia | Z.to_euclidean_division_equations; lia |].
  destruct (peek16_in_range buffer
              (Z.min (idx + 1) (len buffer / 2 - 1) * 2)) as [_ H2];
    [Z.to_euclidean_division_equations; lia
    | Z.to_euclidean_division_equations; lia |].
  unfold int16 in *. lia.
Qed.

(** With an integer ratio [m] the output index [m * j] falls on input
    sample [j]: the quotient is exact and the fraction is 0. *)
Lemma interpolate_on_grid ratio buffer m j :
  (ratio == inject_Z m)%Q -> 0 < m -> len buffer mod 2 = 0 ->
  len buffer <= kMaxLength ->
  0 <= j < len buffer / 2 ->
  interpolate ratio buffer (m * j) = peek16 buffer (j * 2).
Proof.
  intros Hr Hm Heven Hlen Hj. unfold kMaxLength in Hlen.
  assert (inject_Z (m * j) / ratio == inject_Z j)%Q as Hpos.
  { rewrite Hr, inject_Z_mult. field.
    change 0%Q with (inject_Z 0). rewrite inject_Z_injective. lia. }
  assert (rnd (inject_Z (m * j) / ratio) == inject_Z j)%Q as Hrnd.
  { rewrite (rnd_comp _ _ Hpos). apply rnd_Z.
    Z.to_euclidean_division_equations. lia. }
  assert (Qfloor (rnd (inject_Z (m * j) / ratio)) = j) as Hidx
      by (rewrite (Qfloor_comp _ _ Hrnd); apply Qfloor_Z).
  unfold interpolate. rewrite Hidx.
  destruct (Number.Qltb (inject_Z (j + 1)) (inject_Z (len buffer) / 2)%Q).
  - destruct (peek16_in_range buffer (j * 2)) as [_ [L U]];
      [lia | Z.to_euclidean_division_equations; lia |].
    apply Math_round_Z; [lia|].
    rewrite (rnd_comp _ 0); [apply rnd_0 | rewrite Hrnd; ring].
  - assert (Number.Qltb (inject_Z j) (inject_Z (len buffer) / 2)%Q = true)
      as -> by (apply Qltb_half; Z.to_euclidean_division_equations; lia).
    reflexivity.
Qed.

Lemma outputSamples_integer_ratio ratio m buffer :
  (ratio == inject_Z m)%Q -> 0 < m -> len buffer mod 2 = 0 ->
  fits ratio buffer ->
  output_samples ratio buffer = m * (len buffer / 2).
Proof.
  intros Hr Hm Heven Hfits.
  assert (0 < ratio)%Q as Hr0.
  { rewrite Hr. change 0%Q with (inject_Z 0). rewrite <- Zlt_Qlt. exact Hm. }
  destruct (fits_bound ratio buffer Hr0 Hfits) as [H0 H1].
  assert (inject_Z (len buffer) / 2 * ratio
          == inject_Z (m * (len buffer / 2)))%Q as HX.
  { rewrite Hr, (half_len buffer Heven), inject_Z_mult. ring. }
  rewrite HX in H0, H1. change 0%Q with (inject_Z 0) in H0.
  rewrite <- Zle_Qle in H0, H1.
  unfold output_samples.
  rewrite (Qfloor_comp _ (inject_Z (m * (len buffer / 2)))).
  - apply Qfloor_Z.
  - rewrite (rnd_comp _ _ HX). apply rnd_Z. lia.
Qed.

(** The frames of the output, read back: the clamp changes nothing. *)
Lemma resampleAndStereo_read this ratio buffer :
  resampleRatio this = Fin ratio -> (0 < ratio)%Q ->
  len buffer mod 2 = 0 -> fits ratio buffer ->
  exists output,
    resampleAndStereo this buffer = Ok output
    /\ len output = output_samples ratio buffer * 4
    /\ forall i,
         0 <= i < output_samples ratio buffer ->
         readInt16LE output (i * 4) = Ok (interpolate ratio buffer i)
         /\ readInt16LE output (i * 4 + 2)
            = Ok (interpolate ratio buffer i).
Proof.
  intros Hratio Hr Heven Hfits. pose proof (len_nonneg buffer) as Hlen.
  pose proof (outputSamples_range ratio buffer Hr Hfits) as [Hn _].
  eexists.
  split; [apply (resampleAndStereo_eq this ratio); assumption|]. split.
  - unfold len at 1. rewrite (length_mjoin_fixed _ 4) by reflexivity.
    rewrite length_seqZ. lia.
  - intros i Hi.
    rewrite (list_fmap_compose
               (fun i => clamp16 (interpolate ratio buffer i)) stereo_frame).
    pose proof (interpolate_int16 ratio buffer i Hr Heven Hfits Hi) as Hint.
    destruct (readInt16LE_frames
                ((fun i => clamp16 (interpolate ratio buffer i))
                   <$> seqZ 0 (output_samples ratio buffer))
                (Z.to_nat i) (clamp16 (interpolate ratio buffer i)))
      as [H0 H2].
    { rewrite list_lookup_fmap, lookup_seqZ_lt by lia.
      replace (0 + Z.of_nat (Z.to_nat i)) with i by lia. reflexivity. }
    { apply clamp16_int16. }
    rewrite Z2Nat.id in H0, H2 by lia.
    rewrite (clamp16_id _ Hint) in H0, H2. split; assumption.
Qed.

End UpsampleFacts.

Section DownsampleFacts.

Import Buffer OpusToPCMConverter.

Lemma peek16_cons a buf off :
  0 <= off -> peek16 (a :: buf) (off + 1) = peek16 buf off.
Proof.
  intros H0. unfold peek16, readInt16LE, get.
  destruct (Z.ltb_spec (off + 1) 0); [lia|].
  destruct (Z.ltb_spec (off + 1 + 1) 0); [lia|].
  destruct (Z.ltb_spec off 0); [lia|].
  replace (Z.to_nat (off + 1 + 1))
    with (Datatypes.S (Datatypes.S (Z.to_nat off))) by lia.
  replace (Z.to_nat (off + 1)) with (Datatypes.S (Z.to_nat off)) by lia.
  cbn [lookup list_lookup].
  destruct (buf !! Z.to_nat off);
    [destruct (buf !! Datatypes.S (Z.to_nat off))|];
    try reflexivity; unfold boundsError;
    destruct (len (a :: buf) - 2 <? 0), (len buf - 2 <? 0); reflexivity.
Qed.

Lemma peek16_app_r a b off :
  0 <= off -> peek16 (a ++ b) (len a + off) = peek16 b off.
Proof.
  intros H0. induction a as [|x a IH].
  - reflexivity.
  - cbn [app]. replace (len (x :: a) + off) with (len a + off + 1)
      by (unfold len; cbn [length]; lia).
    rewrite peek16_cons by (pose proof (len_nonneg a); lia). exact IH.
Qed.

Lemma peek16_app_l a b off :
  0 <= off -> off + 2 <= len a -> peek16 (a ++ b) off = peek16 a off.
Proof.
  intros H0 H2.
  destruct (split_at a off H0 H2) as (pre & x & y & post & -> & <-).
  unfold peek16. rewrite <- app_assoc. cbn [app].
  rewrite !readInt16LE_here. reflexivity.
Qed.

(** A read sees the two bytes at its offset and nothing else. *)
Lemma peek16_ext a b off :
  0 <= off -> off + 2 <= len a -> len a = len b ->
  a !! Z.to_nat off = b !! Z.to_nat off ->
  a !! Z.to_nat (off + 1) = b !! Z.to_nat (off + 1) ->
  peek16 a off = peek16 b off.
Proof.
  intros H0 H2 Hlen E0 E1. unfold peek16, readInt16LE, get.
  destruct (Z.ltb_spec off 0); [lia|].
  destruct (Z.ltb_spec (off + 1) 0); [lia|].
  rewrite E0, E1, Hlen. reflexivity.
Qed.

End DownsampleFacts.

(** * Further properties: the statements *)

(** X1. The upsampler never overshoots: on a mono buffer of whole samples
    and a positive ratio, both channels of every output frame carry a
    value between the input sample at [inputIndex = floor(i / ratio)] and
    the next input sample (the last one again at the end of the input),
    the quotient, the fraction, the product and the sum being rounded to
    doubles as the code rounds them.  The value is the interpolated one as
    it is: the clamp to the 16-bit range changes no sample. *)
Theorem resampleAndStereo_no_overshoot (this : PCMToOpusConverter.t)
    (ratio : Q) (buffer : Buffer.t) :
  PCMToOpusConverter.resampleRatio this = Fin ratio ->
  (0 < ratio)%Q ->
  Buffer.len buffer mod 2 = 0 ->
  fits ratio buffer ->
  exists output,
    PCMToOpusConverter.resampleAndStereo this buffer = Ok output
    /\ forall i,
         0 <= i < Buffer.len output / 4 ->
         let inputIndex := Qfloor (Double.rnd (inject_Z i / ratio)) in
         exists s1 s2 v,
           Buffer.readInt16LE buffer (inputIndex * 2) = Ok s1
           /\ Buffer.readInt16LE buffer
                (Z.min (inputIndex + 1) (Buffer.len buffer / 2 - 1) * 2)
              = Ok s2
           /\ Buffer.readInt16LE output (i * 4) = Ok v
           /\ Buffer.readInt16LE output (i * 4 + 2) = Ok v
           /\ Z.min s1 s2 <= v <= Z.max s1 s2
           /\ v = interpolate ratio buffer i
           /\ clamp16 v = v.
Proof.
  intros Hratio Hr Heven Hfits.
  destruct (resampleAndStereo_read this ratio buffer Hratio Hr Heven Hfits)
    as (output & Hout & Hlen & Hread).
  exists output. split; [exact Hout|]. intros i Hi inputIndex.
  rewrite Hlen, Z.div_mul in Hi by lia.
  destruct (inputIndex_lt ratio buffer i Hr Heven Hfits Hi) as [H0 Hlt].
  fold inputIndex in Hlt, H0.
  destruct (peek16_in_range buffer (inputIndex * 2)) as [H1 _];
    [lia | Z.to_euclidean_division_equations; lia |].
  destruct (peek16_in_range buffer
              (Z.min (inputIndex + 1) (Buffer.len buffer / 2 - 1) * 2))
    as [H2 _];
    [Z.to_euclidean_division_equations; lia
    | Z.to_euclidean_division_equations; lia |].
  destruct (Hread i Hi) as [Hl Hrr].
  eexists _, _, _. split; [exact H1|]. split; [exact H2|].
  split; [exact Hl|]. split; [exact Hrr|].
  split; [apply interpolate_between; assumption|].
  split; [reflexivity|].
  apply clamp16_id. apply interpolate_int16; assumption.
Qed.

Lemma resampleAndStereo_no_overshoot_witness :
  exists output,
    PCMToOpusConverter.resampleAndStereo
      (PCMToOpusConverter.new (Some (Number.of_Z 22050)))
      [x00; x80; xff; x7f]
    = Ok output.
Proof.
  destruct (resampleAndStereo_no_overshoot
              (PCMToOpusConverter.new (Some (Number.of_Z 22050)))
              (4901877145437275 # 2251799813685248) [x00; x80; xff; x7f])
    as (output & H & _).
  - vm_compute. reflexivity.
  - reflexivity.
  - reflexivity.
  - split; [vm_compute; discriminate | apply Qle_bool_iff; reflexivity].
  - exists output. exact H.
Defined.

(** X2. With an integer ratio [m] (an input rate that divides 48000) the
    upsampler returns [m] frames per input sample, and frame [m * j]
    carries input sample [j] unchanged on both channels: the interpolation
    passes through the input. *)
Theorem resampleAndStereo_integer_ratio (this : PCMToOpusConverter.t)
    (ratio : Q) (buffer : Buffer.t) (m : Z) :
  PCMToOpusConverter.resampleRatio this = Fin ratio ->
  (ratio == inject_Z m)%Q ->
  0 < m ->
  Buffer.len buffer mod 2 = 0 ->
  fits ratio buffer ->
  exists output,
    PCMToOpusConverter.resampleAndStereo this buffer = Ok output
    /\ Buffer.len output = m * (Buffer.len buffer / 2) * 4
    /\ forall j,
         0 <= j < Buffer.len buffer / 2 ->
         exists s,
           Buffer.readInt16LE buffer (j * 2) = Ok s
           /\ Buffer.readInt16LE output (m * j * 4) = Ok s
           /\ Buffer.readInt16LE output (m * j * 4 + 2) = Ok s.
Proof.
  intros Hratio Hm Hpos Heven Hfits.
  assert (0 < ratio)%Q as Hr.
  { rewrite Hm. change 0%Q with (inject_Z 0). rewrite <- Zlt_Qlt. exact Hpos. }
  destruct (resampleAndStereo_read this ratio buffer Hratio Hr Heven Hfits)
    as (output & Hout & Hlen & Hread).
  rewrite (outputSamples_integer_ratio _ m _ Hm Hpos Heven Hfits)
    in Hlen, Hread.
  exists output. split; [exact Hout|]. split; [exact Hlen|].
  intros j Hj.
  destruct (peek16_in_range buffer (j * 2)) as [H1 _];
    [lia | Z.to_euclidean_division_equations; lia |].
  destruct (Hread (m * j)) as [Hl Hrr]; [nia|].
  rewrite (interpolate_on_grid _ buffer m j Hm Hpos Heven (proj1 Hfits) Hj)
    in Hl, Hrr.
  exists (peek16 buffer (j * 2)). split; [exact H1|]. split; assumption.
Qed.

Lemma resampleAndStereo_integer_ratio_witness :
  exists output,
    PCMToOpusConverter.resampleAndStereo
      (PCMToOpusConverter.new (Some (Number.of_Z 24000)))
      [x01; x00; x04; x00]
    = Ok output
    /\ Buffer.len output = 2 * (4 / 2) * 4.
Proof.
  destruct (resampleAndStereo_integer_ratio
              (PCMToOpusConverter.new (Some (Number.of_Z 24000))) 2
              [x01; x00; x04; x00] 2)
    as (output & H1 & H2 & _).
  - vm_compute. reflexivity.
  - reflexivity.
  - reflexivity.
  - reflexivity.
  - split; [vm_compute; discriminate | apply Qle_bool_iff; reflexivity].
  - exists output. split; [exact H1 | exact H2].
Defined.

(** X3. A constant input gives a constant output: when every input sample
    is [c], both channels of every output frame carry [c], at every
    positive ratio.  Silence stays silence. *)
Theorem resampleAndStereo_constant (this : PCMToOpusConverter.t)
    (ratio : Q) (buffer : Buffer.t) (c : Z) :
  PCMToOpusConverter.resampleRatio this = Fin ratio ->
  (0 < ratio)%Q ->
  Buffer.len buffer mod 2 = 0 ->
  fits ratio buffer ->
  (forall j, 0 <= j < Buffer.len buffer / 2 ->
             Buffer.readInt16LE buffer (j * 2) = Ok c) ->
  exists output,
    PCMToOpusConverter.resampleAndStereo this buffer = Ok output
    /\ forall i,
         0 <= i < Buffer.len output / 4 ->
         Buffer.readInt16LE output (i * 4) = Ok c
         /\ Buffer.readInt16LE output (i * 4 + 2) = Ok c.
Proof.
  intros Hratio Hr Heven Hfits Hc.
  destruct (resampleAndStereo_read this ratio buffer Hratio Hr Heven Hfits)
    as (output & Hout & Hlen & Hread).
  exists output. split; [exact Hout|]. intros i Hi.
  rewrite Hlen, Z.div_mul in Hi by lia.
  pose proof (interpolate_between _ buffer i Hr Heven Hfits Hi) as Hb.
  cbv zeta in Hb.
  destruct (inputIndex_lt ratio buffer i Hr Heven Hfits Hi) as [H0 Hlt].
  set (idx := Qfloor (Double.rnd (inject_Z i / ratio))) in *.
  assert (forall j, 0 <= j < Buffer.len buffer / 2 ->
                    peek16 buffer (j * 2) = c) as Hpeek.
  { intros j Hj. unfold peek16. rewrite (Hc j Hj). reflexivity. }
  rewrite !Hpeek in Hb by (Z.to_euclidean_division_equations; lia).
  destruct (Hread i Hi) as [Hl Hrr].
  replace (interpolate ratio buffer i) with c in Hl, Hrr by lia.
  split; assumption.
Qed.

Lemma resampleAndStereo_constant_witness :
  exists output,
    PCMToOpusConverter.resampleAndStereo
      (PCMToOpusConverter.new (Some (Number.of_Z 22050))) (silence 6)
    = Ok output.
Proof.
  destruct (resampleAndStereo_constant
              (PCMToOpusConverter.new (Some (Number.of_Z 22050)))
              (4901877145437275 # 2251799813685248) (silence 6) 0)
    as (output & H & _).
  - vm_compute. reflexivity.
  - reflexivity.
  - reflexivity.
  - split; [vm_compute; discriminate | apply Qle_bool_iff; reflexivity].
  - intros j Hj. change (Buffer.len (silence 6) / 2) with 3 in Hj.
    apply (readInt16LE_zeros 6); lia.
  - exists output. exact H.
Defined.

(** X4. Upsampling from 16 kHz and downsampling again is the identity:
    for a mono buffer of whole samples, [downsampleAndMono] of the result
    of [resampleAndStereo] at the ratio 3 is the buffer itself. *)
Theorem downsample_of_upsample (this : PCMToOpusConverter.t) (ratio : Q)
    (buffer : Buffer.t) :
  PCMToOpusConverter.resampleRatio this = Fin ratio ->
  (ratio == 3)%Q ->
  Buffer.len buffer mod 2 = 0 ->
  fits ratio buffer ->
  exists stereo,
    PCMToOpusConverter.resampleAndStereo this buffer = Ok stereo
    /\ OpusToPCMConverter.downsampleAndMono stereo = Ok buffer.
Proof.
  intros Hratio Hm Heven Hfits. pose proof (len_nonneg buffer) as Hlen0.
  assert (0 < ratio)%Q as Hr by (rewrite Hm; reflexivity).
  destruct (resampleAndStereo_read this ratio buffer Hratio Hr Heven Hfits)
    as (stereo & Hout & Hlen & Hread).
  rewrite (outputSamples_integer_ratio _ 3 _ Hm ltac:(lia) Heven Hfits)
    in Hlen, Hread.
  exists stereo. split; [exact Hout|].
  rewrite downsampleAndMono_eq.
  assert (Buffer.len stereo / 12 = Buffer.len buffer / 2) as ->
      by (rewrite Hlen; Z.to_euclidean_division_equations; lia).
  rewrite <- (encode_samples buffer Heven) at 2. do 3 f_equal.
  apply list_fmap_ext. intros k j Hj.
  apply lookup_seqZ in Hj as [-> Hk].
  set (i := 0 + Z.of_nat k) in *.
  assert (0 <= i < Buffer.len buffer / 2) as Hi by (unfold i; lia).
  destruct (Hread (3 * i)) as [Hl Hrr]; [lia|].
  rewrite (interpolate_on_grid _ buffer 3 i Hm ltac:(lia) Heven
             (proj1 Hfits) Hi) in Hl, Hrr.
  unfold mono_at, peek16 at 1 2.
  replace (i * 3 * 4) with (3 * i * 4) by lia.
  rewrite Hl, Hrr, mono_div.
  Z.to_euclidean_division_equations. lia.
Qed.

Lemma downsample_of_upsample_witness :
  exists stereo,
    PCMToOpusConverter.resampleAndStereo (PCMToOpusConverter.new None)
      [x01; x00; x00; x80; xff; x7f] = Ok stereo
    /\ OpusToPCMConverter.downsampleAndMono stereo
       = Ok [x01; x00; x00; x80; xff; x7f].
Proof.
  apply (downsample_of_upsample (PCMToOpusConverter.new None) 3
           [x01; x00; x00; x80; xff; x7f]).
  - vm_compute. reflexivity.
  - reflexivity.
  - reflexivity.
  - split; [vm_compute; discriminate | apply Qle_bool_iff; reflexivity].
Defined.

(** X5. Frame by frame or at once: when the first of two stereo buffers
    has a length that is a multiple of 12 bytes (three stereo frames, as
    every decoded 20 ms frame of 3840 bytes has), downsampling their
    concatenation gives the concatenation of their downsampled buffers. *)
Theorem downsampleAndMono_app (a b : Buffer.t) :
  Buffer.len a mod 12 = 0 ->
  exists output_a output_b,
    OpusToPCMConverter.downsampleAndMono a = Ok output_a
    /\ OpusToPCMConverter.downsampleAndMono b = Ok output_b
    /\ OpusToPCMConverter.downsampleAndMono (a ++ b)
       = Ok (output_a ++ output_b).
Proof.
  intros Ha. pose proof (len_nonneg a) as Hla. pose proof (len_nonneg b) as Hlb.
  eexists _, _. split; [apply downsampleAndMono_eq|].
  split; [apply downsampleAndMono_eq|].
  rewrite downsampleAndMono_eq, len_app. f_equal.
  assert ((Buffer.len a + Buffer.len b) / 12
          = Buffer.len a / 12 + Buffer.len b / 12) as ->
      by (Z.to_euclidean_division_equations; lia).
  assert (0 <= Buffer.len a / 12) as Hka by (apply Z.div_pos; lia).
  assert (0 <= Buffer.len b / 12) as Hkb by (apply Z.div_pos; lia).
  rewrite seqZ_app, !fmap_app, join_app by lia. f_equal.
  - do 2 f_equal. apply list_fmap_ext. intros k i Hi.
    apply lookup_seqZ in Hi as [-> Hk]. unfold mono_at.
    rewrite !peek16_app_l by (Z.to_euclidean_division_equations; lia).
    reflexivity.
  - do 2 f_equal.
    replace (seqZ (0 + Buffer.len a / 12) (Buffer.len b / 12))
      with (Z.add (Buffer.len a / 12) <$> seqZ 0 (Buffer.len b / 12))
      by (rewrite fmap_add_seqZ; f_equal; lia).
    rewrite <- list_fmap_compose. apply list_fmap_ext. intros k i Hi.
    apply lookup_seqZ in Hi as [-> Hk]. unfold mono_at. cbn [compose].
    set (j := 0 + Z.of_nat k).
    replace ((Buffer.len a / 12 + j) * 3 * 4)
      with (Buffer.len a + j * 3 * 4)
      by (Z.to_euclidean_division_equations; lia).
    replace (Buffer.len a + j * 3 * 4 + 2)
      with (Buffer.len a + (j * 3 * 4 + 2)) by lia.
    rewrite !peek16_app_r by (unfold j; lia). reflexivity.
Qed.

Lemma downsampleAndMono_app_witness :
  exists output_a output_b,
    OpusToPCMConverter.downsampleAndMono
      [x01; x00; x03; x00; x00; x00; x00; x00; x00; x00; x00; x00]
    = Ok output_a
    /\ OpusToPCMConverter.downsampleAndMono
         [xff; xff; xfe; xff; x09; x00; x09; x00; x00; x00; x00; x00; x07]
       = Ok output_b
    /\ OpusToPCMConverter.downsampleAndMono
         ([x01; x00; x03; x00; x00; x00; x00; x00; x00; x00; x00; x00]
            ++ [xff; xff; xfe; xff; x09; x00; x09; x00; x00; x00; x00; x00;
                x07])
       = Ok (output_a ++ output_b).
Proof.
  apply (downsampleAndMono_app
           [x01; x00; x03; x00; x00; x00; x00; x00; x00; x00; x00; x00]
           [xff; xff; xfe; xff; x09; x00; x09; x00; x00; x00; x00; x00; x07]
           eq_refl).
Defined.

(** X6. The downsampler decimates: its result depends on the first stereo
    frame of every complete group of three and on nothing else.  Two
    buffers of one length that agree on the four bytes at [12 * i], for
    every complete group [i], are downsampled to the same buffer. *)
Theorem downsampleAndMono_decimates (a b : Buffer.t) :
  Buffer.len a = Buffer.len b ->
  (forall i k,
      0 <= i < Buffer.len a / 12 -> 0 <= k < 4 ->
      a !! Z.to_nat (i * 12 + k) = b !! Z.to_nat (i * 12 + k)) ->
  OpusToPCMConverter.downsampleAndMono a
  = OpusToPCMConverter.downsampleAndMono b.
Proof.
  intros Hlen Hagree. pose proof (len_nonneg a) as Hla.
  rewrite !downsampleAndMono_eq, <- Hlen. do 3 f_equal.
  apply list_fmap_ext. intros k i Hi.
  apply lookup_seqZ in Hi as [-> Hk]. unfold mono_at.
  set (j := 0 + Z.of_nat k).
  assert (0 <= j < Buffer.len a / 12) as Hj by (unfold j; lia).
  f_equal.
  - apply peek16_ext; try assumption;
      [lia | Z.to_euclidean_division_equations; lia | |].
    + replace (j * 3 * 4) with (j * 12 + 0) by lia. apply Hagree; lia.
    + replace (j * 3 * 4 + 1) with (j * 12 + 1) by lia. apply Hagree; lia.
  - apply peek16_ext; try assumption;
      [lia | Z.to_euclidean_division_equations; lia | |].
    + replace (j * 3 * 4 + 2) with (j * 12 + 2) by lia. apply Hagree; lia.
    + replace (j * 3 * 4 + 2 + 1) with (j * 12 + 3) by lia.
      apply Hagree; lia.
Qed.

Lemma downsampleAndMono_decimates_witness :
  OpusToPCMConverter.downsampleAndMono
    [x01; x00; x03; x00; x11; x22; x33; x44; x55; x66; x77; x08; x09]
  = OpusToPCMConverter.downsampleAndMono
      [x01; x00; x03; x00; xff; xee; xdd; xcc; xbb; xaa; x99; x88; x77].
Proof.
  apply (downsampleAndMono_decimates
           [x01; x00; x03; x00; x11; x22; x33; x44; x55; x66; x77; x08; x09]
           [x01; x00; x03; x00; xff; xee; xdd; xcc; xbb; xaa; x99; x88; x77]
           eq_refl).
  intros i k Hi Hk. change (Buffer.len _ / 12) with 1 in Hi.
  assert (i = 0) as -> by lia.
  assert (k = 0 \/ k = 1 \/ k = 2 \/ k = 3) as [->|[->|[->| ->]]] by lia;
    reflexivity.
Defined.

Section UpsampleFixed.

Import Buffer PCMToOpusConverterFixed.

(** [for_from_fill] with bytes after the blocks and a base offset. *)
Lemma for_from_fill_in (w : nat) (base : Z)
    (body : Z -> list byte -> result (list byte)) (step : Z -> list byte) :
  (forall j, length (step j) = w) ->
  forall count i pre post,
    (forall j pre' post',
        i <= j < i + Z.of_nat count ->
        len pre' = base + Z.of_nat w * j ->
        body j (pre' ++ replicate w x00 ++ post')
        = Ok (pre' ++ step j ++ post')) ->
    len pre = base + Z.of_nat w * i ->
    for_from i count body (pre ++ replicate (count * w) x00 ++ post)
    = Ok (pre ++ mjoin (step <$> seqZ i (Z.of_nat count)) ++ post).
Proof.
  intros Hw. induction count as [|k IH]; intros i pre post Hbody Hpre.
  - reflexivity.
  - cbn [for_from]. rewrite seqZ_cons by lia.
    replace (Datatypes.S k * w)%nat with (w + k * w)%nat by lia.
    rewrite replicate_add, <- app_assoc, Hbody by (assumption || lia).
    cbn [bind]. rewrite app_assoc, IH.
    + replace (Z.pred (Z.of_nat (Datatypes.S k))) with (Z.of_nat k) by lia.
      change (mjoin (step <$> i :: seqZ (Z.succ i) (Z.of_nat k)))
        with (step i ++ mjoin (step <$> seqZ (Z.succ i) (Z.of_nat k))).
      rewrite <- !app_assoc. reflexivity.
    + intros j pre' post' Hj Hlen. apply Hbody; [lia | assumption].
    + rewrite len_app. unfold len at 2. rewrite Hw. lia.
Qed.

(** The three frames an input sample becomes. *)
Lemma upsampleAndStereo_eq buffer :
  len buffer mod 2 = 0 ->
  upsampleAndStereo buffer
  = Ok (mjoin
          ((fun i => let s := peek16 buffer (i * 2) in
                     stereo_frame s ++ stereo_frame s ++ stereo_frame s)
             <$> seqZ 0 (len buffer / 2))).
Proof.
  intros Heven. pose proof (len_nonneg buffer) as Hlen.
  assert (0 <= len buffer / 2) as Hn by (apply Z.div_pos; lia).
  unfold upsampleAndStereo.
  assert (Qfloor (inject_Z (len buffer) / 2 * 3 * 4)%Q = len buffer / 2 * 12)
    as ->.
  { unfold Qfloor, Qdiv, Qmult, Qinv, inject_Z. simpl.
    Z.to_euclidean_division_equations. lia. }
  rewrite alloc_nonneg by lia. cbn [bind].
  unfold for_lt at 1. rewrite samples_ceiling by lia.
  replace ((len buffer + 1) / 2) with (len buffer / 2)
    by (Z.to_euclidean_division_equations; lia).
  replace (Z.to_nat (len buffer / 2 * 12))
    with (Z.to_nat (len buffer / 2) * 12)%nat by lia.
  replace (seqZ 0 (len buffer / 2))
    with (seqZ 0 (Z.of_nat (Z.to_nat (len buffer / 2))))
    by (rewrite Z2Nat.id by lia; reflexivity).
  rewrite <- (app_nil_r (replicate _ x00)).
  rewrite <- (app_nil_r (mjoin _)).
  apply (for_from_fill_in 12 0 _
           (fun i => let s := peek16 buffer (i * 2) in
                     stereo_frame s ++ stereo_frame s ++ stereo_frame s)
           ltac:(reflexivity) (Z.to_nat (len buffer / 2)) 0 [] []);
    [|reflexivity].
  intros i pre post Hi Hpre. cbv beta zeta.
  destruct (peek16_in_range buffer (i * 2)) as [-> Hs];
    [lia | Z.to_euclidean_division_equations; lia |].
  cbn [bind]. set (s := peek16 buffer (i * 2)) in *.
  change (for_lt 3) with (@for_from (list byte) 0 3).
  pose proof (for_from_fill_in 4 (len pre)
                (fun j output =>
                   let outputIndex := i * 3 + j in
                   let outputOffset := outputIndex * 4 in
                   let* output := writeInt16LE output s outputOffset in
                   writeInt16LE output s (outputOffset + 2))
                (fun _ => stereo_frame s) ltac:(reflexivity) 3 0 pre post)
    as Hin.
  change (3 * 4)%nat with 12%nat in Hin. cbv zeta in Hin. rewrite Hin.
  - reflexivity.
  - intros j pre' post' Hj Hpre'.
    replace ((i * 3 + j) * 4) with (len pre') by lia.
    change (pre' ++ replicate 4 x00 ++ post')
      with (pre' ++ x00 :: x00 :: (x00 :: x00 :: post')).
    rewrite (writeInt16LE_here pre' x00 x00 _ s Hs). cbn [bind].
    rewrite app_assoc.
    replace (len pre' + 2) with (len (pre' ++ encode16 s))
      by (rewrite len_app; reflexivity).
    rewrite (writeInt16LE_here (pre' ++ encode16 s) x00 x00 post' s Hs).
    unfold stereo_frame. rewrite <- !app_assoc. reflexivity.
  - lia.
Qed.

(** Every sample slot of the three frames of a sample reads as the
    sample. *)
Lemma readInt16LE_triple pre post s m :
  int16 s -> 0 <= m < 6 ->
  readInt16LE
    (pre ++ (stereo_frame s ++ stereo_frame s ++ stereo_frame s) ++ post)
    (len pre + 2 * m) = Ok s.
Proof.
  intros Hs Hm. rewrite <- (decode16_encode16 s Hs) at 4.
  unfold stereo_frame, encode16. cbn [app].
  set (lo := byte_of s). set (hi := byte_of (Z.shiftr s 8)).
  assert (m = 0 \/ m = 1 \/ m = 2 \/ m = 3 \/ m = 4 \/ m = 5)
    as [->|[->|[->|[->|[->| ->]]]]] by lia.
  - replace (len pre + 2 * 0) with (len pre) by lia.
    apply readInt16LE_here.
  - change (pre ++ lo :: hi :: ?r) with (pre ++ [lo; hi] ++ r).
    rewrite app_assoc.
    replace (len pre + 2 * 1) with (len (pre ++ [lo; hi]))
      by (rewrite len_app; reflexivity).
    apply readInt16LE_here.
  - change (pre ++ lo :: hi :: lo :: hi :: ?r)
      with (pre ++ [lo; hi; lo; hi] ++ r).
    rewrite app_assoc.
    replace (len pre + 2 * 2) with (len (pre ++ [lo; hi; lo; hi]))
      by (rewrite len_app; reflexivity).
    apply readInt16LE_here.
  - change (pre ++ lo :: hi :: lo :: hi :: lo :: hi :: ?r)
      with (pre ++ [lo; hi; lo; hi; lo; hi] ++ r).
    rewrite app_assoc.
    replace (len pre + 2 * 3) with (len (pre ++ [lo; hi; lo; hi; lo; hi]))
      by (rewrite len_app; reflexivity).
    apply readInt16LE_here.
  - change (pre ++ lo :: hi :: lo :: hi :: lo :: hi :: lo :: hi :: ?r)
      with (pre ++ [lo; hi; lo; hi; lo; hi; lo; hi] ++ r).
    rewrite app_assoc.
    replace (len pre + 2 * 4)
      with (len (pre ++ [lo; hi; lo; hi; lo; hi; lo; hi]))
      by (rewrite len_app; reflexivity).
    apply readInt16LE_here.
  - change (pre ++ lo :: hi :: lo :: hi :: lo :: hi :: lo :: hi
                :: lo :: hi :: ?r)
      with (pre ++ [lo; hi; lo; hi; lo; hi; lo; hi; lo; hi] ++ r).
    rewrite app_assoc.
    replace (len pre + 2 * 5)
      with (len (pre ++ [lo; hi; lo; hi; lo; hi; lo; hi; lo; hi]))
      by (rewrite len_app; reflexivity).
    apply readInt16LE_here.
Qed.

(** The sample slots of the output, read back. *)
Lemma upsampleAndStereo_read buffer :
  len buffer mod 2 = 0 ->
  exists output,
    upsampleAndStereo buffer = Ok output
    /\ len output = len buffer * 6
    /\ forall i m,
         0 <= i < len buffer / 2 -> 0 <= m < 6 ->
         readInt16LE output (i * 12 + 2 * m) = Ok (peek16 buffer (i * 2)).
Proof.
  intros Heven. pose proof (len_nonneg buffer) as Hlen.
  assert (0 <= len buffer / 2) as Hn by (apply Z.div_pos; lia).
  eexists. split; [apply upsampleAndStereo_eq; assumption|]. split.
  - unfold len at 1. rewrite (length_mjoin_fixed _ 12) by reflexivity.
    rewrite length_seqZ. Z.to_euclidean_division_equations. lia.
  - intros i m Hi Hm.
    destruct (mjoin_fixed_split
                (fun i => let s := peek16 buffer (i * 2) in
                          stereo_frame s ++ stereo_frame s ++ stereo_frame s)
                12 (seqZ 0 (len buffer / 2)) (Z.to_nat i) i)
      as (pre & post & -> & Hpre).
    + reflexivity.
    + rewrite lookup_seqZ_lt by lia. f_equal. lia.
    + replace (i * 12) with (len pre) by (unfold len; lia).
      cbv zeta. apply readInt16LE_triple; [|exact Hm].
      apply peek16_in_range; [lia | Z.to_euclidean_division_equations; lia].
Qed.

End UpsampleFixed.

(** X7. The fixed-rate upsampler repeats every sample three times: on a
    mono buffer of whole samples it returns six times as many bytes, and
    both channels of output frame [f] carry input sample [floor(f / 3)]
    unchanged. *)
Theorem upsampleAndStereo_spec (buffer : Buffer.t) :
  Buffer.len buffer mod 2 = 0 ->
  exists output,
    PCMToOpusConverterFixed.upsampleAndStereo buffer = Ok output
    /\ Buffer.len output = Buffer.len buffer * 6
    /\ forall f,
         0 <= f < Buffer.len buffer / 2 * 3 ->
         exists s,
           Buffer.readInt16LE buffer (f / 3 * 2) = Ok s
           /\ Buffer.readInt16LE output (f * 4) = Ok s
           /\ Buffer.readInt16LE output (f * 4 + 2) = Ok s.
Proof.
  intros Heven. pose proof (len_nonneg buffer) as Hlen0.
  destruct (upsampleAndStereo_read buffer Heven)
    as (output & Hout & Hlen & Hread).
  exists output. split; [exact Hout|]. split; [exact Hlen|].
  intros f Hf.
  assert (0 <= f / 3 < Buffer.len buffer / 2) as Hi
      by (Z.to_euclidean_division_equations; lia).
  destruct (peek16_in_range buffer (f / 3 * 2)) as [H1 _];
    [lia | Z.to_euclidean_division_equations; lia |].
  exists (peek16 buffer (f / 3 * 2)). split; [exact H1|]. split.
  - replace (f * 4) with (f / 3 * 12 + 2 * (2 * (f mod 3)))
      by (Z.to_euclidean_division_equations; lia).
    apply Hread; [exact Hi | Z.to_euclidean_division_equations; lia].
  - replace (f * 4 + 2) with (f / 3 * 12 + 2 * (2 * (f mod 3) + 1))
      by (Z.to_euclidean_division_equations; lia).
    apply Hread; [exact Hi | Z.to_euclidean_division_equations; lia].
Qed.

Lemma upsampleAndStereo_spec_witness :
  exists output,
    PCMToOpusConverterFixed.upsampleAndStereo [x01; x00; x00; x80] = Ok output
    /\ Buffer.len output = 4 * 6.
Proof.
  destruct (upsampleAndStereo_spec [x01; x00; x00; x80] eq_refl)
    as (output & H1 & H2 & _).
  exists output. split; [exact H1 | exact H2].
Defined.

(** X8. The fixed-rate upsampler and the downsampler are inverse in this
    order: for a mono buffer of whole samples, [downsampleAndMono] of the
    result of [upsampleAndStereo] is the buffer itself. *)
Theorem downsample_of_upsampleAndStereo (buffer : Buffer.t) :
  Buffer.len buffer mod 2 = 0 ->
  exists stereo,
    PCMToOpusConverterFixed.upsampleAndStereo buffer = Ok stereo
    /\ OpusToPCMConverter.downsampleAndMono stereo = Ok buffer.
Proof.
  intros Heven. pose proof (len_nonneg buffer) as Hlen0.
  destruct (upsampleAndStereo_read buffer Heven)
    as (stereo & Hout & Hlen & Hread).
  exists stereo. split; [exact Hout|].
  rewrite downsampleAndMono_eq.
  assert (Buffer.len stereo / 12 = Buffer.len buffer / 2) as ->
      by (rewrite Hlen; Z.to_euclidean_division_equations; lia).
  rewrite <- (encode_samples buffer Heven) at 2. do 3 f_equal.
  apply list_fmap_ext. intros k j Hj.
  apply lookup_seqZ in Hj as [-> Hk].
  set (i := 0 + Z.of_nat k) in *.
  assert (0 <= i < Buffer.len buffer / 2) as Hi by (unfold i; lia).
  pose proof (Hread i 0 Hi ltac:(lia)) as Hl.
  pose proof (Hread i 1 Hi ltac:(lia)) as Hr.
  unfold mono_at, peek16 at 1 2.
  replace (i * 3 * 4) with (i * 12 + 2 * 0) by lia.
  replace (i * 12 + 2 * 0 + 2) with (i * 12 + 2 * 1) by lia.
  rewrite Hl, Hr, mono_div.
  Z.to_euclidean_division_equations. lia.
Qed.

Lemma downsample_of_upsampleAndStereo_witness :
  exists stereo,
    PCMToOpusConverterFixed.upsampleAndStereo [x01; x00; x00; x80; xff; x7f]
    = Ok stereo
    /\ OpusToPCMConverter.downsampleAndMono stereo
       = Ok [x01; x00; x00; x80; xff; x7f].
Proof.
  apply (downsample_of_upsampleAndStereo [x01; x00; x00; x80; xff; x7f]
           eq_refl).
Defined.

(** X9. The fixed-rate upsampler checks no length: on a buffer of odd
    length it throws the range error of the read that passes the end of
    the buffer, after having written the frames of the whole samples. *)
Theorem upsampleAndStereo_odd_length (buffer : Buffer.t) :
  Buffer.len buffer mod 2 <> 0 ->
  exists e, PCMToOpusConverterFixed.upsampleAndStereo buffer = Throw e.
Proof.
  intros Hodd. pose proof (len_nonneg buffer) as Hlen.
  set (k := Buffer.len buffer / 2).
  assert (Buffer.len buffer = 2 * k + 1) as Hk
      by (unfold k; Z.to_euclidean_division_equations; lia).
  assert (0 <= k) as Hk0 by lia.
  unfold PCMToOpusConverterFixed.upsampleAndStereo.
  assert (Qfloor (inject_Z (Buffer.len buffer) / 2 * 3 * 4)%Q = 12 * k + 6)
    as ->.
  { rewrite Hk. unfold Qfloor, Qdiv, Qmult, Qinv, inject_Z. simpl.
    Z.to_euclidean_division_equations. lia. }
  rewrite alloc_nonneg by lia. cbn [bind].
  unfold for_lt at 1. rewrite samples_ceiling by lia.
  replace ((Buffer.len buffer + 1) / 2) with (k + 1)
    by (Z.to_euclidean_division_equations; lia).
  replace (Z.to_nat (k + 1)) with (Z.to_nat k + 1)%nat by lia.
  apply (for_from_throws_at (fun s => Buffer.len s = 12 * k + 6)).
  - unfold Buffer.len. rewrite length_replicate. lia.
  - intros i s Hi Hs. cbv beta.
    destruct (peek16_in_range buffer (i * 2)) as [-> Hv]; [lia | lia |].
    cbn [bind]. change (for_lt 3) with (@for_from (list byte) 0 3).
    cbn [for_from]. cbv zeta.
    set (v := peek16 buffer (i * 2)) in *.
    destruct (writeInt16LE_in_range s v ((i * 3 + 0) * 4) Hv)
      as (s1 & -> & H1); [lia | lia |]. cbn [bind].
    destruct (writeInt16LE_in_range s1 v ((i * 3 + 0) * 4 + 2) Hv)
      as (s2 & -> & H2); [lia | lia |]. cbn [bind].
    destruct (writeInt16LE_in_range s2 v ((i * 3 + (0 + 1)) * 4) Hv)
      as (s3 & -> & H3); [lia | lia |]. cbn [bind].
    destruct (writeInt16LE_in_range s3 v ((i * 3 + (0 + 1)) * 4 + 2) Hv)
      as (s4 & -> & H4); [lia | lia |]. cbn [bind].
    destruct (writeInt16LE_in_range s4 v ((i * 3 + (0 + 1 + 1)) * 4) Hv)
      as (s5 & -> & H5); [lia | lia |]. cbn [bind].
    destruct (writeInt16LE_in_range s5 v ((i * 3 + (0 + 1 + 1)) * 4 + 2) Hv)
      as (s6 & -> & H6); [lia | lia |]. cbn [bind].
    exists s6. split; [reflexivity | lia].
  - intros s _. cbv beta.
    destruct (readInt16LE_out_of_range buffer
                ((0 + Z.of_nat (Z.to_nat k)) * 2)) as [e He]; [lia|].
    exists e. rewrite He. reflexivity.
Qed.

Lemma upsampleAndStereo_odd_length_witness :
  exists e,
    PCMToOpusConverterFixed.upsampleAndStereo [x01; x00; x04] = Throw e.
Proof.
  apply (upsampleAndStereo_odd_length [x01; x00; x04]). discriminate.
Defined.

Section VADFacts.

Import Buffer VADDetector.

Lemma run_app chunks1 : forall this chunks2 this1 trace1 pushed1,
  run this chunks1 = Ok (this1, trace1, pushed1) ->
  run this (chunks1 ++ chunks2)
  = let* r := run this1 chunks2 in
    let '(this2, trace2, pushed2) := r in
    Ok (this2, trace1 ++ trace2, pushed1 ++ pushed2).
Proof.
  induction chunks1 as [|c rest IH];
    intros this chunks2 this1 trace1 pushed1 H.
  - injection H as <- <- <-. cbn [app].
    destruct (run this chunks2) as [[[? ?] ?]|]; reflexivity.
  - cbn [run app] in *.
    destruct (_transform this c) as [[[thisc events] pushed]|];
      [|discriminate].
    cbn [bind] in *.
    destruct (run thisc rest) as [[[thisr trace] forwarded]|] eqn:Er;
      [|discriminate].
    cbn [bind] in H. injection H as <- <- <-.
    rewrite (IH thisc chunks2 thisr trace forwarded Er).
    destruct (run thisr chunks2) as [[[? ?] ?]|]; [|reflexivity].
    cbn [bind]. rewrite <- app_assoc. reflexivity.
Qed.

(** Events that alternate pair up. *)
Lemma alternate_counts events : forall speaking,
  alternate speaking events ->
  count_event speech_start events + Z.b2z speaking
  = count_event speech_end events
    + Z.b2z (speaking_after speaking events).
Proof.
  induction events as [|[] rest IH]; intros speaking H.
  - reflexivity.
  - destruct H as [-> H]. specialize (IH true H).
    unfold count_event in *. cbn [speaking_after foldl] in *.
    rewrite filter_cons_True by reflexivity.
    rewrite filter_cons_False by discriminate.
    unfold speaking_after in *. cbn [length Z.b2z foldl] in *. lia.
  - destruct H as [-> H]. specialize (IH false H).
    unfold count_event in *. cbn [speaking_after foldl] in *.
    rewrite filter_cons_False by discriminate.
    rewrite filter_cons_True by reflexivity.
    unfold speaking_after in *. cbn [length Z.b2z foldl] in *. lia.
Qed.

(** The sum of amplitudes that lie in a range. *)
Lemma sum_in (lo hi : Z) (l : list Z) :
  Forall (fun a => lo <= a <= hi) l ->
  lo * Z.of_nat (length l) <= foldr Z.add 0 l <= hi * Z.of_nat (length l).
Proof.
  intros Hall. induction Hall as [|a l Ha Hl IH].
  - cbn [foldr length]. lia.
  - cbn [foldr length]. rewrite Nat2Z.inj_succ. lia.
Qed.

Lemma amplitudes_length chunk :
  len chunk mod 2 = 0 ->
  Z.of_nat (length (amplitudes chunk)) = len chunk / 2.
Proof.
  intros Heven. pose proof (len_nonneg chunk) as Hlen.
  unfold amplitudes. rewrite length_fmap, length_seqZ.
  Z.to_euclidean_division_equations. lia.
Qed.

Lemma amplitudes_int16 chunk :
  len chunk mod 2 = 0 ->
  Forall (fun a => 0 <= a <= 32768) (amplitudes chunk).
Proof.
  intros Heven. unfold amplitudes. apply Forall_fmap, Forall_seqZ.
  intros i Hi. cbn.
  destruct (peek16_in_range chunk (i * 2)) as [_ H];
    [lia | Z.to_euclidean_division_equations; lia |].
  unfold int16 in H. lia.
Qed.

(** The mean amplitude of a chunk that has samples is a double within
    every range of integers that holds all the amplitudes. *)
Lemma avgAmplitude_in chunk (lo hi : Z) :
  len chunk mod 2 = 0 -> chunk <> [] ->
  - 2 ^ 53 <= lo -> lo <= hi -> hi <= 2 ^ 53 ->
  Forall (fun a => lo <= a <= hi) (amplitudes chunk) ->
  exists q, avgAmplitude chunk = Fin q
            /\ (inject_Z lo <= q)%Q /\ (q <= inject_Z hi)%Q.
Proof.
  intros Heven Hne Hlo Hlohi Hhi Hall.
  pose proof (len_nonneg chunk) as Hlen.
  assert (0 < len chunk) as Hpos
      by (destruct chunk; [congruence | unfold len; cbn [length]; lia]).
  pose proof (amplitudes_length chunk Heven) as Hn.
  pose proof (sum_in lo hi _ Hall) as Hsum. rewrite Hn in Hsum.
  set (sum := foldr Z.add 0 (amplitudes chunk)) in *.
  assert (inject_Z (len chunk) / 2 == inject_Z (len chunk / 2))%Q
    as Hsamples.
  { unfold Qeq, Qdiv, Qmult, Qinv, inject_Z. simpl.
    Z.to_euclidean_division_equations. lia. }
  assert (0 < inject_Z (len chunk) / 2)%Q as Hq.
  { rewrite Hsamples. change 0%Q with (inject_Z 0). rewrite <- Zlt_Qlt.
    Z.to_euclidean_division_equations. lia. }
  assert (inject_Z lo <= inject_Z sum / (inject_Z (len chunk) / 2))%Q as A.
  { apply Qle_shift_div_l; [exact Hq|].
    rewrite Hsamples, <- inject_Z_mult, <- Zle_Qle. lia. }
  assert (inject_Z sum / (inject_Z (len chunk) / 2) <= inject_Z hi)%Q as B.
  { apply Qle_shift_div_r; [exact Hq|].
    rewrite Hsamples, <- inject_Z_mult, <- Zle_Qle. lia. }
  destruct (rnd_between lo hi _ ltac:(lia) ltac:(lia) A B) as [A' B'].
  eexists. split.
  - unfold avgAmplitude, Number.div, Number.of_Z. fold sum.
    destruct (Qeq_bool (inject_Z (len chunk) / 2) 0) eqn:E.
    + apply Qeq_bool_iff in E. rewrite E in Hq. discriminate Hq.
    + apply (round_in lo hi); assumption.
  - rewrite Qred_correct. split; assumption.
Qed.

(** The mean amplitude is NaN (no sample) or a double that is not
    negative. *)
Lemma avgAmplitude_cases chunk :
  len chunk mod 2 = 0 ->
  avgAmplitude chunk = NaN
  \/ exists q, avgAmplitude chunk = Fin q /\ (0 <= q)%Q.
Proof.
  intros Heven. destruct chunk as [|b chunk']; [left; reflexivity|].
  right.
  destruct (avgAmplitude_in (b :: chunk') 0 32768 Heven ltac:(discriminate)
              ltac:(lia) ltac:(lia) ltac:(lia)
              (amplitudes_int16 _ Heven)) as (q & Hq & H0 & _).
  exists q. split; [exact Hq | exact H0].
Qed.

End VADFacts.

(** X10. Speech starts and ends pair up, from any state: over every
    sequence of chunks of whole samples the events alternate, beginning
    with [speech_end] exactly when the detector was speaking, the
    configuration is kept, and the number of [speech_start] plus one for a
    detector that was speaking equals the number of [speech_end] plus one
    for a detector that is speaking at the end. *)
Theorem vad_events_pair_up (this : VADDetector.t) (chunks : list Buffer.t) :
  Forall (fun c => Buffer.len c mod 2 = 0) chunks ->
  exists this' trace,
    VADDetector.run this chunks = Ok (this', trace, chunks)
    /\ alternate (VADDetector.isSpeaking this) (mjoin trace)
    /\ count_event speech_start (mjoin trace)
       + Z.b2z (VADDetector.isSpeaking this)
       = count_event speech_end (mjoin trace)
         + Z.b2z (VADDetector.isSpeaking this')
    /\ same_config this this'.
Proof.
  intros Hall.
  destruct (run_total chunks this Hall)
    as (this' & trace & Hrun & Hcfg & _ & Halt & Hsp).
  exists this', trace. split; [exact Hrun|]. split; [exact Halt|].
  split; [|exact Hcfg]. rewrite Hsp. apply alternate_counts. exact Halt.
Qed.

Lemma vad_events_pair_up_witness :
  exists this' trace,
    VADDetector.run
      (VADDetector.new None (Some (Number.of_Z 1)) None)
      [tone 2; silence 32; silence 32; tone 2; silence 2]
    = Ok (this', trace, [tone 2; silence 32; silence 32; tone 2; silence 2])
    /\ alternate false (mjoin trace).
Proof.
  destruct (vad_events_pair_up
              (VADDetector.new None (Some (Number.of_Z 1)) None)
              [tone 2; silence 32; silence 32; tone 2; silence 2])
    as (this' & trace & H1 & H2 & _).
  - repeat constructor.
  - exists this', trace. split; [exact H1 | exact H2].
Defined.

(** X11. [consecutiveSilence] counts the silent chunks since the last
    chunk that was not silent: whatever was written before, after a chunk
    that is not silent and [n] silent chunks the counter is [n].  A
    [speech_end] in between does not reset it. *)
Theorem consecutiveSilence_counts_trailing_silence (this : VADDetector.t)
    (before : list Buffer.t) (loud : Buffer.t) (quiet : list Buffer.t) :
  Forall (fun c => Buffer.len c mod 2 = 0) before ->
  VADDetector.detectSilence this loud = Ok false ->
  Forall (fun c => VADDetector.detectSilence this c = Ok true) quiet ->
  exists this' trace,
    VADDetector.run this (before ++ loud :: quiet)
    = Ok (this', trace, before ++ loud :: quiet)
    /\ VADDetector.consecutiveSilence this' = Z.of_nat (length quiet).
Proof.
  intros Hbefore Hloud Hquiet.
  destruct (run_total before this Hbefore)
    as (this1 & trace1 & Hrun1 & Hcfg1 & _).
  assert (VADDetector.detectSilence this1 loud = Ok false) as Hloud1.
  { rewrite <- Hloud. symmetry. apply detectSilence_config. apply Hcfg1. }
  pose proof (_transform_not_silent this1 loud Hloud1) as Ht.
  set (this2 := VADDetector.set_consecutiveSilence
                  (VADDetector.set_isSpeaking this1 true) 0) in *.
  destruct (run_silent quiet this2)
    as (this' & trace3 & Hrun3 & _ & Hcnt & _).
  { eapply Forall_impl; [exact Hquiet|]. intros c Hc. rewrite <- Hc.
    symmetry. apply detectSilence_config. apply Hcfg1. }
  eexists this', _.
  rewrite (run_app before this (loud :: quiet) this1 trace1 before Hrun1).
  rewrite (run_cons _ _ _ _ _ _ Ht), Hrun3. cbn [bind].
  split; [reflexivity|]. rewrite Hcnt. reflexivity.
Qed.

Lemma consecutiveSilence_counts_trailing_silence_witness :
  exists this' trace,
    VADDetector.run
      (VADDetector.new None (Some (Number.of_Z 1)) None)
      ([tone 2; silence 32; silence 32] ++ tone 2 :: [silence 32; silence 32])
    = Ok (this', trace,
          [tone 2; silence 32; silence 32] ++ tone 2 :: [silence 32; silence 32])
    /\ VADDetector.consecutiveSilence this' = 2.
Proof.
  apply (consecutiveSilence_counts_trailing_silence
           (VADDetector.new None (Some (Number.of_Z 1)) None)
           [tone 2; silence 32; silence 32] (tone 2)
           [silence 32; silence 32]).
  - repeat constructor.
  - reflexivity.
  - repeat constructor.
Defined.

(** X12. A threshold that is not positive switches the end of speech
    off.  When [0 < silenceThreshold] is false (a threshold of 0, a
    negative one, NaN) no chunk of whole samples is silent: on a detector
    that is not speaking the first chunk emits [speech_start], no chunk
    after it emits anything, and the detector ends speaking with the
    counter at 0. *)
Theorem non_positive_threshold_never_silent (this : VADDetector.t)
    (chunk : Buffer.t) (chunks : list Buffer.t) :
  Number.lt (Number.of_Z 0) (VADDetector.silenceThreshold this) = false ->
  VADDetector.isSpeaking this = false ->
  Forall (fun c => Buffer.len c mod 2 = 0) (chunk :: chunks) ->
  Forall (fun c => VADDetector.detectSilence this c = Ok false)
         (chunk :: chunks)
  /\ exists this',
       VADDetector.run this (chunk :: chunks)
       = Ok (this', [speech_start] :: replicate (length chunks) [],
             chunk :: chunks)
       /\ VADDetector.isSpeaking this' = true
       /\ VADDetector.consecutiveSilence this' = 0.
Proof.
  intros Hthr Hsp Hall.
  assert (forall c, Buffer.len c mod 2 = 0 ->
                    VADDetector.detectSilence this c = Ok false) as Hloud.
  { intros c Hc. rewrite (detectSilence_even this c Hc). f_equal.
    destruct (avgAmplitude_cases c Hc) as [-> | (q & -> & Hq)];
      [reflexivity|].
    destruct (VADDetector.silenceThreshold this) as [t|neg|];
      cbn in *; try assumption; try reflexivity.
    unfold Number.Qltb in *. apply negb_false_iff in Hthr.
    apply negb_false_iff. apply Qle_bool_iff in Hthr. apply Qle_bool_iff.
    change (inject_Z 0) with 0%Q in Hthr. lra. }
  split.
  - eapply Forall_impl; [exact Hall|]. exact Hloud.
  - apply Forall_cons in Hall as [Hc Hrest].
    pose proof (_transform_not_silent this chunk (Hloud chunk Hc)) as Ht.
    rewrite Hsp in Ht.
    set (this1 := VADDetector.set_consecutiveSilence
                    (VADDetector.set_isSpeaking this true) 0) in *.
    assert (forall l this2,
               VADDetector.silenceThreshold this2
               = VADDetector.silenceThreshold this ->
               VADDetector.isSpeaking this2 = true ->
               Forall (fun c => Buffer.len c mod 2 = 0) l ->
               exists this',
                 VADDetector.run this2 l
                 = Ok (this', replicate (length l) [], l)
                 /\ VADDetector.isSpeaking this' = true
                 /\ (l <> [] -> VADDetector.consecutiveSilence this' = 0)
                 /\ (l = [] -> this' = this2)) as Hrun.
    { induction l as [|c l IH]; intros this2 Hcfg Hs2 Hl.
      - exists this2. repeat split; [exact Hs2 | congruence].
      - apply Forall_cons in Hl as [Hc2 Hl].
        assert (VADDetector.detectSilence this2 c = Ok false) as Hd.
        { rewrite <- (Hloud c Hc2). apply detectSilence_config. exact Hcfg. }
        pose proof (_transform_not_silent this2 c Hd) as Ht2.
        rewrite Hs2 in Ht2.
        destruct (IH (VADDetector.set_consecutiveSilence
                        (VADDetector.set_isSpeaking this2 true) 0))
          as (this' & Hr & Hs' & Hc' & He'); [exact Hcfg | reflexivity
                                             | exact Hl |].
        exists this'. rewrite (run_cons _ _ _ _ _ _ Ht2), Hr. cbn [bind].
        split; [reflexivity|]. split; [exact Hs'|]. split; [|discriminate].
        intros _. destruct l as [|c' l'].
        + rewrite (He' eq_refl). reflexivity.
        + apply Hc'. discriminate. }
    destruct (Hrun chunks this1 eq_refl eq_refl Hrest)
      as (this' & Hr & Hs' & Hc' & He').
    exists this'. rewrite (run_cons _ _ _ _ _ _ Ht), Hr. cbn [bind].
    split; [reflexivity|]. split; [exact Hs'|].
    destruct chunks as [|c' l'].
    + rewrite (He' eq_refl). reflexivity.
    + apply Hc'. discriminate.
Qed.

Lemma non_positive_threshold_never_silent_witness :
  exists this',
    VADDetector.run
      (VADDetector.new (Some (Number.of_Z 0)) None None)
      (silence 4 :: [silence 2; []])
    = Ok (this', [speech_start] :: replicate 2 [],
          silence 4 :: [silence 2; []])
    /\ VADDetector.isSpeaking this' = true
    /\ VADDetector.consecutiveSilence this' = 0.
Proof.
  destruct (non_positive_threshold_never_silent
              (VADDetector.new (Some (Number.of_Z 0)) None None)
              (silence 4) [silence 2; []]) as [_ H].
  - reflexivity.
  - reflexivity.
  - repeat constructor.
  - exact H.
Defined.

(** X13. Sample bounds decide the classification.  With a rational
    threshold [t], a chunk of whole samples that is not empty is silent
    when every sample is below [t] in absolute value, and is not silent
    when every sample reaches [t] in absolute value. *)
Theorem classification_by_sample_bounds (this : VADDetector.t)
    (chunk : Buffer.t) (t : Q) :
  VADDetector.silenceThreshold this = Fin t ->
  Buffer.len chunk mod 2 = 0 ->
  chunk <> [] ->
  ((forall i, 0 <= i < Buffer.len chunk / 2 ->
              exists s, Buffer.readInt16LE chunk (i * 2) = Ok s
                        /\ (inject_Z (Z.abs s) < t)%Q) ->
   VADDetector.detectSilence this chunk = Ok true)
  /\ ((forall i, 0 <= i < Buffer.len chunk / 2 ->
                 exists s, Buffer.readInt16LE chunk (i * 2) = Ok s
                           /\ (t <= inject_Z (Z.abs s))%Q) ->
      VADDetector.detectSilence this chunk = Ok false).
Proof.
  intros Hthr Heven Hne.
  rewrite (detectSilence_even this chunk Heven), Hthr.
  pose proof (amplitudes_int16 chunk Heven) as Hint.
  assert (exists a, a ∈ amplitudes chunk) as [a0 Ha0].
  { pose proof (amplitudes_length chunk Heven) as Hn.
    pose proof (len_nonneg chunk) as Hlen.
    destruct (amplitudes chunk) as [|a l]; [|exists a; left].
    destruct chunk; [congruence|].
    unfold Buffer.len in *. cbn [length] in *.
    Z.to_euclidean_division_equations. lia. }
  assert (forall P : Z -> Prop,
             (forall i, 0 <= i < Buffer.len chunk / 2 ->
                        exists s, Buffer.readInt16LE chunk (i * 2) = Ok s
                                  /\ P (Z.abs s)) ->
             Forall P (amplitudes chunk)) as Hamp.
  { intros P Hall. unfold amplitudes. apply Forall_fmap, Forall_seqZ.
    intros i Hi. cbn. destruct (Hall i ltac:(lia)) as (s & Hs & HP).
    unfold peek16. rewrite Hs. exact HP. }
  split; intros Hall.
  - apply (Hamp (fun a => (inject_Z a < t)%Q)) in Hall.
    assert (Forall (fun a => 0 <= a <= Z.min (Qceiling t - 1) 32768)
              (amplitudes chunk)) as Hrange.
    { apply Forall_forall. intros a Ha.
      pose proof (proj1 (Forall_forall _ _) Hall a Ha) as Hlt.
      pose proof (proj1 (Forall_forall _ _) Hint a Ha) as Hi. cbv beta in *.
      pose proof (Qle_ceiling t) as Hc.
      assert (inject_Z a < inject_Z (Qceiling t))%Q as Hz by lra.
      rewrite <- Zlt_Qlt in Hz. lia. }
    pose proof (proj1 (Forall_forall _ _) Hrange a0 Ha0) as Hne0.
    cbv beta in Hne0.
    destruct (avgAmplitude_in chunk 0 (Z.min (Qceiling t - 1) 32768)
                Heven Hne ltac:(lia) ltac:(lia) ltac:(lia) Hrange)
      as (q & -> & _ & Hq).
    cbn [Number.lt]. unfold Number.Qltb. f_equal.
    apply negb_true_iff. apply not_true_iff_false.
    rewrite Qle_bool_iff. apply Qlt_not_le.
    pose proof (Qceiling_lt t) as Hc.
    assert (inject_Z (Z.min (Qceiling t - 1) 32768)
            <= inject_Z (Qceiling t - 1))%Q as Hm
        by (rewrite <- Zle_Qle; lia).
    lra.
  - apply (Hamp (fun a => (t <= inject_Z a)%Q)) in Hall.
    assert (Forall (fun a => Z.max (Qceiling t) 0 <= a <= 32768)
              (amplitudes chunk)) as Hrange.
    { apply Forall_forall. intros a Ha.
      pose proof (proj1 (Forall_forall _ _) Hall a Ha) as Hle.
      pose proof (proj1 (Forall_forall _ _) Hint a Ha) as Hi. cbv beta in *.
      apply Qceiling_resp_le in Hle. rewrite Qceiling_Z in Hle. lia. }
    pose proof (proj1 (Forall_forall _ _) Hrange a0 Ha0) as Hne0.
    cbv beta in Hne0.
    destruct (avgAmplitude_in chunk (Z.max (Qceiling t) 0) 32768
                Heven Hne ltac:(lia) ltac:(lia) ltac:(lia) Hrange)
      as (q & -> & Hq & _).
    cbn [Number.lt]. unfold Number.Qltb. f_equal.
    apply negb_false_iff. apply Qle_bool_iff.
    pose proof (Qle_ceiling t) as Hc.
    assert (inject_Z (Qceiling t) <= inject_Z (Z.max (Qceiling t) 0))%Q
      as Hm by (rewrite <- Zle_Qle; lia).
    lra.
Qed.

Lemma classification_by_sample_bounds_witness :
  VADDetector.detectSilence (VADDetector.new None None None)
    [xf4; x01; x0c; xfe] = Ok false.
Proof.
  destruct (classification_by_sample_bounds
              (VADDetector.new None None None) [xf4; x01; x0c; xfe] 500
              eq_refl eq_refl ltac:(discriminate)) as [_ H].
  apply H. intros i Hi. change (Buffer.len _ / 2) with 2 in Hi.
  assert (i = 0 \/ i = 1) as [-> | ->] by lia.
  - exists 500. split; [reflexivity | discriminate].
  - exists (-500). split; [reflexivity | discriminate].
Defined.

Section Estimate.

Import Buffer VADDetector.

(** Rounding keeps the order, overflow to an infinity included. *)
Lemma ge_round_mono x y :
  (x <= y)%Q -> Number.ge (Double.round y) (Double.round x) = true.
Proof.
  intros H. pose proof (rnd_le x y H) as Hr.
  pose proof (pow2_pos 1024) as Hp.
  unfold Double.round. cbv zeta.
  set (rx := Double.rnd x) in *. set (ry := Double.rnd y) in *.
  assert (forall z, Qle_bool 0 z = false -> (z < 0)%Q) as Hneg.
  { intros z E. apply Qnot_le_lt. intros C. apply Qle_bool_iff in C.
    congruence. }
  assert (forall z, Qle_bool (Double.pow2 1024) (Qabs z) = false ->
                    (- Double.pow2 1024 < z /\ z < Double.pow2 1024)%Q)
    as Hsmall.
  { intros z E.
    assert (Qabs z < Double.pow2 1024)%Q as Hlt.
    { apply Qnot_le_lt. intros C. apply Qle_bool_iff in C. congruence. }
    pose proof (Qle_Qabs z) as A. pose proof (Qle_Qabs (- z)) as B.
    rewrite Qabs_opp in B. split; lra. }
  assert (forall z, Qle_bool (Double.pow2 1024) (Qabs z) = true ->
                    (z <= - Double.pow2 1024 \/ Double.pow2 1024 <= z)%Q)
    as Hbig.
  { intros z E. apply Qle_bool_iff in E.
    destruct (Qlt_le_dec z 0) as [C | C].
    - left. rewrite Qabs_neg in E by lra. lra.
    - right. rewrite Qabs_pos in E by exact C. exact E. }
  destruct (Qle_bool (Double.pow2 1024) (Qabs rx)) eqn:Ex,
           (Qle_bool (Double.pow2 1024) (Qabs ry)) eqn:Ey;
    cbn [Number.ge].
  - apply Hbig in Ex, Ey.
    destruct (Qle_bool 0 ry) eqn:Ay; [reflexivity|].
    destruct (Qle_bool 0 rx) eqn:Ax; [|reflexivity].
    apply Hneg in Ay. apply Qle_bool_iff in Ax. lra.
  - apply Hbig in Ex. apply Hsmall in Ey.
    destruct (Qle_bool 0 rx) eqn:Ax; [|reflexivity].
    apply Qle_bool_iff in Ax. lra.
  - apply Hsmall in Ex. apply Hbig in Ey.
    destruct (Qle_bool 0 ry) eqn:Ay; [reflexivity|].
    apply Hneg in Ay. lra.
  - apply Qle_bool_iff. rewrite !Qred_correct. exact Hr.
Qed.

(** A rounded number is never NaN. *)
Lemma round_not_NaN x : Double.round x <> NaN.
Proof.
  unfold Double.round. cbv zeta.
  destruct (Qle_bool _ _); discriminate.
Qed.

(** The double of a rational that is not negative is not negative. *)
Lemma round_nonneg x :
  (0 <= x)%Q ->
  Double.round x = Infinity false
  \/ exists q, Double.round x = Fin q /\ (0 <= q)%Q.
Proof.
  intros H. pose proof (rnd_le 0 x H) as Hr. rewrite rnd_0 in Hr.
  unfold Double.round. cbv zeta.
  destruct (Qle_bool _ _).
  - left. apply Qle_bool_iff in Hr. rewrite Hr. reflexivity.
  - right. eexists. split; [reflexivity|]. rewrite Qred_correct. exact Hr.
Qed.

Lemma ge_trans a b c :
  Number.ge a b = true -> Number.ge b c = true -> Number.ge a c = true.
Proof.
  destruct a as [x|[]|], b as [y|[]|], c as [z|[]|]; cbn;
    try congruence.
  rewrite !Qle_bool_iff. intros; lra.
Qed.

(** Multiplying by a positive rational keeps the order. *)
Lemma ge_mul_pos a b c :
  (0 < c)%Q -> Number.ge b a = true ->
  Number.ge (Number.mul b (Fin c)) (Number.mul a (Fin c)) = true.
Proof.
  intros Hc H.
  assert (Qeq_bool c 0 = false) as E0.
  { apply not_true_iff_false. rewrite Qeq_bool_iff. lra. }
  assert (Number.Qltb c 0 = false) as E1.
  { unfold Number.Qltb. apply negb_false_iff. apply Qle_bool_iff. lra. }
  assert (forall x, Number.ge (Infinity false) (Double.round x) = true) as Ht.
  { intros x. pose proof (round_not_NaN x).
    destruct (Double.round x) as [?|[]|]; cbn; congruence. }
  assert (forall x, Number.ge (Double.round x) (Infinity true) = true) as Hb.
  { intros x. pose proof (round_not_NaN x).
    destruct (Double.round x) as [?|[]|]; cbn; congruence. }
  destruct a as [x|[]|], b as [y|[]|];
    cbn [Number.ge Number.mul negb orb] in *;
    rewrite ?E0, ?E1; cbn [xorb Number.ge negb orb];
    try congruence; try apply Ht; try apply Hb.
  apply ge_round_mono. apply Qle_bool_iff in H.
  apply Qmult_le_compat_r; lra.
Qed.

(** The estimate grows with the count of silent chunks, at a sample rate
    that is not negative: once reached, the threshold stays reached. *)
Lemma reaches_mono this chunk j1 j2 :
  Number.lt (sampleRate this) (Number.of_Z 0) = false ->
  0 <= j1 <= j2 ->
  reaches this j1 chunk = true -> reaches this j2 chunk = true.
Proof.
  intros Hrate Hj. pose proof (len_nonneg chunk) as Hlen.
  unfold reaches.
  assert (estimate_ms (sampleRate this) j1 chunk = NaN
          \/ Number.ge (estimate_ms (sampleRate this) j2 chunk)
               (estimate_ms (sampleRate this) j1 chunk) = true) as [E | E];
    [| rewrite E; discriminate | intros H; exact (ge_trans _ _ _ E H)].
  unfold estimate_ms.
  set (x1 := j1 * len chunk). set (x2 := j2 * len chunk).
  assert (0 <= x1 <= x2) as Hx by (unfold x1, x2; nia).
  assert (inject_Z x1 <= inject_Z x2)%Q as Hq
      by (rewrite <- Zle_Qle; lia).
  assert (0 <= inject_Z x1)%Q as Hq0.
  { change 0%Q with (inject_Z 0). rewrite <- Zle_Qle. lia. }
  assert (forall q, (0 <= q)%Q ->
            Number.mul (Number.div (Number.of_Z x1) (Fin q))
              (Number.of_Z 1000) = NaN
            \/ Number.ge
                 (Number.mul (Number.div (Number.of_Z x2) (Fin q))
                    (Number.of_Z 1000))
                 (Number.mul (Number.div (Number.of_Z x1) (Fin q))
                    (Number.of_Z 1000)) = true) as Hfin.
  { intros q Hq1. unfold Number.of_Z. cbn [Number.div].
    destruct (Qeq_bool q 0) eqn:Eq.
    - destruct (Qeq_bool (inject_Z x1) 0) eqn:E1; [left; reflexivity|].
      right.
      assert (0 < inject_Z x1)%Q as Hp1.
      { apply Qeq_bool_neq in E1. lra. }
      assert (Qeq_bool (inject_Z x2) 0 = false) as ->.
      { apply not_true_iff_false. rewrite Qeq_bool_iff. lra. }
      assert (Number.Qltb (inject_Z x1) 0 = false) as ->.
      { unfold Number.Qltb. apply negb_false_iff, Qle_bool_iff. lra. }
      assert (Number.Qltb (inject_Z x2) 0 = false) as ->.
      { unfold Number.Qltb. apply negb_false_iff, Qle_bool_iff. lra. }
      reflexivity.
    - right. apply Qeq_bool_neq in Eq.
      apply ge_mul_pos; [reflexivity|]. apply ge_round_mono.
      apply Qmult_le_compat_r; [exact Hq|].
      apply Qlt_le_weak, Qinv_lt_0_compat. lra. }
  assert (forall s,
            Number.ge
              (Number.mul (Number.div (Number.of_Z x2) (Infinity s))
                 (Number.of_Z 1000))
              (Number.mul (Number.div (Number.of_Z x1) (Infinity s))
                 (Number.of_Z 1000)) = true) as Hinf.
  { intros s. apply ge_mul_pos; [reflexivity|]. reflexivity. }
  destruct (sampleRate this) as [sr|[]|].
  - cbn [Number.lt Number.of_Z] in Hrate. unfold Number.Qltb in Hrate.
    apply negb_false_iff, Qle_bool_iff in Hrate.
    change (inject_Z 0) with 0%Q in Hrate.
    unfold Number.of_Z at 2 5 8. cbn [Number.mul].
    destruct (round_nonneg (sr * inject_Z 2)) as [-> | (q & -> & Hq1)].
    + change (inject_Z 2) with 2%Q. lra.
    + right. apply Hinf.
    + apply Hfin. exact Hq1.
  - discriminate Hrate.
  - right. apply Hinf.
  - left. reflexivity.
Qed.

End Estimate.

(** X14. How many silent chunks end the speech.  On a detector that is
    speaking with the counter at 0 and a sample rate that is not negative,
    a run of [n] copies of one silent chunk emits [speech_end] at chunk
    [k] (counted from 0) exactly when the estimate of [k + 1] chunks,
    [((k + 1) * chunk.length) / (sampleRate * 2) * 1000] computed in
    doubles as the code computes it, reaches [silenceDurationMs] and the
    estimate of [k] chunks does not (or [k] is 0): the estimate never
    falls back below the threshold as the counter grows. *)
Theorem speech_end_after_uniform_silence (this : VADDetector.t)
    (chunk : Buffer.t) (n : nat) :
  Number.lt (VADDetector.sampleRate this) (Number.of_Z 0) = false ->
  VADDetector.isSpeaking this = true ->
  VADDetector.consecutiveSilence this = 0 ->
  VADDetector.detectSilence this chunk = Ok true ->
  exists this' trace,
    VADDetector.run this (replicate n chunk)
    = Ok (this', trace, replicate n chunk)
    /\ forall k,
         trace !! k = Some [speech_end]
         <-> ((k < n)%nat
              /\ reaches this (Z.of_nat k + 1) chunk = true
              /\ (k = 0%nat \/ reaches this (Z.of_nat k) chunk = false)).
Proof.
  intros Hrate Hsp Hcnt Hsilent.
  destruct (run_silent (replicate n chunk) this)
    as (this' & trace & Hrun & _ & _ & Hiff & _).
  { apply Forall_replicate. exact Hsilent. }
  exists this', trace. split; [exact Hrun|].
  assert (forall j,
             reaches_at this 0 (replicate n chunk) j
             <-> (j < n)%nat /\ reaches this (Z.of_nat j + 1) chunk = true)
    as Hat.
  { intros j. unfold reaches_at. split.
    - intros (c & Hc & Hr). apply lookup_replicate in Hc as [-> Hj].
      split; [exact Hj|].
      replace (Z.of_nat j + 1) with (0 + Z.of_nat j + 1) by lia. exact Hr.
    - intros [Hj He]. exists chunk. split.
      + apply lookup_replicate. split; [reflexivity | exact Hj].
      + replace (0 + Z.of_nat j + 1) with (Z.of_nat j + 1) by lia.
        exact He. }
  intros k. rewrite Hiff, Hcnt. split.
  - intros (_ & Hr & Hnone). apply Hat in Hr as [Hk He].
    split; [exact Hk|]. split; [exact He|].
    destruct k as [|k']; [left; reflexivity|]. right.
    apply not_true_iff_false. intros Hen.
    apply (Hnone k' ltac:(lia)). apply Hat. split; [lia|].
    replace (Z.of_nat k' + 1) with (Z.of_nat (Datatypes.S k')) by lia.
    exact Hen.
  - intros (Hk & He & Hfirst). split; [exact Hsp|]. split.
    + apply Hat. split; assumption.
    + intros j Hj Hr. apply Hat in Hr as [_ Hej].
      destruct Hfirst as [-> | Hnot]; [lia|].
      rewrite (reaches_mono this chunk (Z.of_nat j + 1) (Z.of_nat k)
                 Hrate ltac:(lia) Hej) in Hnot.
      discriminate Hnot.
Qed.

Lemma speech_end_after_uniform_silence_witness :
  exists this' trace,
    VADDetector.run
      (VADDetector.mk (Number.of_Z 500) (Number.of_Z 4020)
         (Number.of_Z 16000) 0 true)
      (replicate 202 (silence 640))
    = Ok (this', trace, replicate 202 (silence 640))
    /\ trace !! 201%nat = Some [speech_end].
Proof.
  destruct (speech_end_after_uniform_silence
              (VADDetector.mk (Number.of_Z 500) (Number.of_Z 4020)
                 (Number.of_Z 16000) 0 true)
              (silence 640) 202)
    as (this' & trace & H1 & H2).
  - reflexivity.
  - reflexivity.
  - reflexivity.
  - vm_compute. reflexivity.
  - exists this', trace. split; [exact H1|]. apply H2.
    split; [lia|]. split; [|right]; vm_compute; reflexivity.
Defined.

Section SessionFacts.

Import Session.

Lemma bufferKey_cons c g u :
  bufferKey (String c g) u = String c (bufferKey g u).
Proof. reflexivity. Qed.

Lemma bufferKey_inj g : forall g' u u',
  has_dash g = false -> has_dash g' = false ->
  bufferKey g u = bufferKey g' u' -> g = g' /\ u = u'.
Proof.
  induction g as [|c g IH]; intros [|c' g'] u u' Hg Hg' E.
  - change (String "-" u = String "-" u') in E.
    split; [reflexivity | congruence].
  - change (String "-" u = String c' (bufferKey g' u')) in E.
    cbn in Hg'. destruct (decide (c' = "-"%char)); [discriminate|].
    congruence.
  - change (String c (bufferKey g u) = String "-" u') in E.
    cbn in Hg. destruct (decide (c = "-"%char)); [discriminate|].
    congruence.
  - rewrite !bufferKey_cons in E.
    assert (c = c' /\ bufferKey g u = bufferKey g' u') as [<- E']
        by (split; congruence).
    cbn in Hg, Hg'. destruct (decide (c = "-"%char)); [discriminate|].
    destruct (IH g' u u' Hg Hg' E') as [-> ->]. split; reflexivity.
Qed.

Lemma feed_cons st guildId userId chunk now rest :
  feed st guildId userId ((chunk, now) :: rest)
  = feed (on_vad_data st guildId userId chunk now) guildId userId rest.
Proof. reflexivity. Qed.

(** The entry of a speaker after chunks arrived. *)
Lemma feed_entry guildId userId arrivals : forall st entry,
  audioBuffers st !! bufferKey guildId userId = Some entry ->
  exists entry',
    audioBuffers (feed st guildId userId arrivals)
    !! bufferKey guildId userId = Some entry'
    /\ chunks entry' = chunks entry ++ arrivals.*1
    /\ ctx (feed st guildId userId arrivals) = ctx st.
Proof.
  induction arrivals as [|[chunk now] rest IH]; intros st entry Hs.
  - exists entry. split; [exact Hs|]. cbn. rewrite app_nil_r.
    split; reflexivity.
  - rewrite feed_cons.
    destruct (IH (on_vad_data st guildId userId chunk now)
                {| chunks := chunks entry ++ [chunk];
                   startTime := startTime entry;
                   lastChunkTime := now;
                   silenceCount := silenceCount entry |})
      as (entry' & H1 & H2 & H3).
    + unfold on_vad_data. rewrite Hs. cbn. apply lookup_insert_eq.
    + exists entry'. split; [exact H1|]. split.
      * rewrite H2. cbn. rewrite <- app_assoc. reflexivity.
      * rewrite H3. unfold on_vad_data. rewrite Hs. reflexivity.
Qed.

(** Chunks for a key without an entry are dropped. *)
Lemma feed_no_entry guildId userId arrivals : forall st,
  audioBuffers st !! bufferKey guildId userId = None ->
  feed st guildId userId arrivals = st.
Proof.
  induction arrivals as [|[chunk now] rest IH]; intros st Hs; [reflexivity|].
  rewrite feed_cons. unfold on_vad_data. rewrite Hs. apply IH. exact Hs.
Qed.

(** What the three handlers of one key do to another key: nothing. *)
Lemma other_key_untouched st guildId userId key' :
  bufferKey guildId userId <> key' ->
  (forall now,
      audioBuffers (on_speaking_start st guildId userId now) !! key'
      = audioBuffers st !! key')
  /\ (forall chunk now,
         audioBuffers (on_vad_data st guildId userId chunk now) !! key'
         = audioBuffers st !! key')
  /\ audioBuffers (transcribeUserSpeech st guildId userId).1 !! key'
     = audioBuffers st !! key'.
Proof.
  intros Hne. split; [|split].
  - intros now. cbn. apply lookup_insert_ne. exact Hne.
  - intros chunk now. unfold on_vad_data.
    destruct (audioBuffers st !! bufferKey guildId userId); [|reflexivity].
    cbn. apply lookup_insert_ne. exact Hne.
  - unfold transcribeUserSpeech.
    destruct (ctx st) as [c|]; [|reflexivity].
    destruct (audioBuffers st !! bufferKey guildId userId) as [b|];
      [|reflexivity].
    destruct (length (chunks b) =? 0)%nat; [reflexivity|].
    destruct (getSTT c); cbn; apply lookup_delete_ne; exact Hne.
Qed.

End SessionFacts.

(** X15. The buffer key separates speakers as long as guild ids have no
    hyphen (Discord ids are decimal): two pairs of guild and user with
    one key are the same pair.  With a hyphen in a guild id two different
    pairs can share a key, and with it a buffer. *)
Theorem bufferKey_injective (guildId userId guildId' userId' : string) :
  has_dash guildId = false ->
  has_dash guildId' = false ->
  Session.bufferKey guildId userId = Session.bufferKey guildId' userId' ->
  (guildId = guildId' /\ userId = userId')
  /\ Session.bufferKey "1-2" "3" = Session.bufferKey "1" "2-3".
Proof.
  intros Hg Hg' E. split; [|reflexivity].
  apply (bufferKey_inj guildId guildId' userId userId' Hg Hg' E).
Qed.

Lemma bufferKey_injective_witness :
  ("123"%string = "123"%string /\ "45"%string = "45"%string)
  /\ Session.bufferKey "1-2" "3" = Session.bufferKey "1" "2-3".
Proof.
  apply (bufferKey_injective "123" "45" "123" "45" eq_refl eq_refl eq_refl).
Defined.

(** X16. Speakers are isolated: with guild ids without a hyphen, the
    handlers of one speaker (the start of speaking, an arriving chunk, the
    transcription) leave the buffer entry of every other pair of guild and
    user as it is. *)
Theorem speakers_are_isolated (st : Session.Plugin)
    (guildId userId guildId' userId' : string) :
  has_dash guildId = false ->
  has_dash guildId' = false ->
  (guildId, userId) <> (guildId', userId') ->
  (forall now,
      Session.audioBuffers (Session.on_speaking_start st guildId userId now)
      !! Session.bufferKey guildId' userId'
      = Session.audioBuffers st !! Session.bufferKey guildId' userId')
  /\ (forall chunk now,
         Session.audioBuffers
           (Session.on_vad_data st guildId userId chunk now)
         !! Session.bufferKey guildId' userId'
         = Session.audioBuffers st !! Session.bufferKey guildId' userId')
  /\ Session.audioBuffers (Session.transcribeUserSpeech st guildId userId).1
     !! Session.bufferKey guildId' userId'
     = Session.audioBuffers st !! Session.bufferKey guildId' userId'.
Proof.
  intros Hg Hg' Hne. apply other_key_untouched. intros E.
  destruct (bufferKey_inj guildId guildId' userId userId' Hg Hg' E)
    as [-> ->].
  apply Hne. reflexivity.
Qed.

Lemma speakers_are_isolated_witness :
  Session.audioBuffers
    (Session.on_speaking_start (Session.mkPlugin None ∅) "1" "2" 0)
  !! Session.bufferKey "1" "3"
  = (∅ : gmap string Session.AudioBufferState) !! Session.bufferKey "1" "3".
Proof.
  destruct (speakers_are_isolated (Session.mkPlugin None ∅)
              "1" "2" "1" "3" eq_refl eq_refl ltac:(discriminate))
    as (H & _).
  exact (H 0).
Defined.

(** X17. An entry is consumed once.  With a context, transcribing a key
    that has chunks removes its entry whether or not an STT provider is
    there (without one the audio is dropped and nothing is called, with
    one there is the one call).  Afterwards, chunks that arrive for the
    key are dropped, and transcribing the key again does nothing, whatever
    the context is by then. *)
Theorem entry_consumed_once (st : Session.Plugin) (guildId userId : string)
    (c : Session.Context) (buffer : Session.AudioBufferState) :
  Session.ctx st = Some c ->
  Session.audioBuffers st !! Session.bufferKey guildId userId = Some buffer ->
  Session.chunks buffer <> [] ->
  Session.audioBuffers (Session.transcribeUserSpeech st guildId userId).1
  = delete (Session.bufferKey guildId userId) (Session.audioBuffers st)
  /\ length (Session.transcribeUserSpeech st guildId userId).2
     = match Session.getSTT c with Some _ => 1 | None => 0 end%nat
  /\ (forall arrivals,
        feed (Session.transcribeUserSpeech st guildId userId).1
          guildId userId arrivals
        = (Session.transcribeUserSpeech st guildId userId).1)
  /\ (forall later,
        Session.audioBuffers later
        = Session.audioBuffers
            (Session.transcribeUserSpeech st guildId userId).1 ->
        Session.transcribeUserSpeech later guildId userId = (later, [])).
Proof.
  intros Hctx Hbuf Hne.
  assert (Session.audioBuffers
            (Session.transcribeUserSpeech st guildId userId).1
          = delete (Session.bufferKey guildId userId)
              (Session.audioBuffers st)
          /\ length (Session.transcribeUserSpeech st guildId userId).2
             = match Session.getSTT c with Some _ => 1 | None => 0 end%nat)
    as [Hdel Hcalls].
  { unfold Session.transcribeUserSpeech. rewrite Hctx, Hbuf.
    destruct (Session.chunks buffer) as [|x l]; [congruence|].
    cbn [length Nat.eqb]. destruct (Session.getSTT c); split; reflexivity. }
  split; [exact Hdel|]. split; [exact Hcalls|]. split.
  - intros arrivals. apply feed_no_entry. rewrite Hdel.
    apply lookup_delete_eq.
  - intros later Hlater. unfold Session.transcribeUserSpeech.
    rewrite Hlater, Hdel, lookup_delete_eq.
    destruct (Session.ctx later); reflexivity.
Qed.

Lemma entry_consumed_once_witness :
  length
    (Session.transcribeUserSpeech
       (Session.mkPlugin (Some (Session.mkContext None))
          {[ Session.bufferKey "1" "2" :=
               Session.mkAudioBufferState [[x01; x00]] 5 9 0 ]})
       "1" "2").2
  = 0%nat.
Proof.
  destruct (entry_consumed_once
              (Session.mkPlugin (Some (Session.mkContext None))
                 {[ Session.bufferKey "1" "2" :=
                      Session.mkAudioBufferState [[x01; x00]] 5 9 0 ]})
              "1" "2" (Session.mkContext None)
              (Session.mkAudioBufferState [[x01; x00]] 5 9 0)
              eq_refl (lookup_singleton_eq _ _) ltac:(discriminate))
    as (_ & H & _).
  exact H.
Defined.

(** X18. Only the chunks since the last start are transcribed.  Each
    "start" of the receiver creates the entry of the speaker anew: chunks
    that arrived after an earlier start and were not transcribed are
    lost.  With no chunk since the last start the provider is not called;
    otherwise it is called once, with one buffer that is as long as the
    chunks since the last start together and has byte [k] of each of them
    at [k] past the chunks before it. *)
Theorem only_chunks_since_last_start (st : Session.Plugin)
    (guildId userId : string) (c : Session.Context)
    (provider : Session.STTProvider)
    (earlier arrivals : list (Buffer.t * Z)) (t0 t1 : Z) :
  Session.ctx st = Some c ->
  Session.getSTT c = Some provider ->
  let calls :=
    (Session.transcribeUserSpeech
       (feed (Session.on_speaking_start
                (feed (Session.on_speaking_start st guildId userId t0)
                   guildId userId earlier)
                guildId userId t1)
          guildId userId arrivals)
       guildId userId).2 in
  (arrivals = [] -> calls = [])
  /\ (arrivals <> [] ->
      exists call,
        calls = [call]
        /\ length (Session.audio call)
           = sum_list (length <$> arrivals.*1)
        /\ (forall before chunk after k b,
              arrivals.*1 = before ++ chunk :: after ->
              chunk !! k = Some b ->
              Session.audio call
              !! (sum_list (length <$> before) + k)%nat = Some b)
        /\ Session.options call
           = {| Session.format := "pcm_s16le";
                Session.sampleRate := 16000;
                Session.language := "en" |}).
Proof.
  intros Hctx Hstt calls. subst calls.
  set (st1 := feed (Session.on_speaking_start st guildId userId t0)
                guildId userId earlier).
  assert (Session.ctx st1 = Some c) as Hctx1.
  { destruct (feed_entry guildId userId earlier
                (Session.on_speaking_start st guildId userId t0)
                (Session.mkAudioBufferState [] t0 t0 0))
      as (_ & _ & _ & H); [cbn; apply lookup_insert_eq|].
    unfold st1. rewrite H. exact Hctx. }
  destruct (feed_entry guildId userId arrivals
              (Session.on_speaking_start st1 guildId userId t1)
              (Session.mkAudioBufferState [] t1 t1 0))
    as (entry & Hentry & Hchunks & Hc2); [cbn; apply lookup_insert_eq|].
  unfold Session.transcribeUserSpeech.
  rewrite Hc2. cbn [Session.on_speaking_start Session.ctx].
  rewrite Hctx1, Hentry, Hchunks, Hstt. cbn [Session.chunks app].
  destruct arrivals as [|a l].
  - split; [reflexivity | congruence].
  - split; [discriminate|]. intros _. eexists. split; [reflexivity|].
    cbn [Session.audio Session.options].
    split; [apply concat_length|]. split; [|reflexivity].
    intros before chunk after k b Hsplit Hk. rewrite Hsplit.
    apply concat_lookup. exact Hk.
Qed.

Lemma only_chunks_since_last_start_witness :
  exists call,
    (Session.transcribeUserSpeech
       (feed (Session.on_speaking_start
                (feed (Session.on_speaking_start
                         (Session.mkPlugin
                            (Some (Session.mkContext
                                     (Some Session.stt_provider))) ∅)
                         "1" "2" 0)
                   "1" "2" [([x01; x00], 1)])
                "1" "2" 2)
          "1" "2" [([x02; x00], 3); ([x03; x04], 4)])
       "1" "2").2
    = [call]
    /\ length (Session.audio call) = 4%nat
    /\ Session.audio call !! 3%nat = Some x04.
Proof.
  destruct (only_chunks_since_last_start
              (Session.mkPlugin
                 (Some (Session.mkContext (Some Session.stt_provider))) ∅)
              "1" "2" (Session.mkContext (Some Session.stt_provider))
              Session.stt_provider [([x01; x00], 1)]
              [([x02; x00], 3); ([x03; x04], 4)] 0 2
              eq_refl eq_refl) as [_ H].
  destruct (H ltac:(discriminate)) as (call & H1 & H2 & H3 & _).
  exists call. split; [exact H1|]. split; [exact H2|].
  apply (H3 [[x02; x00]] [x03; x04] [] 1%nat x04); reflexivity.
Defined.

Section VoiceFacts.

Import Voice.

Lemma get_delete_eq {V : Type} (map : list (string * V)) key :
  JsMap.get (JsMap.delete map key) key = None.
Proof.
  induction map as [|[k v] rest IH]; [reflexivity|].
  unfold JsMap.delete in *. cbn [List.filter fst].
  destruct (bool_decide_reflect (k = key)) as [E|E]; cbn [negb].
  - exact IH.
  - cbn [JsMap.get]. destruct (decide (k = key)); [contradiction | exact IH].
Qed.

Lemma get_delete_ne {V : Type} (map : list (string * V)) key key' :
  key <> key' ->
  JsMap.get (JsMap.delete map key) key' = JsMap.get map key'.
Proof.
  intros Hne. induction map as [|[k v] rest IH]; [reflexivity|].
  unfold JsMap.delete in *. cbn [List.filter fst JsMap.get].
  destruct (bool_decide_reflect (k = key)) as [E|E]; cbn [negb].
  - subst k. destruct (decide (key = key')); [contradiction | exact IH].
  - cbn [JsMap.get]. destruct (decide (k = key')); [reflexivity | exact IH].
Qed.

Lemma delete_absent {V : Type} (map : list (string * V)) key :
  key ∉ map.*1 -> JsMap.delete map key = map.
Proof.
  induction map as [|[k v] rest IH]; intros Hnot; [reflexivity|].
  unfold JsMap.delete in *. cbn [List.filter fst].
  cbn in Hnot. apply not_elem_of_cons in Hnot as [Hk Hrest].
  destruct (bool_decide_reflect (k = key)) as [E|E]; [congruence|].
  cbn [negb]. f_equal. apply IH. exact Hrest.
Qed.

Lemma delete_delete {V : Type} (map : list (string * V)) key :
  JsMap.delete (JsMap.delete map key) key = JsMap.delete map key.
Proof.
  induction map as [|[k v] rest IH]; [reflexivity|].
  unfold JsMap.delete in *. cbn [List.filter fst].
  destruct (bool_decide_reflect (k = key)) as [E|E]; cbn [negb];
    [exact IH|].
  cbn [List.filter fst].
  destruct (bool_decide_reflect (k = key)) as [E'|E']; [contradiction|].
  cbn [negb]. f_equal. exact IH.
Qed.

Lemma get_foldl_delete {V : Type} keys : forall (map : list (string * V)) key,
  JsMap.get (foldl JsMap.delete map keys) key
  = if decide (key ∈ keys) then None else JsMap.get map key.
Proof.
  induction keys as [|k keys IH]; intros map key.
  - cbn. destruct (decide (key ∈ [])) as [H|H]; [|reflexivity].
    apply elem_of_nil in H. contradiction.
  - cbn [foldl]. rewrite IH.
    destruct (decide (key ∈ keys)) as [Hin|Hnot].
    + destruct (decide (key ∈ k :: keys)) as [_|H]; [reflexivity|].
      exfalso. apply H. apply elem_of_cons. right. exact Hin.
    + destruct (decide (key ∈ k :: keys)) as [H|H].
      * apply elem_of_cons in H as [-> | H]; [|contradiction].
        apply get_delete_eq.
      * apply get_delete_ne. intros ->. apply H. apply elem_of_cons.
        left. reflexivity.
Qed.

(** The loop of [shutdown] over the entries the map has. *)
Lemma shutdown_loop conns : forall st,
  connections st = conns -> NoDup conns.*1 ->
  connections (foldl leaveChannel st conns.*1) = []
  /\ destroyed (foldl leaveChannel st conns.*1) = destroyed st ++ conns.*2
  /\ audioPlayers (foldl leaveChannel st conns.*1)
     = foldl JsMap.delete (audioPlayers st) conns.*1
  /\ voiceStates (foldl leaveChannel st conns.*1)
     = foldl JsMap.delete (voiceStates st) conns.*1.
Proof.
  induction conns as [|[k c] rest IH]; intros st Hst Hnodup.
  - cbn. rewrite app_nil_r. repeat split. exact Hst.
  - cbn [fmap list_fmap fst snd foldl] in *.
    apply NoDup_cons in Hnodup as [Hk Hrest].
    assert (leaveChannel st k
            = {| connections := rest;
                 audioPlayers := JsMap.delete (audioPlayers st) k;
                 voiceStates := JsMap.delete (voiceStates st) k;
                 destroyed := destroyed st ++ [c] |}) as ->.
    { unfold leaveChannel. rewrite Hst. cbn [JsMap.get].
      destruct (decide (k = k)); [|contradiction]. f_equal.
      unfold JsMap.delete. cbn [List.filter fst].
      destruct (bool_decide_reflect (k = k)); [|contradiction].
      cbn [negb]. apply (delete_absent rest k). exact Hk. }
    destruct (IH {| connections := rest;
                    audioPlayers := JsMap.delete (audioPlayers st) k;
                    voiceStates := JsMap.delete (voiceStates st) k;
                    destroyed := destroyed st ++ [c] |} eq_refl Hrest)
      as (H1 & H2 & H3 & H4).
    split; [exact H1|]. split; [|split; assumption].
    rewrite H2. cbn. rewrite <- app_assoc. reflexivity.
Qed.

End VoiceFacts.

(** X19. [leaveChannel] of a connected guild calls [destroy] on its
    connection, once, and removes the guild from [connections],
    [audioPlayers] and [voiceStates]; the entries of other guilds stay as
    they are.  For a guild that is not connected it changes nothing, so
    leaving twice is leaving once. *)
Theorem leaveChannel_spec (st : Voice.State) (guildId : string)
    (connection : Voice.VoiceConnection) :
  JsMap.get (Voice.connections st) guildId = Some connection ->
  (JsMap.get (Voice.connections (Voice.leaveChannel st guildId)) guildId
   = None
   /\ JsMap.get (Voice.audioPlayers (Voice.leaveChannel st guildId)) guildId
      = None
   /\ JsMap.get (Voice.voiceStates (Voice.leaveChannel st guildId)) guildId
      = None)
  /\ Voice.destroyed (Voice.leaveChannel st guildId)
     = Voice.destroyed st ++ [connection]
  /\ (forall other,
        guildId <> other ->
        JsMap.get (Voice.connections (Voice.leaveChannel st guildId)) other
        = JsMap.get (Voice.connections st) other
        /\ JsMap.get (Voice.audioPlayers (Voice.leaveChannel st guildId))
             other
           = JsMap.get (Voice.audioPlayers st) other
        /\ JsMap.get (Voice.voiceStates (Voice.leaveChannel st guildId))
             other
           = JsMap.get (Voice.voiceStates st) other)
  /\ Voice.leaveChannel (Voice.leaveChannel st guildId) guildId
     = Voice.leaveChannel st guildId
  /\ (forall idle other,
        JsMap.get (Voice.connections idle) other = None ->
        Voice.leaveChannel idle other = idle).
Proof.
  intros Hget.
  assert (Voice.leaveChannel st guildId
          = {| Voice.connections :=
                 JsMap.delete (Voice.connections st) guildId;
               Voice.audioPlayers :=
                 JsMap.delete (Voice.audioPlayers st) guildId;
               Voice.voiceStates :=
                 JsMap.delete (Voice.voiceStates st) guildId;
               Voice.destroyed := Voice.destroyed st ++ [connection] |})
    as Hleave by (unfold Voice.leaveChannel; rewrite Hget; reflexivity).
  rewrite Hleave. cbn [Voice.connections Voice.audioPlayers
                       Voice.voiceStates Voice.destroyed].
  split; [repeat split; apply get_delete_eq|]. split; [reflexivity|].
  split; [|split].
  - intros other Hne. repeat split; apply get_delete_ne; exact Hne.
  - unfold Voice.leaveChannel at 1.
    cbn [Voice.connections]. rewrite get_delete_eq. reflexivity.
  - intros idle other Hnone. unfold Voice.leaveChannel. rewrite Hnone.
    reflexivity.
Qed.

Lemma leaveChannel_spec_witness :
  Voice.destroyed
    (Voice.leaveChannel
       (Voice.mkState
          [("1"%string, Voice.voice_connection 7);
           ("2"%string, Voice.voice_connection 8)]
          [("1"%string, Voice.audio_player 7);
           ("2"%string, Voice.audio_player 8)] [] [])
       "2")
  = [] ++ [Voice.voice_connection 8].
Proof.
  destruct (leaveChannel_spec
              (Voice.mkState
                 [("1"%string, Voice.voice_connection 7);
                  ("2"%string, Voice.voice_connection 8)]
                 [("1"%string, Voice.audio_player 7);
                  ("2"%string, Voice.audio_player 8)] [] [])
              "2" (Voice.voice_connection 8) eq_refl) as (_ & H & _).
  exact H.
Defined.

(** X20. The loop of [shutdown] leaves every voice channel: afterwards
    [connections] is empty, [destroy] was called on every connection the
    map had, once each and in the order of the map, and [audioPlayers] and
    [voiceStates] have lost exactly the guilds that were connected. *)
Theorem shutdown_leaves_every_channel (st : Voice.State) :
  NoDup (Voice.connections st).*1 ->
  Voice.connections (Voice.shutdown st) = []
  /\ Voice.destroyed (Voice.shutdown st)
     = Voice.destroyed st ++ (Voice.connections st).*2
  /\ forall guildId,
       JsMap.get (Voice.audioPlayers (Voice.shutdown st)) guildId
       = (if decide (guildId ∈ (Voice.connections st).*1) then None
          else JsMap.get (Voice.audioPlayers st) guildId)
       /\ JsMap.get (Voice.voiceStates (Voice.shutdown st)) guildId
          = (if decide (guildId ∈ (Voice.connections st).*1) then None
             else JsMap.get (Voice.voiceStates st) guildId).
Proof.
  intros Hnodup. unfold Voice.shutdown.
  destruct (shutdown_loop (Voice.connections st) st eq_refl Hnodup)
    as (H1 & H2 & H3 & H4).
  split; [exact H1|]. split; [exact H2|]. intros guildId.
  rewrite H3, H4, !get_foldl_delete. split; reflexivity.
Qed.

Lemma shutdown_leaves_every_channel_witness :
  Voice.connections
    (Voice.shutdown
       (Voice.mkState
          [("1"%string, Voice.voice_connection 7);
           ("2"%string, Voice.voice_connection 8)]
          [("1"%string, Voice.audio_player 7);
           ("2"%string, Voice.audio_player 8)] [] []))
  = [].
Proof.
  destruct (shutdown_leaves_every_channel
              (Voice.mkState
                 [("1"%string, Voice.voice_connection 7);
                  ("2"%string, Voice.voice_connection 8)]
                 [("1"%string, Voice.audio_player 7);
                  ("2"%string, Voice.audio_player 8)] [] []))
    as (H & _).
  - apply (bool_decide_unpack _). vm_compute. exact I.
  - exact H.
Defined.

(** X21. [init] goes on to create the client exactly when the plugin's
    own configuration has a token and a client id that are not empty, and
    then with that configuration.  The token of the main "discord"
    configuration is taken only with an empty client id, with which [init]
    returns as not configured: the fallback never starts the plugin. *)
Theorem init_config_spec (config : option Plugin.Config)
    (legacy : option string) (cfg : Plugin.Config) :
  (Plugin.init_config config legacy = Some cfg
   <-> (config = Some cfg
        /\ Plugin.truthy (Plugin.token cfg) = true
        /\ Plugin.truthy (Plugin.clientId cfg) = true))
  /\ (Plugin.truthy (config ≫= Plugin.token) = false ->
      Plugin.init_config config legacy = None).
Proof.
  unfold Plugin.init_config. split.
  - destruct config as [[[[|? ?]|] gid [[|? ?]|]]|],
      legacy as [[|? ?]|]; cbn; split;
      try (intros [= <-]; repeat split; reflexivity);
      try discriminate;
      try (intros ([= <-] & Ht & Hc); try reflexivity; discriminate);
      try (intros (E & _); discriminate E).
  - intros Hfalse. rewrite Hfalse. cbn [negb].
    destruct (Plugin.truthy legacy); cbn.
    + rewrite orb_true_r. reflexivity.
    + rewrite Hfalse. reflexivity.
Qed.

Lemma init_config_spec_witness :
  Plugin.init_config None (Some "token"%string) = None.
Proof.
  destruct (init_config_spec None (Some "token"%string)
              (Plugin.mkConfig None None None)) as [_ H].
  apply H. reflexivity.
Defined.

(** X22. A ratio that is not finite makes the upsampler throw.  When
    [resampleRatio] is an infinity or NaN, [resampleAndStereo] throws on
    every buffer, the empty one included: the size handed to
    [Buffer.alloc] is an infinity or NaN.  An input rate of 0 gives such a
    converter, 48000 / 0 being Infinity, and so does a rate that is NaN. *)
Theorem resampleAndStereo_ratio_not_finite (this : PCMToOpusConverter.t)
    (buffer : Buffer.t) :
  (forall ratio : Q, PCMToOpusConverter.resampleRatio this <> Fin ratio) ->
  (exists e, PCMToOpusConverter.resampleAndStereo this buffer = Throw e)
  /\ PCMToOpusConverter.resampleRatio
       (PCMToOpusConverter.new (Some (Number.of_Z 0))) = Infinity false
  /\ PCMToOpusConverter.resampleRatio (PCMToOpusConverter.new (Some NaN))
     = NaN.
Proof.
  intros Hratio. split; [|split; reflexivity].
  unfold PCMToOpusConverter.resampleAndStereo.
  destruct (PCMToOpusConverter.resampleRatio this) as [ratio|s|].
  - exfalso. exact (Hratio ratio eq_refl).
  - cbn [Number.mul].
    destruct (Qeq_bool (inject_Z (Buffer.len buffer) / 2) 0);
      eexists; reflexivity.
  - eexists. reflexivity.
Qed.

Lemma resampleAndStereo_ratio_not_finite_witness :
  exists e,
    PCMToOpusConverter.resampleAndStereo
      (PCMToOpusConverter.new (Some (Number.of_Z 0))) [] = Throw e.
Proof.
  destruct (resampleAndStereo_ratio_not_finite
              (PCMToOpusConverter.new (Some (Number.of_Z 0))) [])
    as [H _].
  - intros ratio. discriminate.
  - exact H.
Defined.
